(** * unitree_a1_neural_control: the feature/command adapter of the A1 policy

    A shallow embedding of [UnitreeNeuralControl]
    (src/src/unitree_a1_neural_control.cpp and its header) together with
    the properties its specification states about it.

    - C++ [float] is IEEE-754 binary32 and [double] binary64, both taken
      from the Standard Library's executable [SpecFloat] (round to nearest,
      ties to even); every arithmetic operation of the source is one
      correctly rounded operation of the model.
    - [int16_t] and [uint32_t] values are integers of [Z]; the source
      compares them and converts them to [float], nothing else.
    - [std::array<float, N>] and [std::vector<float>] are lists. An array
      keeps its length ([wf]); reading a vector out of range, or copying
      past the end of an array, is undefined in C++ and is an error
      ([None]) here.
    - The member functions pass the controller object explicitly; the
      constructor body runs on an object whose members hold what the
      memory held.
    - Numerical properties are stated on the floats the code computes,
      through the real number each float stands for ([F2R]); the bounds
      come from the rounding error of each operation. *)

From stdpp Require Import base option list.
From Stdlib Require Import ZArith Lia Reals Lra.
From Stdlib Require Import Floats.SpecFloat.

Local Open Scope Z_scope.

(** ** Scalars *)

(** What Eigen's templates ask of their [Scalar] parameter. *)
Class Scalar (T : Type) := {
  s_of_Z : Z -> T;
  s_add : T -> T -> T;
  s_sub : T -> T -> T;
  s_mul : T -> T -> T;
  s_div : T -> T -> T;
  s_sqrt : T -> T;
  s_ltb : T -> T -> bool
}.

(** C++ [float]. *)
Module F32.
Definition prec : Z := 24.
Definition emax : Z := 128.
Definition t : Type := spec_float.

(** The float nearest to [m * 2^e]. *)
Definition lit (m e : Z) : t := binary_normalize prec emax m e false.
Definition of_Z (z : Z) : t := lit z 0.
Definition zero : t := S754_zero false.
Definition one : t := Eval vm_compute in of_Z 1.

Definition add : t -> t -> t := SFadd prec emax.
Definition sub : t -> t -> t := SFsub prec emax.
Definition mul : t -> t -> t := SFmul prec emax.
Definition div : t -> t -> t := SFdiv prec emax.
Definition sqrt : t -> t := SFsqrt prec emax.
Definition eqb : t -> t -> bool := SFeqb.
Definition ltb : t -> t -> bool := SFltb.

Definition is_finite (x : t) : bool :=
    match x with
    | S754_zero _ | S754_finite _ _ _ => true
    | _ => false
    end.

Definition is_zero (x : t) : bool :=
    match x with S754_zero _ => true | _ => false end.

(** The integer a float stands for, when it is one. *)
Definition to_Z (x : t) : option Z :=
    match x with
    | S754_zero _ => Some 0
    | S754_finite s m e =>
        if 0 <=? e then Some (cond_Zopp s (Z.pos m * 2 ^ e))
        else if (Z.pos m mod 2 ^ (- e)) =? 0
             then Some (cond_Zopp s (Z.pos m / 2 ^ (- e)))
             else None
    | _ => None
    end.
End F32.

(** C++ [double]. *)
Module F64.
Definition prec : Z := 53.
Definition emax : Z := 1024.
Definition t : Type := spec_float.

Definition lit (m e : Z) : t := binary_normalize prec emax m e false.
Definition add : t -> t -> t := SFadd prec emax.
Definition mul : t -> t -> t := SFmul prec emax.
End F64.

(** Implicit conversion [double -> float]: rounds. *)
Definition double_to_float (x : F64.t) : F32.t :=
  match x with
  | S754_finite s m e => binary_normalize F32.prec F32.emax (cond_Zopp s (Z.pos m)) e s
  | _ => x
  end.

(** Implicit conversion [float -> double]: exact. *)
Definition float_to_double (x : F32.t) : F64.t :=
  match x with
  | S754_finite s m e => binary_normalize F64.prec F64.emax (cond_Zopp s (Z.pos m)) e s
  | _ => x
  end.

#[export] Instance F32_inhabited : Inhabited F32.t := populate F32.zero.

#[export] Instance F32_scalar : Scalar F32.t := {|
  s_of_Z := F32.of_Z;
  s_add := F32.add;
  s_sub := F32.sub;
  s_mul := F32.mul;
  s_div := F32.div;
  s_sqrt := F32.sqrt;
  s_ltb := F32.ltb
|}.

(** ** Eigen

    The three members of Eigen the controller calls, with Eigen's own
    algorithms: [Quaternion * Vector3] is [_transformVector], [normalize]
    divides by the norm when the squared norm is positive. They are
    templates over the scalar type, as here. *)
Module Eigen.
Section Templates.
Context {T : Type} `{!Scalar T}.

Record Vector3 : Type := mkVector3 { x : T; y : T; z : T }.

(** Constructor order is (w, x, y, z). *)
Record Quaternion : Type := mkQuaternion { qw : T; qx : T; qy : T; qz : T }.

Definition vec (q : Quaternion) : Vector3 := mkVector3 (qx q) (qy q) (qz q).

Definition cross (a b : Vector3) : Vector3 :=
      mkVector3 (s_sub (s_mul (y a) (z b)) (s_mul (z a) (y b)))
                (s_sub (s_mul (z a) (x b)) (s_mul (x a) (z b)))
                (s_sub (s_mul (x a) (y b)) (s_mul (y a) (x b))).

Definition plus (a b : Vector3) : Vector3 :=
      mkVector3 (s_add (x a) (x b)) (s_add (y a) (y b)) (s_add (z a) (z b)).

Definition scale (k : T) (a : Vector3) : Vector3 :=
      mkVector3 (s_mul k (x a)) (s_mul k (y a)) (s_mul k (z a)).

Definition quot (a : Vector3) (k : T) : Vector3 :=
      mkVector3 (s_div (x a) k) (s_div (y a) k) (s_div (z a) k).

(** [uv = vec.cross(v); uv += uv; return v + w * uv + vec.cross(uv)] *)
Definition transformVector (q : Quaternion) (v : Vector3) : Vector3 :=
      let uv := cross (vec q) v in
      let uv := plus uv uv in
      plus (plus v (scale (qw q) uv)) (cross (vec q) uv).

Definition squaredNorm (a : Vector3) : T :=
      s_add (s_mul (x a) (x a)) (s_add (s_mul (y a) (y a)) (s_mul (z a) (z a))).

(** [z = squaredNorm(); if (z > 0) *this /= sqrt(z)] *)
Definition normalize (a : Vector3) : Vector3 :=
      let z := squaredNorm a in
      if s_ltb (s_of_Z 0) z then quot a (s_sqrt z) else a.
End Templates.
Arguments Vector3 : clear implicits.
Arguments Quaternion : clear implicits.
End Eigen.

(** ** Messages

    The fields the controller reads and writes. [geometry_msgs] carries
    [float64]; the joint fields of [unitree_a1_legged_msgs] are [float32]
    and the foot forces [int16] (the type [convertFootForce] takes them at). *)
Module Quaternion.
Record t : Type := mk { x : F64.t; y : F64.t; z : F64.t; w : F64.t }.
End Quaternion.

Module Vector3.
Record t : Type := mk { x : F64.t; y : F64.t; z : F64.t }.
End Vector3.

Module Twist.
Record t : Type := mk { linear : Vector3.t; angular : Vector3.t }.
End Twist.

Module TwistStamped.
Record t : Type := mk { twist : Twist.t }.
End TwistStamped.

Module Imu.
Record t : Type := mk { orientation : Quaternion.t }.
End Imu.

Module MotorState.
Record t : Type := mk { q : F32.t; dq : F32.t }.
End MotorState.

Module LegState.
Record t : Type := mk { hip : MotorState.t; thigh : MotorState.t; calf : MotorState.t }.
End LegState.

Module QuadrupedState.
Record t : Type := mk {
    front_right : LegState.t;
    front_left : LegState.t;
    rear_right : LegState.t;
    rear_left : LegState.t
  }.
End QuadrupedState.

Module FootForceState.
Record t : Type := mk {
    front_right : Z;
    front_left : Z;
    rear_right : Z;
    rear_left : Z
  }.
End FootForceState.

Module LowState.
Record t : Type := mk {
    motor_state : QuadrupedState.t;
    imu : Imu.t;
    foot_force : FootForceState.t
  }.
End LowState.

Module MotorCmd.
Record t : Type := mk { q : F32.t }.
End MotorCmd.

Module LegCmd.
Record t : Type := mk { hip : MotorCmd.t; thigh : MotorCmd.t; calf : MotorCmd.t }.
End LegCmd.

Module QuadrupedCmd.
Record t : Type := mk {
    front_right : LegCmd.t;
    front_left : LegCmd.t;
    rear_right : LegCmd.t;
    rear_left : LegCmd.t
  }.
End QuadrupedCmd.

Module CommonCmd.
Record t : Type := mk { mode : Z; kp : F32.t; kd : F32.t }.
End CommonCmd.

Module LowCmd.
Record t : Type := mk { motor_cmd : QuadrupedCmd.t; common : CommonCmd.t }.

(** The twelve joint targets in the joint order of the controller. *)
Definition targets (cmd : t) : list F32.t :=
    let m := motor_cmd cmd in
    [ MotorCmd.q (LegCmd.hip (QuadrupedCmd.front_right m));
      MotorCmd.q (LegCmd.thigh (QuadrupedCmd.front_right m));
      MotorCmd.q (LegCmd.calf (QuadrupedCmd.front_right m));
      MotorCmd.q (LegCmd.hip (QuadrupedCmd.front_left m));
      MotorCmd.q (LegCmd.thigh (QuadrupedCmd.front_left m));
      MotorCmd.q (LegCmd.calf (QuadrupedCmd.front_left m));
      MotorCmd.q (LegCmd.hip (QuadrupedCmd.rear_right m));
      MotorCmd.q (LegCmd.thigh (QuadrupedCmd.rear_right m));
      MotorCmd.q (LegCmd.calf (QuadrupedCmd.rear_right m));
      MotorCmd.q (LegCmd.hip (QuadrupedCmd.rear_left m));
      MotorCmd.q (LegCmd.thigh (QuadrupedCmd.rear_left m));
      MotorCmd.q (LegCmd.calf (QuadrupedCmd.rear_left m)) ].
End LowCmd.

(** ** The controller object *)

(** Slots of the per-leg arrays, as the header names them. *)
Definition FL : nat := 0.
Definition FR : nat := 1.
Definition RL : nat := 2.
Definition RR : nat := 3.
Definition PMSM_SERVO_MODE : Z := 0x0A.

(** [module_] is the loaded policy, a function from the input tensor to the
    output tensor; it is absent until [loadModel] has run. *)
Record UnitreeNeuralControl : Type := mkControl {
  module_ : option (list F32.t -> list F32.t);
  foot_contact_threshold_ : Z;
  nominal_ : list F32.t;
  last_action_ : list F32.t;
  foot_contact_ : list F32.t;
  cycles_since_last_contact_ : list F32.t;
  last_tick_ : list F32.t
}.

(** [double scaled_factor_ = 0.25], never assigned. *)
Definition scaled_factor_ : F64.t := F64.lit 1 (-2).

Definition set_module_ (v : option (list F32.t -> list F32.t)) (c : UnitreeNeuralControl) :=
  mkControl v (foot_contact_threshold_ c) (nominal_ c) (last_action_ c)
            (foot_contact_ c) (cycles_since_last_contact_ c) (last_tick_ c).

Definition set_foot_contact_threshold_ (v : Z) (c : UnitreeNeuralControl) :=
  mkControl (module_ c) v (nominal_ c) (last_action_ c)
            (foot_contact_ c) (cycles_since_last_contact_ c) (last_tick_ c).

Definition set_nominal_ (v : list F32.t) (c : UnitreeNeuralControl) :=
  mkControl (module_ c) (foot_contact_threshold_ c) v (last_action_ c)
            (foot_contact_ c) (cycles_since_last_contact_ c) (last_tick_ c).

Definition set_last_action_ (v : list F32.t) (c : UnitreeNeuralControl) :=
  mkControl (module_ c) (foot_contact_threshold_ c) (nominal_ c) v
            (foot_contact_ c) (cycles_since_last_contact_ c) (last_tick_ c).

Definition set_foot_contact_ (v : list F32.t) (c : UnitreeNeuralControl) :=
  mkControl (module_ c) (foot_contact_threshold_ c) (nominal_ c) (last_action_ c)
            v (cycles_since_last_contact_ c) (last_tick_ c).

Definition set_cycles_since_last_contact_ (v : list F32.t) (c : UnitreeNeuralControl) :=
  mkControl (module_ c) (foot_contact_threshold_ c) (nominal_ c) (last_action_ c)
            (foot_contact_ c) v (last_tick_ c).

Definition set_last_tick_ (v : list F32.t) (c : UnitreeNeuralControl) :=
  mkControl (module_ c) (foot_contact_threshold_ c) (nominal_ c) (last_action_ c)
            (foot_contact_ c) (cycles_since_last_contact_ c) v.

(** The sizes the array types fix. *)
Definition wf (c : UnitreeNeuralControl) : Prop :=
  length (nominal_ c) = 12%nat /\
  length (last_action_ c) = 12%nat /\
  length (foot_contact_ c) = 4%nat /\
  length (cycles_since_last_contact_ c) = 4%nat /\
  length (last_tick_ c) = 4%nat.

(** [for (size_t i = 0; i < n; i++) body] *)
Definition for_ {S : Type} (n : nat) (body : nat -> S -> S) (s : S) : S :=
  fold_left (fun s i => body i s) (seq 0 n) s.

(** ** Member functions *)

Definition setFootContactThreshold (threshold : Z) (c : UnitreeNeuralControl) :
  UnitreeNeuralControl :=
  set_foot_contact_threshold_ threshold c.

Definition getFootContactThreshold (c : UnitreeNeuralControl) : Z :=
  foot_contact_threshold_ c.

(** [std::fill(a.begin(), a.end(), v)] *)
Definition fill (a : list F32.t) (v : F32.t) : list F32.t := replicate (length a) v.

(** The constructor body, run on the object [this] as it finds it. *)
Definition construct_on (this : UnitreeNeuralControl)
           (foot_threshold : Z) (nominal_joint_position : list F32.t) :
  UnitreeNeuralControl :=
  let c := setFootContactThreshold foot_threshold this in
  let c := set_nominal_ nominal_joint_position c in
  let c := set_last_action_ (fill (last_action_ c) F32.zero) c in
  let c := set_last_tick_ (fill (last_tick_ c) F32.zero) c in
  let c := set_foot_contact_ (fill (foot_contact_ c) F32.zero) c in
  set_cycles_since_last_contact_ (fill (cycles_since_last_contact_ c) F32.zero) c.

(** What stands in a slot nobody has written: no number at all. *)
Definition indeterminate : F32.t := S754_nan.

(** The object before the constructor body runs. [module_] is default
    constructed: no policy. The threshold and the five arrays have no
    initializer: the arrays have the sizes of their types and indeterminate
    contents (as has the threshold, whatever number stands here), and the
    body has to write every slot it wants defined. *)
Definition uninitialized : UnitreeNeuralControl :=
  mkControl None (-32768) (replicate 12 indeterminate) (replicate 12 indeterminate)
            (replicate 4 indeterminate) (replicate 4 indeterminate)
            (replicate 4 indeterminate).

Definition construct (foot_threshold : Z) (nominal_joint_position : list F32.t) :
  UnitreeNeuralControl :=
  construct_on uninitialized foot_threshold nominal_joint_position.

Definition loadModel (model : list F32.t -> list F32.t) (c : UnitreeNeuralControl) :
  UnitreeNeuralControl :=
  set_module_ (Some model) c.

Definition pushJointPositions (leg : QuadrupedState.t) (c : UnitreeNeuralControl) :
  list F32.t :=
  let n := nominal_ c in
  [ F32.sub (MotorState.q (LegState.hip (QuadrupedState.front_right leg))) (n !!! 0%nat);
    F32.sub (MotorState.q (LegState.thigh (QuadrupedState.front_right leg))) (n !!! 1%nat);
    F32.sub (MotorState.q (LegState.calf (QuadrupedState.front_right leg))) (n !!! 2%nat);
    F32.sub (MotorState.q (LegState.hip (QuadrupedState.front_left leg))) (n !!! 3%nat);
    F32.sub (MotorState.q (LegState.thigh (QuadrupedState.front_left leg))) (n !!! 4%nat);
    F32.sub (MotorState.q (LegState.calf (QuadrupedState.front_left leg))) (n !!! 5%nat);
    F32.sub (MotorState.q (LegState.hip (QuadrupedState.rear_right leg))) (n !!! 6%nat);
    F32.sub (MotorState.q (LegState.thigh (QuadrupedState.rear_right leg))) (n !!! 7%nat);
    F32.sub (MotorState.q (LegState.calf (QuadrupedState.rear_right leg))) (n !!! 8%nat);
    F32.sub (MotorState.q (LegState.hip (QuadrupedState.rear_left leg))) (n !!! 9%nat);
    F32.sub (MotorState.q (LegState.thigh (QuadrupedState.rear_left leg))) (n !!! 10%nat);
    F32.sub (MotorState.q (LegState.calf (QuadrupedState.rear_left leg))) (n !!! 11%nat) ].

Definition pushJointVelocities (tensor : list F32.t) (joint : LegState.t) : list F32.t :=
  let tensor := tensor ++ [MotorState.dq (LegState.hip joint)] in
  let tensor := tensor ++ [MotorState.dq (LegState.thigh joint)] in
  tensor ++ [MotorState.dq (LegState.calf joint)].

(** The lambda of [convertFootForceToContact]. *)
Definition convertFootForce (c : UnitreeNeuralControl) (force : Z) : F32.t :=
  if force <? foot_contact_threshold_ c then F32.zero else F32.one.

Definition convertFootForceToContact (foot : FootForceState.t) (c : UnitreeNeuralControl) :
  UnitreeNeuralControl :=
  let c := set_foot_contact_
             (<[FL := convertFootForce c (FootForceState.front_left foot)]> (foot_contact_ c)) c in
  let c := set_foot_contact_
             (<[FR := convertFootForce c (FootForceState.front_right foot)]> (foot_contact_ c)) c in
  let c := set_foot_contact_
             (<[RL := convertFootForce c (FootForceState.rear_right foot)]> (foot_contact_ c)) c in
  set_foot_contact_
    (<[RR := convertFootForce c (FootForceState.rear_left foot)]> (foot_contact_ c)) c.

(** [updateCyclesSinceLastContact()] *)
Definition updateCyclesSinceLastContact (c : UnitreeNeuralControl) : UnitreeNeuralControl :=
  for_ (length (foot_contact_ c)) (fun i c =>
    if F32.eqb (foot_contact_ c !!! i) F32.one
    then set_cycles_since_last_contact_
           (<[i := F32.zero]> (cycles_since_last_contact_ c)) c
    else set_cycles_since_last_contact_
           (<[i := F32.add (cycles_since_last_contact_ c !!! i) F32.one]>
              (cycles_since_last_contact_ c)) c) c.

(** [updateCyclesSinceLastContact(uint32_t tick)] *)
Definition updateCyclesSinceLastContact_tick (tick : Z) (c : UnitreeNeuralControl) :
  UnitreeNeuralControl :=
  let tick_ms := F32.div (F32.of_Z tick) (F32.of_Z 1000) in
  for_ (length (foot_contact_ c)) (fun i c =>
    if F32.eqb (foot_contact_ c !!! i) F32.one
    then let c := set_last_tick_ (<[i := tick_ms]> (last_tick_ c)) c in
         set_cycles_since_last_contact_
           (<[i := F32.zero]> (cycles_since_last_contact_ c)) c
    else set_cycles_since_last_contact_
           (<[i := F32.sub tick_ms (last_tick_ c !!! i)]>
              (cycles_since_last_contact_ c)) c) c.

Definition convertToGravityVector_at {T : Type} `{!Scalar T}
  (imu_orientation : Eigen.Quaternion T) : list T :=
  let gravity_world := Eigen.mkVector3 (s_of_Z 0) (s_of_Z 0) (s_of_Z (-1)) in
  let gravity_sensor := Eigen.transformVector imu_orientation gravity_world in
  let gravity_sensor := Eigen.normalize gravity_sensor in
  [Eigen.x gravity_sensor; Eigen.y gravity_sensor; Eigen.z gravity_sensor].

Definition convertToGravityVector (orientation : Quaternion.t) : list F32.t :=
  let imu_orientation : Eigen.Quaternion F32.t :=
    Eigen.mkQuaternion (double_to_float (Quaternion.w orientation))
                       (double_to_float (Quaternion.x orientation))
                       (double_to_float (Quaternion.y orientation))
                       (double_to_float (Quaternion.z orientation)) in
  convertToGravityVector_at imu_orientation.

Definition msgToTensor (goal : TwistStamped.t) (msg : LowState.t) (c : UnitreeNeuralControl) :
  list F32.t * UnitreeNeuralControl :=
  let tensor : list F32.t := [] in
  let position := pushJointPositions (LowState.motor_state msg) c in
  let tensor := tensor ++ position in
  let orientation := Imu.orientation (LowState.imu msg) in
  let tensor := tensor ++ [double_to_float (Quaternion.x orientation)] in
  let tensor := tensor ++ [double_to_float (Quaternion.y orientation)] in
  let tensor := tensor ++ [double_to_float (Quaternion.z orientation)] in
  let tensor := pushJointVelocities tensor (QuadrupedState.front_right (LowState.motor_state msg)) in
  let tensor := pushJointVelocities tensor (QuadrupedState.front_left (LowState.motor_state msg)) in
  let tensor := pushJointVelocities tensor (QuadrupedState.rear_right (LowState.motor_state msg)) in
  let tensor := pushJointVelocities tensor (QuadrupedState.rear_left (LowState.motor_state msg)) in
  let twist := TwistStamped.twist goal in
  let tensor := tensor ++ [double_to_float (Vector3.x (Twist.linear twist))] in
  let tensor := tensor ++ [double_to_float (Vector3.y (Twist.linear twist))] in
  let tensor := tensor ++ [double_to_float (Vector3.z (Twist.angular twist))] in
  let c := convertFootForceToContact (LowState.foot_force msg) c in
  let tensor := tensor ++ foot_contact_ c in
  let gravity_vec := convertToGravityVector orientation in
  let tensor := tensor ++ gravity_vec in
  let tensor := tensor ++ last_action_ c in
  let c := updateCyclesSinceLastContact c in
  let tensor := tensor ++ cycles_since_last_contact_ c in
  (tensor, c).

Definition initControlParams (cmd : LowCmd.t) : LowCmd.t :=
  LowCmd.mk (LowCmd.motor_cmd cmd)
            (CommonCmd.mk 0x0A (F32.of_Z 20) (F32.lit 1 (-1))).

(** [action[i]] is read without a bounds check: a short vector is an error. *)
Definition actionToMsg (action : list F32.t) (c : UnitreeNeuralControl) : option LowCmd.t :=
  let n := nominal_ c in
  a0 ← action !! 0%nat; a1 ← action !! 1%nat; a2 ← action !! 2%nat;
  a3 ← action !! 3%nat; a4 ← action !! 4%nat; a5 ← action !! 5%nat;
  a6 ← action !! 6%nat; a7 ← action !! 7%nat; a8 ← action !! 8%nat;
  a9 ← action !! 9%nat; a10 ← action !! 10%nat; a11 ← action !! 11%nat;
  let cmd :=
    LowCmd.mk
      (QuadrupedCmd.mk
         (LegCmd.mk (MotorCmd.mk (F32.add (n !!! 0%nat) a0))
                    (MotorCmd.mk (F32.add (n !!! 1%nat) a1))
                    (MotorCmd.mk (F32.add (n !!! 2%nat) a2)))
         (LegCmd.mk (MotorCmd.mk (F32.add (n !!! 3%nat) a3))
                    (MotorCmd.mk (F32.add (n !!! 4%nat) a4))
                    (MotorCmd.mk (F32.add (n !!! 5%nat) a5)))
         (LegCmd.mk (MotorCmd.mk (F32.add (n !!! 6%nat) a6))
                    (MotorCmd.mk (F32.add (n !!! 7%nat) a7))
                    (MotorCmd.mk (F32.add (n !!! 8%nat) a8)))
         (LegCmd.mk (MotorCmd.mk (F32.add (n !!! 9%nat) a9))
                    (MotorCmd.mk (F32.add (n !!! 10%nat) a10))
                    (MotorCmd.mk (F32.add (n !!! 11%nat) a11))))
      (CommonCmd.mk 0 F32.zero F32.zero) in
  Some (initControlParams cmd).

(** The lambda of [modelForward]: computed in [double], stored as [float]. *)
Definition blend (a b : F32.t) : F32.t :=
  double_to_float
    (F64.add (float_to_double a) (F64.mul (float_to_double b) scaled_factor_)).

(** [std::transform(first1, first1 + size(v), v.begin(), v.begin(), op)]:
    the first range must lie inside [state]. *)
Definition transform (state v : list F32.t) (op : F32.t -> F32.t -> F32.t) :
  option (list F32.t) :=
  if decide (length v <= length state)%nat
  then Some (zip_with op (take (length v) state) v)
  else None.

(** [std::copy(v.begin(), v.end(), dest.begin())] into an array: the array
    must hold [size(v)] elements. *)
Definition copy (v dest : list F32.t) : option (list F32.t) :=
  if decide (length v <= length dest)%nat
  then Some (v ++ drop (length v) dest)
  else None.

(** Returns [cmd], [tensor] (the two output parameters) and the controller.
    Calling [forward] on a module that was never loaded throws. *)
Definition modelForward (goal : TwistStamped.t) (msg : LowState.t) (c : UnitreeNeuralControl) :
  option (LowCmd.t * list F32.t * UnitreeNeuralControl) :=
  let '(state, c) := msgToTensor goal msg c in
  forward ← module_ c;
  let action := forward state in
  let action_vec := action in
  action_vec ← transform state action_vec blend;
  last ← copy action_vec (last_action_ c);
  let c := set_last_action_ last c in
  let tensor := state in
  cmd ← actionToMsg action_vec c;
  Some (cmd, tensor, c).

(** * Vocabulary of the properties *)

(** What one round of [updateCyclesSinceLastContact()] stores in slot [i]. *)
Definition cycles_step (contact cycles : F32.t) : F32.t :=
  if F32.eqb contact F32.one then F32.zero else F32.add cycles F32.one.

(** [tick_ms] of [updateCyclesSinceLastContact(tick)]. *)
Definition tick_ms_of (tick : Z) : F32.t := F32.div (F32.of_Z tick) (F32.of_Z 1000).

(** The invariant of both loops over the legs: after [k] rounds the slots
    below [k] hold their new values, the others their old ones. *)
Definition slots_done (k : nat) (new old cur : list F32.t) : Prop :=
  length cur = length old /\
  (forall i, (k <= i)%nat -> cur !!! i = old !!! i) /\
  (forall i, (i < k)%nat -> cur !!! i = new !!! i).

(** The array [updateCyclesSinceLastContact()] leaves behind. *)
Definition cycles_after (contact cycles : list F32.t) : list F32.t :=
  zip_with cycles_step contact cycles.

(** What [updateCyclesSinceLastContact(tick)] stores in a slot. *)
Definition tick_step_last (tick_ms contact last : F32.t) : F32.t :=
  if F32.eqb contact F32.one then tick_ms else last.

Definition tick_step_cycles (tick_ms contact last : F32.t) : F32.t :=
  if F32.eqb contact F32.one then F32.zero else F32.sub tick_ms last.

(** The fields of the messages in the order the controller reads them. *)
Definition joint_angles (msg : LowState.t) : list F32.t :=
  let s := LowState.motor_state msg in
  [ MotorState.q (LegState.hip (QuadrupedState.front_right s));
    MotorState.q (LegState.thigh (QuadrupedState.front_right s));
    MotorState.q (LegState.calf (QuadrupedState.front_right s));
    MotorState.q (LegState.hip (QuadrupedState.front_left s));
    MotorState.q (LegState.thigh (QuadrupedState.front_left s));
    MotorState.q (LegState.calf (QuadrupedState.front_left s));
    MotorState.q (LegState.hip (QuadrupedState.rear_right s));
    MotorState.q (LegState.thigh (QuadrupedState.rear_right s));
    MotorState.q (LegState.calf (QuadrupedState.rear_right s));
    MotorState.q (LegState.hip (QuadrupedState.rear_left s));
    MotorState.q (LegState.thigh (QuadrupedState.rear_left s));
    MotorState.q (LegState.calf (QuadrupedState.rear_left s)) ].

Definition joint_velocities (msg : LowState.t) : list F32.t :=
  let s := LowState.motor_state msg in
  [ MotorState.dq (LegState.hip (QuadrupedState.front_right s));
    MotorState.dq (LegState.thigh (QuadrupedState.front_right s));
    MotorState.dq (LegState.calf (QuadrupedState.front_right s));
    MotorState.dq (LegState.hip (QuadrupedState.front_left s));
    MotorState.dq (LegState.thigh (QuadrupedState.front_left s));
    MotorState.dq (LegState.calf (QuadrupedState.front_left s));
    MotorState.dq (LegState.hip (QuadrupedState.rear_right s));
    MotorState.dq (LegState.thigh (QuadrupedState.rear_right s));
    MotorState.dq (LegState.calf (QuadrupedState.rear_right s));
    MotorState.dq (LegState.hip (QuadrupedState.rear_left s));
    MotorState.dq (LegState.thigh (QuadrupedState.rear_left s));
    MotorState.dq (LegState.calf (QuadrupedState.rear_left s)) ].

Definition orientation_xyz (msg : LowState.t) : list F32.t :=
  let o := Imu.orientation (LowState.imu msg) in
  [ double_to_float (Quaternion.x o);
    double_to_float (Quaternion.y o);
    double_to_float (Quaternion.z o) ].

Definition goal_velocity (goal : TwistStamped.t) : list F32.t :=
  let t := TwistStamped.twist goal in
  [ double_to_float (Vector3.x (Twist.linear t));
    double_to_float (Vector3.y (Twist.linear t));
    double_to_float (Vector3.z (Twist.angular t)) ].

Definition gravity_vector (msg : LowState.t) : list F32.t :=
  convertToGravityVector (Imu.orientation (LowState.imu msg)).

(** The controller [msgToTensor] leaves behind. *)
Definition after_msgToTensor (msg : LowState.t) (c : UnitreeNeuralControl) :
  UnitreeNeuralControl :=
  updateCyclesSinceLastContact (convertFootForceToContact (LowState.foot_force msg) c).

(** The scenario of the specification: nominal pose zero, every joint at
    0.1, threshold 50, forces front-right 60, front-left 40, rear-right 60,
    rear-left 40, the robot level and no velocity asked. *)
Definition scenario_control : UnitreeNeuralControl :=
  construct 50 (replicate 12 F32.zero).

Definition scenario_joint : MotorState.t :=
  MotorState.mk (F32.lit 13421773 (-27)) F32.zero.

Definition scenario_leg : LegState.t :=
  LegState.mk scenario_joint scenario_joint scenario_joint.

Definition scenario_forces : FootForceState.t :=
  FootForceState.mk 60 40 60 40.

Definition identity_orientation : Quaternion.t :=
  Quaternion.mk (S754_zero false) (S754_zero false) (S754_zero false) (F64.lit 1 0).

Definition scenario_msg : LowState.t :=
  LowState.mk (QuadrupedState.mk scenario_leg scenario_leg scenario_leg scenario_leg)
              (Imu.mk identity_orientation) scenario_forces.

Definition scenario_goal : TwistStamped.t :=
  let v := Vector3.mk (S754_zero false) (S754_zero false) (S754_zero false) in
  TwistStamped.mk (Twist.mk v v).

(** A policy that returns the same 12 values whatever it is given. *)
Definition constant_policy (v : F32.t) : list F32.t -> list F32.t :=
  fun _ => replicate 12 v.

(** All four feet unloaded, and all four loaded, at threshold 50. *)
Definition airborne : FootForceState.t := FootForceState.mk 40 40 40 40.

Definition standing : FootForceState.t := FootForceState.mk 60 60 60 60.

(** A controller whose legs were last in contact at tick 5000 and are in
    the air now. *)
Definition stale_control : UnitreeNeuralControl :=
  convertFootForceToContact airborne
    (updateCyclesSinceLastContact_tick 5000
       (convertFootForceToContact standing scenario_control)).



(** [shl p n] is [p] followed by [n] zero bits. *)
Definition shl (p : positive) (n : nat) : positive := Nat.iter n xO p.

(** What one call of [msgToTensor] does to the controller. *)
Definition tick (foot : FootForceState.t) (c : UnitreeNeuralControl) : UnitreeNeuralControl :=
  updateCyclesSinceLastContact (convertFootForceToContact foot c).

(** [n] calls in a row, call [k] with the foot forces [forces k]. *)
Definition ticks (forces : N -> FootForceState.t) (n : N) (c : UnitreeNeuralControl) :
  UnitreeNeuralControl :=
  N.peano_rect (fun _ => UnitreeNeuralControl) c (fun k ck => tick (forces k) ck) n.

(** The contact flags a call computes. *)
Definition flags (c : UnitreeNeuralControl) (foot : FootForceState.t) : list F32.t :=
  foot_contact_ (convertFootForceToContact foot c).

(** The calls that change a controller, as data. *)
Inductive call : Type :=
| call_loadModel (model : list F32.t -> list F32.t)
| call_setFootContactThreshold (threshold : Z)
| call_convertFootForceToContact (foot : FootForceState.t)
| call_updateCycles
| call_updateCycles_tick (tick : Z)
| call_msgToTensor (goal : TwistStamped.t) (msg : LowState.t)
| call_modelForward (goal : TwistStamped.t) (msg : LowState.t).

(** The controller after one call; [None] when the call fails. *)
Definition run_call (k : call) (c : UnitreeNeuralControl) : option UnitreeNeuralControl :=
  match k with
  | call_loadModel model => Some (loadModel model c)
  | call_setFootContactThreshold threshold => Some (setFootContactThreshold threshold c)
  | call_convertFootForceToContact foot => Some (convertFootForceToContact foot c)
  | call_updateCycles => Some (updateCyclesSinceLastContact c)
  | call_updateCycles_tick tick => Some (updateCyclesSinceLastContact_tick tick c)
  | call_msgToTensor goal msg => Some (snd (msgToTensor goal msg c))
  | call_modelForward goal msg =>
      match modelForward goal msg c with
      | Some (_, _, c') => Some c'
      | None => None
      end
  end.

(** The controller after a sequence of calls, first call first. *)
Fixpoint run_calls (ks : list call) (c : UnitreeNeuralControl) :
  option UnitreeNeuralControl :=
  match ks with
  | [] => Some c
  | k :: ks => match run_call k c with
               | Some c' => run_calls ks c'
               | None => None
               end
  end.

Definition sets_threshold (k : call) : bool :=
  match k with call_setFootContactThreshold _ => true | _ => false end.

Definition loads_model (k : call) : bool :=
  match k with call_loadModel _ => true | _ => false end.

Definition takes_tick (k : call) : bool :=
  match k with call_updateCycles_tick _ => true | _ => false end.

Definition runs_policy (k : call) : bool :=
  match k with call_modelForward _ _ => true | _ => false end.

(** The threshold the last [setFootContactThreshold] of a sequence leaves,
    [t0] when there is none. *)
Definition last_threshold (ks : list call) (t0 : Z) : Z :=
  fold_left (fun t k => match k with
                        | call_setFootContactThreshold t' => t'
                        | _ => t
                        end) ks t0.

(** ** Real values and rounding errors

    What the properties of the gravity vector are stated with: the real
    number a float stands for, and the rotation the floats approximate. *)

(** [fexp] of binary32: the exponent of a float of magnitude [2^k]. *)
Definition fexp32 (k : Z) : Z := Z.max (k - 24) (-149).

Definition bpow (e : Z) : R := powerRZ 2 e.

(** The real a float stands for (0 for what is no finite number). *)
Definition F2R (x : spec_float) : R :=
  match x with
  | S754_finite s m e => (IZR (cond_Zopp s (Z.pos m)) * bpow e)%R
  | _ => 0%R
  end.

(** A finite binary32 value in canonical form. *)
Definition valid32 (x : F32.t) : Prop :=
  F32.is_finite x = true /\ valid_binary 24 128 x = true.

(** The two constants of the error of one operation: relative [2^-23]
    (one unit in the last place), absolute [2^-149] (the smallest
    subnormal). *)
Definition u32 : R := bpow (-23).

Definition eta32 : R := bpow (-149).

(** [m * 2^e] for an integer [m], as a real. *)
Definition Z2R (m e : Z) : R := (IZR m * bpow e)%R.

(** The float [f] is valid and within [E] of the real [X], which is at
    most [M] in magnitude. *)
Definition approx (f : F32.t) (X E M : R) : Prop :=
  valid32 f /\ (Rabs (F2R f - X) <= E)%R /\ (Rabs X <= M)%R.

(** The error bounds of a rounded product and of a rounded sum, from those
    of the operands. *)
Definition Emul (Ea Ma Eb Mb : R) : R :=
  ((Ma + Ea) * Eb + Mb * Ea + u32 * ((Ma + Ea) * (Mb + Eb)) + eta32)%R.

Definition Eadd (Ea Ma Eb Mb : R) : R :=
  (Ea + Eb + u32 * (Ma + Ea + (Mb + Eb)) + eta32)%R.

(** The three components of [v] approximate [V1], [V2], [V3]. *)
Definition approx3 (v : Eigen.Vector3 F32.t) (V1 V2 V3 E M : R) : Prop :=
  approx (Eigen.x v) V1 E M /\ approx (Eigen.y v) V2 E M /\ approx (Eigen.z v) V3 E M.

(** Hamilton's product of two quaternions [(a, b, c, d)], standing for
    [a + b i + c j + d k]. *)
Definition hamilton (p q : R * R * R * R) : R * R * R * R :=
  let '(a1, b1, c1, d1) := p in
  let '(a2, b2, c2, d2) := q in
  (a1 * a2 - b1 * b2 - c1 * c2 - d1 * d2,
   a1 * b2 + b1 * a2 + c1 * d2 - d1 * c2,
   a1 * c2 - b1 * d2 + c1 * a2 + d1 * b2,
   a1 * d2 + b1 * c2 - c1 * b2 + d1 * a2)%R.

Definition norm2 (q : R * R * R * R) : R :=
  let '(w, x, y, z) := q in (w * w + x * x + y * y + z * z)%R.

(** The rotation of the vector [v] by the quaternion [q], unit or not:
    the vector part of [q v q^-1]. This is the mathematical rotation the
    gravity vector is compared with, not a transcription of Eigen. *)
Definition rotate (q : R * R * R * R) (v : R * R * R) : R * R * R :=
  let '(w, x, y, z) := q in
  let '(v1, v2, v3) := v in
  let n := norm2 q in
  let '(_, r1, r2, r3) :=
    hamilton (hamilton q (0%R, v1, v2, v3)) (w / n, - x / n, - y / n, - z / n)%R in
  (r1, r2, r3).

(** The quaternion a message carries, as four reals. *)
Definition quaternion_of (o : Quaternion.t) : R * R * R * R :=
  (F2R (Quaternion.w o), F2R (Quaternion.x o), F2R (Quaternion.y o), F2R (Quaternion.z o)).

(** A valid orientation: four finite doubles (the test [is_finite] is the
    same for either format) whose squared norm is within 1/16 of 1. *)
Definition valid_orientation (o : Quaternion.t) : Prop :=
  F32.is_finite (Quaternion.w o) = true /\ F32.is_finite (Quaternion.x o) = true /\
  F32.is_finite (Quaternion.y o) = true /\ F32.is_finite (Quaternion.z o) = true /\
  (Rabs (norm2 (quaternion_of o) - 1) <= 1 / 16)%R.

(** A third of a turn about (1, 1, 1): the quaternion (1/2, 1/2, 1/2, 1/2). *)
Definition third_turn : Quaternion.t :=
  Quaternion.mk (F64.lit 1 (-1)) (F64.lit 1 (-1)) (F64.lit 1 (-1)) (F64.lit 1 (-1)).

(** * Properties *)

(** ** Loops and field updates *)

Lemma for_S {S : Type} (n : nat) (body : nat -> S -> S) (s : S) :
  for_ (Datatypes.S n) body s = body n (for_ n body s).
Proof.
  unfold for_. rewrite seq_S, fold_left_app. reflexivity.
Qed.

(** A loop invariant [P k] holds after [k] rounds. *)
Lemma for_invariant {S : Type} (P : nat -> S -> Prop) (n : nat)
      (body : nat -> S -> S) (s : S) :
  P 0%nat s ->
  (forall i t, (i < n)%nat -> P i t -> P (Datatypes.S i) (body i t)) ->
  P n (for_ n body s).
Proof.
  intros H0 Hstep.
  assert (forall k, (k <= n)%nat -> P k (for_ k body s)) as Hk.
  { induction k as [|k IH]; intros Hle; [exact H0|].
    rewrite for_S. apply Hstep; [lia|]. apply IH. lia. }
  apply Hk. lia.
Qed.

Lemma total_lookup_of_lookup (l : list F32.t) (i : nat) (v : F32.t) :
  l !! i = Some v -> l !!! i = v.
Proof. intros H. rewrite list_lookup_total_alt, H. reflexivity. Qed.

Lemma total_lookup_insert_eq (l : list F32.t) (i : nat) (v : F32.t) :
  (i < length l)%nat -> <[i := v]> l !!! i = v.
Proof.
  intros H. apply total_lookup_of_lookup. apply list_lookup_insert_eq. exact H.
Qed.

Lemma total_lookup_insert_ne (l : list F32.t) (i j : nat) (v : F32.t) :
  i <> j -> <[i := v]> l !!! j = l !!! j.
Proof.
  intros H. rewrite !list_lookup_total_alt, list_lookup_insert_ne by exact H.
  reflexivity.
Qed.

Lemma slots_done_0 (new old : list F32.t) : slots_done 0 new old old.
Proof. repeat split; auto. intros i Hi. lia. Qed.

Lemma slots_done_S (k : nat) (new old cur : list F32.t) (v : F32.t) :
  (k < length old)%nat ->
  v = new !!! k ->
  slots_done k new old cur ->
  slots_done (S k) new old (<[k := v]> cur).
Proof.
  intros Hk Hv (Hlen & Hge & Hlt). repeat split.
  - rewrite length_insert. exact Hlen.
  - intros j Hj. rewrite total_lookup_insert_ne by lia. apply Hge. lia.
  - intros j Hj. destruct (decide (j = k)) as [->|Hne].
    + rewrite total_lookup_insert_eq by lia. exact Hv.
    + rewrite total_lookup_insert_ne by auto. apply Hlt. lia.
Qed.

Lemma slots_done_all (new old cur : list F32.t) :
  length new = length old ->
  slots_done (length old) new old cur -> cur = new.
Proof.
  intros Hn (Hlen & _ & Hlt). apply list_eq_same_length with (length old); auto.
  intros i x y Hi Hx Hy.
  apply total_lookup_of_lookup in Hx. apply total_lookup_of_lookup in Hy.
  rewrite <- Hx, <- Hy. apply Hlt. exact Hi.
Qed.

Lemma zip_with_total_lookup (f : F32.t -> F32.t -> F32.t) (a b : list F32.t) (i : nat) :
  (i < length a)%nat -> (i < length b)%nat ->
  zip_with f a b !!! i = f (a !!! i) (b !!! i).
Proof.
  intros Ha Hb.
  destruct (lookup_lt_is_Some_2 a i Ha) as [x Hx].
  destruct (lookup_lt_is_Some_2 b i Hb) as [y Hy].
  rewrite (total_lookup_of_lookup a i x Hx), (total_lookup_of_lookup b i y Hy).
  apply total_lookup_of_lookup. rewrite lookup_zip_with, Hx. cbn. rewrite Hy. reflexivity.
Qed.

Lemma updateCycles_spec (c : UnitreeNeuralControl) :
  length (cycles_since_last_contact_ c) = length (foot_contact_ c) ->
  updateCyclesSinceLastContact c =
  set_cycles_since_last_contact_
    (cycles_after (foot_contact_ c) (cycles_since_last_contact_ c)) c.
Proof.
  intros Hlen. unfold updateCyclesSinceLastContact.
  set (new := cycles_after (foot_contact_ c) (cycles_since_last_contact_ c)).
  set (body := fun (i : nat) (c : UnitreeNeuralControl) => _).
  assert (exists cur, for_ (length (foot_contact_ c)) body c =
                      set_cycles_since_last_contact_ cur c /\
                      slots_done (length (foot_contact_ c)) new
                                 (cycles_since_last_contact_ c) cur) as (cur & -> & Hd).
  { apply (for_invariant (fun k t => exists cur,
             t = set_cycles_since_last_contact_ cur c /\
             slots_done k new (cycles_since_last_contact_ c) cur)).
    - exists (cycles_since_last_contact_ c). split; [by destruct c|apply slots_done_0].
    - intros i t Hi (cur & -> & Hd). subst body. cbn.
      assert (new !!! i = cycles_step (foot_contact_ c !!! i)
                                      (cycles_since_last_contact_ c !!! i)) as Hnew.
      { subst new. unfold cycles_after. apply zip_with_total_lookup; lia. }
      unfold cycles_step in Hnew.
      destruct (F32.eqb (foot_contact_ c !!! i) F32.one).
      + eexists. split; [reflexivity|]. apply slots_done_S; auto. lia.
      + eexists. split; [reflexivity|]. apply slots_done_S; auto; [lia|].
        destruct Hd as (_ & Hge & _). rewrite Hge by lia. auto. }
  f_equal. rewrite <- Hlen in Hd. apply slots_done_all in Hd; auto.
  subst new. unfold cycles_after. rewrite length_zip_with. lia.
Qed.

Lemma updateCycles_tick_spec (tick : Z) (c : UnitreeNeuralControl) :
  length (cycles_since_last_contact_ c) = length (foot_contact_ c) ->
  length (last_tick_ c) = length (foot_contact_ c) ->
  updateCyclesSinceLastContact_tick tick c =
  set_cycles_since_last_contact_
    (zip_with (tick_step_cycles (tick_ms_of tick)) (foot_contact_ c) (last_tick_ c))
    (set_last_tick_
       (zip_with (tick_step_last (tick_ms_of tick)) (foot_contact_ c) (last_tick_ c)) c).
Proof.
  intros Hlc Hlt. unfold updateCyclesSinceLastContact_tick.
  fold (tick_ms_of tick). set (tick_ms := tick_ms_of tick).
  set (newc := zip_with (tick_step_cycles tick_ms) (foot_contact_ c) (last_tick_ c)).
  set (newl := zip_with (tick_step_last tick_ms) (foot_contact_ c) (last_tick_ c)).
  set (body := fun (i : nat) (c : UnitreeNeuralControl) => _).
  assert (exists curc curl,
            for_ (length (foot_contact_ c)) body c =
            set_cycles_since_last_contact_ curc (set_last_tick_ curl c) /\
            slots_done (length (foot_contact_ c)) newc (cycles_since_last_contact_ c) curc /\
            slots_done (length (foot_contact_ c)) newl (last_tick_ c) curl)
    as (curc & curl & -> & Hdc & Hdl).
  { apply (for_invariant (fun k t => exists curc curl,
             t = set_cycles_since_last_contact_ curc (set_last_tick_ curl c) /\
             slots_done k newc (cycles_since_last_contact_ c) curc /\
             slots_done k newl (last_tick_ c) curl)).
    - exists (cycles_since_last_contact_ c), (last_tick_ c).
      split; [by destruct c|split; apply slots_done_0].
    - intros i t Hi (curc & curl & -> & Hdc & Hdl). subst body. cbn.
      assert (newc !!! i = tick_step_cycles tick_ms (foot_contact_ c !!! i)
                                            (last_tick_ c !!! i)) as Hnc.
      { subst newc. apply zip_with_total_lookup; lia. }
      assert (newl !!! i = tick_step_last tick_ms (foot_contact_ c !!! i)
                                          (last_tick_ c !!! i)) as Hnl.
      { subst newl. apply zip_with_total_lookup; lia. }
      assert (curl !!! i = last_tick_ c !!! i) as Hcur.
      { destruct Hdl as (_ & Hge & _). apply Hge. lia. }
      unfold tick_step_cycles in Hnc. unfold tick_step_last in Hnl.
      destruct (F32.eqb (foot_contact_ c !!! i) F32.one).
      + exists (<[i := F32.zero]> curc), (<[i := tick_ms]> curl).
        split; [reflexivity|]. split; apply slots_done_S; auto; lia.
      + exists (<[i := F32.sub tick_ms (curl !!! i)]> curc), curl.
        split; [reflexivity|]. split.
        * apply slots_done_S; auto; [lia|]. rewrite Hcur. auto.
        * destruct Hdl as (Hl & Hge & Hlt'). repeat split; auto.
          -- intros j Hj. apply Hge. lia.
          -- intros j Hj. destruct (decide (j = i)) as [->|Hne].
             ++ rewrite Hnl. exact Hcur.
             ++ apply Hlt'. lia. }
  rewrite <- Hlc in Hdc. apply slots_done_all in Hdc.
  2:{ subst newc. rewrite length_zip_with. lia. }
  rewrite <- Hlt in Hdl. apply slots_done_all in Hdl.
  2:{ subst newl. rewrite length_zip_with. lia. }
  subst curc curl. reflexivity.
Qed.

(** ** Binary32 *)

Lemma SFeqb_finite_eq (s1 s2 : bool) (m1 m2 : positive) (e1 e2 : Z) :
  SFeqb (S754_finite s1 m1 e1) (S754_finite s2 m2 e2) = true ->
  s1 = s2 /\ m1 = m2 /\ e1 = e2.
Proof.
  unfold SFeqb, SFcompare.
  destruct s1, s2; try discriminate;
    destruct (Z.compare_spec e1 e2) as [He| |]; try discriminate;
    change (Pos.compare_cont Eq m1 m2) with (Pos.compare m1 m2);
    destruct (Pos.compare_spec m1 m2) as [Hm| |]; try discriminate;
    intros _; auto.
Qed.

(** [x - y] is a zero when [x == y] and [x] is finite. *)
Lemma F32_sub_eq_zero (x y : F32.t) :
  F32.is_finite x = true -> F32.eqb x y = true -> F32.is_zero (F32.sub x y) = true.
Proof.
  unfold F32.eqb, F32.sub.
  destruct x as [sx|sx| |sx mx ex]; try discriminate; intros _.
  - destruct y as [sy|sy| |sy my ey]; try discriminate.
    + destruct sx, sy; reflexivity.
    + destruct sx, sy; discriminate.
    + destruct sy; discriminate.
  - destruct y as [sy|sy| |sy my ey]; try discriminate.
    + destruct sx; discriminate.
    + destruct sx, sy; discriminate.
    + intros H. apply SFeqb_finite_eq in H. destruct H as (-> & -> & ->).
      unfold SFsub. rewrite Z.sub_diag. reflexivity.
Qed.

Lemma shl_S p n : shl p (S n) = xO (shl p n).
Proof. reflexivity. Qed.

Lemma shl_add p a b : shl (shl p a) b = shl p (a + b).
Proof. unfold shl. rewrite Nat.add_comm. symmetry. apply Nat.iter_add. Qed.

Lemma digits_shl p n :
  Z.pos (digits2_pos (shl p n)) = Z.pos (digits2_pos p) + Z.of_nat n.
Proof.
  induction n as [|n IH]; [cbn; lia|].
  rewrite shl_S. cbn [digits2_pos]. rewrite Pos2Z.inj_succ, IH. lia.
Qed.

Lemma Zpos_shl p n : Z.pos (shl p n) = Z.pos p * 2 ^ Z.of_nat n.
Proof.
  induction n as [|n IH]; [cbn; lia|].
  rewrite shl_S, Pos2Z.inj_xO, IH, Nat2Z.inj_succ, Z.pow_succ_r by lia. lia.
Qed.

Lemma Pos_iter_shl p q : Pos.iter xO p q = shl p (Pos.to_nat q).
Proof. unfold shl. rewrite Pos2Nat.inj_iter. reflexivity. Qed.

Lemma iter_pos_nat {A} (f : A -> A) q x :
  iter_pos f q x = Nat.iter (Pos.to_nat q) f x.
Proof.
  revert x. induction q as [q IH|q IH|]; intros x; cbn [iter_pos].
  - rewrite !IH, Pos2Nat.inj_xI, <- Nat.iter_add, <- Nat.iter_succ_r. f_equal. lia.
  - rewrite !IH, Pos2Nat.inj_xO, <- Nat.iter_add. f_equal. lia.
  - reflexivity.
Qed.

Lemma shr_shl n m :
  Nat.iter n shr_1 (Build_shr_record (Z.pos (shl m n)) false false)
  = Build_shr_record (Z.pos m) false false.
Proof.
  induction n as [|n IH]; [reflexivity|].
  rewrite Nat.iter_succ_r, shl_S. cbn [shr_1 orb]. exact IH.
Qed.

Lemma round_aux_canonical m e :
  Z.pos (digits2_pos m) = 24 -> -149 <= e <= 104 ->
  binary_round_aux 24 128 false (Z.pos m) e loc_Exact = S754_finite false m e.
Proof.
  intros Hd He. unfold binary_round_aux, shr_fexp, fexp, emin, Zdigits2.
  rewrite Hd. replace (Z.max (24 + e - 24) (3 - 128 - 24) - e) with 0 by lia.
  cbn [shr shr_record_of_loc shr_m loc_of_shr_record round_nearest_even].
  rewrite Hd. replace (Z.max (24 + e - 24) (3 - 128 - 24) - e) with 0 by lia.
  cbn [shr shr_record_of_loc shr_m].
  destruct (Z.leb_spec e (128 - 24)); [reflexivity|lia].
Qed.

Lemma round_aux_shr m e x :
  Z.pos (digits2_pos m) = 24 -> -149 <= e + Z.pos x <= 104 ->
  binary_round_aux 24 128 false (Z.pos (shl m (Pos.to_nat x))) e loc_Exact
  = S754_finite false m (e + Z.pos x).
Proof.
  intros Hd Hx. unfold binary_round_aux, shr_fexp, fexp, emin.
  cbn [Zdigits2]. rewrite digits_shl, Hd, positive_nat_Z.
  replace (Z.max (24 + Z.pos x + e - 24) (3 - 128 - 24) - e) with (Z.pos x) by lia.
  cbn [shr shr_record_of_loc]. rewrite iter_pos_nat, shr_shl.
  cbn [shr_m loc_of_shr_record round_nearest_even Zdigits2].
  rewrite Hd.
  replace (Z.max (24 + (e + Z.pos x) - 24) (3 - 128 - 24) - (e + Z.pos x)) with 0 by lia.
  cbn [shr shr_record_of_loc shr_m].
  destruct (Z.leb_spec (e + Z.pos x) (128 - 24)); [reflexivity|lia].
Qed.

(** The float of an integer of at most 24 bits given with [j] more zero bits. *)
Lemma binary_round_shl (p : positive) (j : nat) :
  let d := Z.pos (digits2_pos p) in
  d <= 24 ->
  binary_round 24 128 false (shl p j) (- Z.of_nat j)
  = S754_finite false (shl p (Z.to_nat (24 - d))) (d - 24).
Proof.
  intros d Hd. unfold binary_round.
  rewrite digits_shl. fold d.
  assert (1 <= d) as Hd1 by (subst d; lia).
  unfold fexp, emin.
  replace (Z.max (d + Z.of_nat j + - Z.of_nat j - 24) (3 - 128 - 24)) with (d - 24) by lia.
  assert (Z.pos (digits2_pos (shl p (Z.to_nat (24 - d)))) = 24) as Hcanon.
  { rewrite digits_shl. fold d. lia. }
  unfold shl_align.
  destruct (d - 24 - - Z.of_nat j) as [|x|x] eqn:E.
  - replace (Z.to_nat (24 - d)) with j in * by lia.
    replace (d - 24) with (- Z.of_nat j) by lia.
    apply round_aux_canonical; [exact Hcanon|lia].
  - replace (shl p j) with (shl (shl p (Z.to_nat (24 - d))) (Pos.to_nat x)).
    2:{ rewrite shl_add. f_equal. lia. }
    rewrite round_aux_shr; [f_equal; lia|exact Hcanon|lia].
  - rewrite Pos_iter_shl, shl_add.
    replace (j + Pos.to_nat x)%nat with (Z.to_nat (24 - d)) by lia.
    apply round_aux_canonical; [exact Hcanon|lia].
Qed.

Lemma digits_size p : digits2_pos p = Pos.size p.
Proof. induction p; cbn; congruence. Qed.

Lemma digits_le_24 p : Z.pos p < 2 ^ 24 -> Z.pos (digits2_pos p) <= 24.
Proof.
  intros H. rewrite digits_size.
  pose proof (Pos.size_le p) as Hle.
  destruct (Z.le_gt_cases (Z.pos (Pos.size p)) 24) as [|Hgt]; [assumption|exfalso].
  assert (2 ^ 25 <= 2 ^ Z.pos (Pos.size p)) by (apply Z.pow_le_mono_r; lia).
  assert (Z.pos (2 ^ Pos.size p) <= Z.pos p~0) as H2 by exact Hle.
  rewrite Pos2Z.inj_pow in H2. change (Z.pos 2) with 2 in H2. lia.
Qed.

Lemma shl_plus p q n : (shl p n + shl q n)%positive = shl (p + q) n.
Proof.
  induction n as [|n IH]; [reflexivity|]. rewrite !shl_S, <- IH. reflexivity.
Qed.

Lemma of_Z_pos p :
  let d := Z.pos (digits2_pos p) in
  d <= 24 -> F32.of_Z (Z.pos p) = S754_finite false (shl p (Z.to_nat (24 - d))) (d - 24).
Proof. intros d Hd. exact (binary_round_shl p 0 Hd). Qed.

Lemma add_one_pos p :
  let d := Z.pos (digits2_pos p) in
  d <= 24 ->
  F32.add (S754_finite false (shl p (Z.to_nat (24 - d))) (d - 24)) F32.one
  = binary_round 24 128 false (shl (p + 1) 23) (-23).
Proof.
  intros d Hd. assert (1 <= d) by (subst d; lia).
  unfold F32.add, F32.one, F32.prec, F32.emax, SFadd.
  replace (Z.min (d - 24) (-23)) with (-23) by lia.
  assert (fst (shl_align (shl p (Z.to_nat (24 - d))) (d - 24) (-23)) = shl p 23) as ->.
  { unfold shl_align. destruct (-23 - (d - 24)) as [|x|x] eqn:E; cbn [fst].
    - f_equal. lia.
    - lia.
    - rewrite Pos_iter_shl, shl_add. f_equal. lia. }
  change (fst (shl_align 8388608 (-23) (-23))) with (shl 1 23).
  cbn [cond_Zopp].
  change (Z.pos (shl p 23) + Z.pos (shl 1 23)) with (Z.pos (shl p 23 + shl 1 23)).
  rewrite shl_plus. reflexivity.
Qed.

(** Below 2^24 adding 1.0f is exact. *)
Lemma F32_add_one (k : Z) :
  0 <= k < 2 ^ 24 -> F32.add (F32.of_Z k) F32.one = F32.of_Z (k + 1).
Proof.
  intros Hk. destruct k as [|p|p]; [reflexivity| |lia].
  pose proof (digits_le_24 p ltac:(lia)) as Hd.
  rewrite (of_Z_pos p Hd), (add_one_pos p Hd).
  replace (Z.pos p + 1) with (Z.pos (p + 1)) by lia.
  destruct (Z.eq_dec (Z.pos (p + 1)) (2 ^ 24)) as [E|E].
  - assert (p + 1 = 16777216)%positive as -> by lia. vm_compute. reflexivity.
  - pose proof (digits_le_24 (p + 1) ltac:(lia)) as Hd'.
    rewrite (of_Z_pos (p + 1) Hd').
    exact (binary_round_shl (p + 1) 23 Hd').
Qed.

(** At 2^24 it is absorbed. *)
Lemma F32_add_one_saturated :
  F32.add (F32.of_Z (2 ^ 24)) F32.one = F32.of_Z (2 ^ 24).
Proof. vm_compute. reflexivity. Qed.

Lemma F32_to_Z_of_Z (k : Z) :
  0 <= k <= 2 ^ 24 -> F32.to_Z (F32.of_Z k) = Some k.
Proof.
  intros Hk. destruct k as [|p|p]; [reflexivity| |lia].
  destruct (Z.eq_dec (Z.pos p) (2 ^ 24)) as [E|E].
  - rewrite E. vm_compute. reflexivity.
  - pose proof (digits_le_24 p ltac:(lia)) as Hd.
    rewrite (of_Z_pos p Hd). unfold F32.to_Z.
    set (d := Z.pos (digits2_pos p)) in *. assert (1 <= d) by (subst d; lia).
    rewrite Zpos_shl, Z2Nat.id by lia.
    destruct (Z.leb_spec 0 (d - 24)) as [H0|H0].
    + replace (24 - d) with 0 by lia. replace (d - 24) with 0 by lia.
      cbn [cond_Zopp]. f_equal. lia.
    + replace (- (d - 24)) with (24 - d) by lia.
      rewrite Z.mod_mul by lia. cbn [Z.eqb cond_Zopp].
      rewrite Z.div_mul by lia. reflexivity.
Qed.

(** ** Sizes of the arrays *)

Lemma construct_on_wf (this : UnitreeNeuralControl)
      (foot_threshold : Z) (nominal : list F32.t) :
  wf this -> length nominal = 12%nat -> wf (construct_on this foot_threshold nominal).
Proof.
  intros (_ & Hl & Hf & Hc & Ht) H. unfold wf, construct_on, fill. cbn.
  rewrite !length_replicate. auto.
Qed.

Lemma uninitialized_wf : wf uninitialized.
Proof. repeat split. Qed.

Lemma construct_wf (foot_threshold : Z) (nominal : list F32.t) :
  length nominal = 12%nat -> wf (construct foot_threshold nominal).
Proof. apply construct_on_wf, uninitialized_wf. Qed.

(** The constructor writes every member that has no initializer: what the
    object held before does not show in the result. *)
Lemma construct_on_any (this : UnitreeNeuralControl)
      (foot_threshold : Z) (nominal : list F32.t) :
  wf this -> module_ this = None ->
  construct_on this foot_threshold nominal = construct foot_threshold nominal.
Proof.
  destruct this as [m th n la fc cy lt]. unfold wf. cbn.
  intros (_ & Hl & Hf & Hc & Ht) ->. unfold construct, construct_on, fill. cbn.
  rewrite Hl, Hf, Hc, Ht. reflexivity.
Qed.

Lemma scenario_control_wf : wf scenario_control.
Proof. apply construct_wf. reflexivity. Qed.

Lemma convertFootForceToContact_wf (foot : FootForceState.t) (c : UnitreeNeuralControl) :
  wf c -> wf (convertFootForceToContact foot c).
Proof.
  intros (Hn & Hl & Hf & Hc & Ht). unfold wf. cbn. rewrite !length_insert. auto.
Qed.

Lemma updateCycles_wf (c : UnitreeNeuralControl) :
  wf c -> wf (updateCyclesSinceLastContact c).
Proof.
  intros (Hn & Hl & Hf & Hc & Ht). rewrite updateCycles_spec by lia.
  unfold wf, cycles_after. cbn. rewrite length_zip_with. repeat split; auto; lia.
Qed.

Lemma updateCycles_tick_wf (tick : Z) (c : UnitreeNeuralControl) :
  wf c -> wf (updateCyclesSinceLastContact_tick tick c).
Proof.
  intros (Hn & Hl & Hf & Hc & Ht). rewrite updateCycles_tick_spec by lia.
  unfold wf. cbn. rewrite !length_zip_with. repeat split; auto; lia.
Qed.

Lemma after_msgToTensor_wf (msg : LowState.t) (c : UnitreeNeuralControl) :
  wf c -> wf (after_msgToTensor msg c).
Proof.
  intros H. apply updateCycles_wf, convertFootForceToContact_wf, H.
Qed.

Lemma stale_control_wf : wf stale_control.
Proof.
  apply convertFootForceToContact_wf, updateCycles_tick_wf,
        convertFootForceToContact_wf, scenario_control_wf.
Qed.

(** ** The contact flags *)

(** The array [convertFootForceToContact] leaves behind, slot by slot. *)
Lemma convertFootForceToContact_spec (foot : FootForceState.t) (c : UnitreeNeuralControl) :
  length (foot_contact_ c) = 4%nat ->
  convertFootForceToContact foot c =
  set_foot_contact_
    [ convertFootForce c (FootForceState.front_left foot);
      convertFootForce c (FootForceState.front_right foot);
      convertFootForce c (FootForceState.rear_right foot);
      convertFootForce c (FootForceState.rear_left foot) ] c.
Proof.
  intros Hlen. destruct c as [m th n la fc cy lt]. cbn in Hlen.
  destruct fc as [|f0 [|f1 [|f2 [|f3 [|]]]]]; try discriminate.
  reflexivity.
Qed.

Lemma convertFootForceToContact_fields (foot : FootForceState.t) (c : UnitreeNeuralControl) :
  let c' := convertFootForceToContact foot c in
  module_ c' = module_ c /\
  foot_contact_threshold_ c' = foot_contact_threshold_ c /\
  nominal_ c' = nominal_ c /\
  last_action_ c' = last_action_ c /\
  cycles_since_last_contact_ c' = cycles_since_last_contact_ c /\
  last_tick_ c' = last_tick_ c /\
  length (foot_contact_ c') = length (foot_contact_ c).
Proof.
  cbn. rewrite !length_insert. repeat split; reflexivity.
Qed.

Lemma convertFootForce_cases (c : UnitreeNeuralControl) (force : Z) :
  (force < foot_contact_threshold_ c -> convertFootForce c force = F32.zero) /\
  (foot_contact_threshold_ c <= force -> convertFootForce c force = F32.one).
Proof.
  unfold convertFootForce.
  destruct (Z.ltb_spec force (foot_contact_threshold_ c)); split; intros; auto; lia.
Qed.



(** C3 fails on the code for the rear legs. At threshold 50 and forces
    rear-right 60, rear-left 40, the flag in slot [RL] is 1.0 although the
    rear-left force is below the threshold, and the flag in slot [RR] is
    0.0 although the rear-right force is not below it: the slot [RL] is
    computed from [foot.rear_right] and the slot [RR] from
    [foot.rear_left]. *)
Theorem C3_rear_slots_crossed :
  let c' := convertFootForceToContact scenario_forces scenario_control in
  FootForceState.rear_left scenario_forces < foot_contact_threshold_ scenario_control /\
  foot_contact_ c' !! RL = Some F32.one /\
  foot_contact_threshold_ scenario_control <= FootForceState.rear_right scenario_forces /\
  foot_contact_ c' !! RR = Some F32.zero.
Proof.
  cbv zeta. repeat split; try reflexivity; vm_compute; congruence.
Qed.

(** ** The feature vector *)

Lemma msgToTensor_eq (goal : TwistStamped.t) (msg : LowState.t) (c : UnitreeNeuralControl) :
  msgToTensor goal msg c =
  ( pushJointPositions (LowState.motor_state msg) c
      ++ orientation_xyz msg
      ++ joint_velocities msg
      ++ goal_velocity goal
      ++ foot_contact_ (convertFootForceToContact (LowState.foot_force msg) c)
      ++ gravity_vector msg
      ++ last_action_ c
      ++ cycles_since_last_contact_ (after_msgToTensor msg c),
    after_msgToTensor msg c ).
Proof.
  unfold msgToTensor, pushJointVelocities, after_msgToTensor. cbv zeta.
  f_equal. rewrite <- !app_assoc. reflexivity.
Qed.

Lemma after_msgToTensor_contact (msg : LowState.t) (c : UnitreeNeuralControl) :
  wf c ->
  foot_contact_ (after_msgToTensor msg c) =
  foot_contact_ (convertFootForceToContact (LowState.foot_force msg) c).
Proof.
  intros H. unfold after_msgToTensor.
  pose proof (convertFootForceToContact_wf (LowState.foot_force msg) c H)
    as (_ & _ & Hf & Hc & _).
  rewrite updateCycles_spec by lia. reflexivity.
Qed.

Lemma after_msgToTensor_fields (msg : LowState.t) (c : UnitreeNeuralControl) :
  wf c ->
  module_ (after_msgToTensor msg c) = module_ c /\
  foot_contact_threshold_ (after_msgToTensor msg c) = foot_contact_threshold_ c /\
  nominal_ (after_msgToTensor msg c) = nominal_ c /\
  last_action_ (after_msgToTensor msg c) = last_action_ c /\
  last_tick_ (after_msgToTensor msg c) = last_tick_ c.
Proof.
  intros Hwf. unfold after_msgToTensor.
  pose proof (convertFootForceToContact_wf (LowState.foot_force msg) c Hwf)
    as (_ & _ & Hf & Hc & _).
  rewrite updateCycles_spec by lia. cbn. auto.
Qed.

Lemma msgToTensor_length (goal : TwistStamped.t) (msg : LowState.t)
      (c : UnitreeNeuralControl) :
  wf c -> length (fst (msgToTensor goal msg c)) = 53%nat.
Proof.
  intros Hwf. rewrite msgToTensor_eq. cbn [fst].
  pose proof (after_msgToTensor_wf msg c Hwf) as (_ & _ & _ & Hc & _).
  pose proof (convertFootForceToContact_wf (LowState.foot_force msg) c Hwf)
    as (_ & _ & Hf & _).
  pose proof Hwf as (_ & Hl & _).
  rewrite !length_app, Hf, Hc, Hl. reflexivity.
Qed.

(** The last-action block of the feature vector starts at entry 37. *)
Lemma msgToTensor_last_action (goal : TwistStamped.t) (msg : LowState.t)
      (c : UnitreeNeuralControl) :
  wf c -> take 12 (drop 37 (fst (msgToTensor goal msg c))) = last_action_ c.
Proof.
  intros Hwf. rewrite msgToTensor_eq. cbn [fst].
  pose proof (convertFootForceToContact_wf (LowState.foot_force msg) c Hwf)
    as (_ & _ & Hf & _).
  pose proof Hwf as (_ & Hl & _).
  set (cy := cycles_since_last_contact_ _). set (fc := foot_contact_ _) in *.
  transitivity
    (take 12 (drop 37 ((pushJointPositions (LowState.motor_state msg) c
                          ++ orientation_xyz msg ++ joint_velocities msg
                          ++ goal_velocity goal ++ fc ++ gravity_vector msg)
                         ++ last_action_ c ++ cy))).
  { rewrite <- !app_assoc. reflexivity. }
  rewrite drop_app_length' by (rewrite !length_app, Hf; reflexivity).
  apply take_app_length'. symmetry. exact Hl.
Qed.

(** C1, as the code has it: for every controller whose arrays have their
    sizes, [msgToTensor] returns the concatenation, in this order, of the
    12 relative joint positions, the 3 orientation components x, y, z, the
    12 joint velocities, the 3 goal velocities, the 4 contact flags, the 3
    components of the gravity vector, the 12 values of the last action and
    the 4 cycle counters: 53 floats in all. *)
Theorem C1_msgToTensor_layout (goal : TwistStamped.t) (msg : LowState.t)
        (c : UnitreeNeuralControl) :
  wf c ->
  let position := pushJointPositions (LowState.motor_state msg) c in
  let c' := snd (msgToTensor goal msg c) in
  fst (msgToTensor goal msg c) =
    position ++ orientation_xyz msg ++ joint_velocities msg ++ goal_velocity goal
      ++ foot_contact_ c' ++ gravity_vector msg ++ last_action_ c
      ++ cycles_since_last_contact_ c' /\
  length position = 12%nat /\
  length (orientation_xyz msg) = 3%nat /\
  length (joint_velocities msg) = 12%nat /\
  length (goal_velocity goal) = 3%nat /\
  length (foot_contact_ c') = 4%nat /\
  length (gravity_vector msg) = 3%nat /\
  length (last_action_ c) = 12%nat /\
  length (cycles_since_last_contact_ c') = 4%nat /\
  length (fst (msgToTensor goal msg c)) = 53%nat.
Proof.
  intros Hwf. cbv zeta. rewrite msgToTensor_eq. cbn [fst snd].
  pose proof (after_msgToTensor_wf msg c Hwf) as (_ & _ & Hf & Hc & _).
  pose proof Hwf as (_ & Hl & _).
  rewrite <- (after_msgToTensor_contact msg c Hwf).
  repeat split; auto.
  rewrite !length_app, Hf, Hc, Hl. reflexivity.
Qed.

Lemma C1_msgToTensor_layout_witness :
  wf scenario_control /\
  length (fst (msgToTensor scenario_goal scenario_msg scenario_control)) = 53%nat.
Proof.
  split; [exact scenario_control_wf|].
  apply (C1_msgToTensor_layout scenario_goal scenario_msg scenario_control
                               scenario_control_wf).
Defined.

(** C1 as stated fails: in the scenario the vector has 53 entries, not 57. *)
Lemma C1_not_57 :
  wf scenario_control /\
  length (fst (msgToTensor scenario_goal scenario_msg scenario_control)) <> 57%nat.
Proof.
  split; [exact scenario_control_wf|]. vm_compute. discriminate.
Qed.

(** C2 as stated fails: in the scenario the four contact flags of the
    feature vector are [0, 1, 1, 0], not [1, 0, 1, 0]. *)
Lemma C2_scenario_flags :
  take 4 (drop 30 (fst (msgToTensor scenario_goal scenario_msg scenario_control)))
    = [F32.zero; F32.one; F32.one; F32.zero] /\
  take 4 (drop 30 (fst (msgToTensor scenario_goal scenario_msg scenario_control)))
    <> [F32.one; F32.zero; F32.one; F32.zero].
Proof.
  split; [vm_compute; reflexivity | vm_compute; discriminate].
Qed.

(** C2, as the code has it by design: the contact block of the feature
    vector (entries 30 to 33) is indexed by the header's constants, front
    left at [FL = 0] and front right at [FR = 1]; entry [30 + FL] is the
    flag of the front-left force and entry [30 + FR] the flag of the
    front-right force, which in the scenario are 0 and 1. *)
Theorem C2_front_slots (goal : TwistStamped.t) (msg : LowState.t)
        (c : UnitreeNeuralControl) :
  wf c ->
  fst (msgToTensor goal msg c) !! (30 + FL)%nat =
    Some (convertFootForce c (FootForceState.front_left (LowState.foot_force msg))) /\
  fst (msgToTensor goal msg c) !! (30 + FR)%nat =
    Some (convertFootForce c (FootForceState.front_right (LowState.foot_force msg))) /\
  (c = scenario_control -> msg = scenario_msg ->
   fst (msgToTensor goal msg c) !! (30 + FL)%nat = Some F32.zero /\
   fst (msgToTensor goal msg c) !! (30 + FR)%nat = Some F32.one).
Proof.
  intros Hwf.
  assert (forall k, (k < 4)%nat ->
            fst (msgToTensor goal msg c) !! (30 + k)%nat =
            foot_contact_ (convertFootForceToContact (LowState.foot_force msg) c) !! k)
    as Hblock.
  { intros k Hk. rewrite msgToTensor_eq. cbn [fst].
    pose proof (convertFootForceToContact_wf (LowState.foot_force msg) c Hwf)
      as (_ & _ & Hf & _).
    change (30 + k)%nat with (12 + (3 + (12 + (3 + k))))%nat.
    rewrite lookup_app_r by (cbn; lia).
    replace (12 + (3 + (12 + (3 + k))) - length (pushJointPositions (LowState.motor_state msg) c))%nat
      with (3 + (12 + (3 + k)))%nat by (cbn; lia).
    rewrite lookup_app_r by (cbn; lia).
    replace (3 + (12 + (3 + k)) - length (orientation_xyz msg))%nat
      with (12 + (3 + k))%nat by (cbn; lia).
    rewrite lookup_app_r by (cbn; lia).
    replace (12 + (3 + k) - length (joint_velocities msg))%nat
      with (3 + k)%nat by (cbn; lia).
    rewrite lookup_app_r by (cbn; lia).
    replace (3 + k - length (goal_velocity goal))%nat with k by (cbn; lia).
    apply lookup_app_l. lia. }
  pose proof Hwf as (_ & _ & Hf & _).
  rewrite !Hblock by (unfold FL, FR; lia).
  rewrite convertFootForceToContact_spec by exact Hf.
  split; [reflexivity|]. split; [reflexivity|].
  intros -> ->. split; reflexivity.
Qed.

Lemma C2_front_slots_witness :
  wf scenario_control /\
  fst (msgToTensor scenario_goal scenario_msg scenario_control) !! (30 + FL)%nat =
    Some F32.zero.
Proof.
  split; [exact scenario_control_wf|].
  apply (C2_front_slots scenario_goal scenario_msg scenario_control
                        scenario_control_wf); reflexivity.
Defined.

(** C4: entry [i] of the feature vector, [i < 12], is the float difference
    of joint angle [i] and nominal offset [i], joints in the order front
    right, front left, rear right, rear left and hip, thigh, calf within a
    leg; it is a zero when the angle is a finite number equal to the
    offset. *)
Theorem C4_relative_joint_position (goal : TwistStamped.t) (msg : LowState.t)
        (c : UnitreeNeuralControl) (i : nat) :
  (i < 12)%nat ->
  fst (msgToTensor goal msg c) !! i =
    Some (F32.sub (joint_angles msg !!! i) (nominal_ c !!! i)) /\
  (F32.is_finite (joint_angles msg !!! i) = true ->
   F32.eqb (joint_angles msg !!! i) (nominal_ c !!! i) = true ->
   exists entry, fst (msgToTensor goal msg c) !! i = Some entry /\
                 F32.is_zero entry = true).
Proof.
  intros Hi.
  assert (fst (msgToTensor goal msg c) !! i =
          Some (F32.sub (joint_angles msg !!! i) (nominal_ c !!! i))) as Hentry.
  { rewrite msgToTensor_eq. cbn [fst]. rewrite lookup_app_l by (cbn; lia).
    do 12 (destruct i as [|i]; [reflexivity|]). lia. }
  split; [exact Hentry|].
  intros Hfin Heq. eexists. split; [exact Hentry|].
  apply F32_sub_eq_zero; assumption.
Qed.

Lemma C4_relative_joint_position_witness :
  exists entry,
    fst (msgToTensor scenario_goal scenario_msg
           (construct 50 (replicate 12 (F32.lit 13421773 (-27))))) !! 0%nat = Some entry /\
    F32.is_zero entry = true.
Proof.
  apply (C4_relative_joint_position scenario_goal scenario_msg
           (construct 50 (replicate 12 (F32.lit 13421773 (-27)))) 0);
    [lia | reflexivity | reflexivity].
Defined.

(** ** The command *)

Lemma actionToMsg_defined (action : list F32.t) (c : UnitreeNeuralControl) :
  (12 <= length action)%nat -> is_Some (actionToMsg action c).
Proof.
  intros Hlen.
  do 12 (destruct action as [|? action]; [cbn in Hlen; lia|]).
  eexists. reflexivity.
Qed.

(** C5: for every action of at least 12 entries [actionToMsg] returns a
    command whose joint target [i] is the float sum of nominal offset [i]
    and action entry [i], in the joint order, with mode [0x0A], position
    gain 20.0 and damping gain 0.5 whatever the input; when the nominal
    pose and the first 12 action entries are all zero so are the 12
    targets. *)
Theorem C5_actionToMsg (action : list F32.t) (c : UnitreeNeuralControl) :
  (12 <= length action)%nat ->
  exists cmd,
    actionToMsg action c = Some cmd /\
    length (LowCmd.targets cmd) = 12%nat /\
    (forall i, (i < 12)%nat ->
       LowCmd.targets cmd !! i = Some (F32.add (nominal_ c !!! i) (action !!! i))) /\
    LowCmd.common cmd = CommonCmd.mk PMSM_SERVO_MODE (F32.of_Z 20) (F32.lit 1 (-1)) /\
    (nominal_ c = replicate 12 F32.zero ->
     take 12 action = replicate 12 F32.zero ->
     LowCmd.targets cmd = replicate 12 F32.zero).
Proof.
  intros Hlen.
  do 12 (destruct action as [|? action]; [cbn in Hlen; lia|]).
  eexists. split; [reflexivity|]. split; [reflexivity|]. split; [|split].
  - intros i Hi. do 12 (destruct i as [|i]; [reflexivity|]). lia.
  - reflexivity.
  - intros Hn Ha. cbn in Ha. injection Ha as -> -> -> -> -> -> -> -> -> -> -> ->.
    cbn. rewrite Hn. reflexivity.
Qed.

Lemma C5_actionToMsg_witness :
  exists cmd,
    actionToMsg (replicate 12 F32.zero) scenario_control = Some cmd /\
    LowCmd.targets cmd = replicate 12 F32.zero.
Proof.
  destruct (C5_actionToMsg (replicate 12 F32.zero) scenario_control)
    as (cmd & Hcmd & _ & _ & _ & Hzero); [cbn; lia|].
  exists cmd. split; [exact Hcmd|]. apply Hzero; reflexivity.
Defined.

(** ** One tick of the policy *)

(** What [modelForward] does when a policy is loaded and returns 12 values. *)
Lemma modelForward_eq (goal : TwistStamped.t) (msg : LowState.t)
      (c : UnitreeNeuralControl) (forward : list F32.t -> list F32.t) :
  wf c ->
  module_ c = Some forward ->
  length (forward (fst (msgToTensor goal msg c))) = 12%nat ->
  let state := fst (msgToTensor goal msg c) in
  let action_vec := zip_with blend (take 12 state) (forward state) in
  exists cmd,
    actionToMsg action_vec (after_msgToTensor msg c) = Some cmd /\
    modelForward goal msg c =
    Some (cmd, state, set_last_action_ action_vec (after_msgToTensor msg c)).
Proof.
  intros Hwf Hmod Hraw. cbv zeta.
  pose proof (msgToTensor_length goal msg c Hwf) as Hlen.
  pose proof (after_msgToTensor_fields msg c Hwf) as (Hm & _ & _ & Hla & _).
  pose proof Hwf as (_ & Hl & _).
  unfold modelForward. rewrite msgToTensor_eq in *. cbn [fst] in *.
  set (state := _ ++ _) in *. set (c1 := after_msgToTensor msg c) in *.
  rewrite Hm, Hmod. cbn [mbind option_bind].
  unfold transform. rewrite Hraw, Hlen.
  destruct (decide (12 <= 53)%nat) as [_|]; [|lia]. cbn [mbind option_bind].
  set (action_vec := zip_with blend (take 12 state) (forward state)).
  assert (length action_vec = 12%nat) as Hav.
  { subst action_vec. rewrite length_zip_with, length_take. lia. }
  unfold copy. rewrite Hav, Hla, Hl.
  destruct (decide (12 <= 12)%nat) as [_|]; [|lia]. cbn [mbind option_bind].
  rewrite drop_ge by lia. rewrite app_nil_r.
  destruct (actionToMsg_defined action_vec c1) as [cmd Hcmd]; [lia|].
  exists cmd. split; [exact Hcmd|].
  replace (actionToMsg action_vec (set_last_action_ action_vec c1))
    with (actionToMsg action_vec c1) by reflexivity.
  rewrite Hcmd. reflexivity.
Qed.

Lemma modelForward_inv (goal : TwistStamped.t) (msg : LowState.t)
      (c c' : UnitreeNeuralControl) (cmd : LowCmd.t) (tensor : list F32.t) :
  wf c ->
  modelForward goal msg c = Some (cmd, tensor, c') ->
  exists last, length last = 12%nat /\
               c' = set_last_action_ last (after_msgToTensor msg c).
Proof.
  intros Hwf. unfold modelForward. rewrite msgToTensor_eq.
  pose proof (after_msgToTensor_wf msg c Hwf) as (_ & Hl & _).
  destruct (module_ (after_msgToTensor msg c)) as [forward|]; [|discriminate].
  cbn [mbind option_bind].
  destruct (transform _ _ _) as [action_vec|]; [|discriminate].
  cbn [mbind option_bind]. unfold copy.
  destruct (decide (length action_vec <= length (last_action_ (after_msgToTensor msg c)))%nat)
    as [Hle|]; [|discriminate].
  cbn [mbind option_bind].
  destruct (actionToMsg _ _) as [cmd'|]; [|discriminate].
  cbn [mbind option_bind]. intros H. injection H as _ _ <-.
  eexists. split; [|reflexivity].
  rewrite length_app, length_drop. lia.
Qed.

(** What [modelForward] leaves in [last_action_]: when a policy is loaded
    and returns 12 values, the call completes and [last_action_] holds the
    vector [std::transform] wrote over [action_vec], entry [i] being the
    float nearest to [double(state[i]) + double(raw[i]) * 0.25], where
    [state[i]] is the relative position of joint [i] in this tick's
    feature vector; the feature vector of the next tick carries these 12
    values in entries 37 to 48. *)
Lemma modelForward_last_action (goal : TwistStamped.t) (msg : LowState.t)
        (c : UnitreeNeuralControl) (forward : list F32.t -> list F32.t) :
  wf c ->
  module_ c = Some forward ->
  length (forward (fst (msgToTensor goal msg c))) = 12%nat ->
  let state := fst (msgToTensor goal msg c) in
  let raw := forward state in
  exists cmd c',
    modelForward goal msg c = Some (cmd, state, c') /\
    length (last_action_ c') = 12%nat /\
    (forall i, (i < 12)%nat ->
       last_action_ c' !! i =
       Some (blend (F32.sub (joint_angles msg !!! i) (nominal_ c !!! i)) (raw !!! i))) /\
    (forall goal' msg',
       take 12 (drop 37 (fst (msgToTensor goal' msg' c'))) = last_action_ c').
Proof.
  intros Hwf Hmod Hraw. cbv zeta.
  destruct (modelForward_eq goal msg c forward Hwf Hmod Hraw) as (cmd & _ & Hrun).
  pose proof (msgToTensor_length goal msg c Hwf) as Hlen.
  set (state := fst (msgToTensor goal msg c)) in *.
  set (action_vec := zip_with blend (take 12 state) (forward state)) in *.
  assert (length action_vec = 12%nat) as Hav.
  { subst action_vec. rewrite length_zip_with, length_take. lia. }
  exists cmd, (set_last_action_ action_vec (after_msgToTensor msg c)).
  split; [exact Hrun|]. split; [exact Hav|]. split.
  - intros i Hi. cbn [last_action_ set_last_action_]. subst action_vec.
    rewrite lookup_zip_with, lookup_take_lt by lia.
    assert (state !! i = Some (F32.sub (joint_angles msg !!! i) (nominal_ c !!! i)))
      as ->.
    { subst state. rewrite msgToTensor_eq. cbn [fst].
      rewrite lookup_app_l by (cbn; lia).
      do 12 (destruct i as [|i]; [reflexivity|]). lia. }
    cbn [mbind option_bind].
    destruct (lookup_lt_is_Some_2 (forward state) i) as [r Hr]; [lia|].
    rewrite (total_lookup_of_lookup _ _ _ Hr), Hr. reflexivity.
  - intros goal' msg'. rewrite msgToTensor_last_action; [reflexivity|].
    pose proof (after_msgToTensor_wf msg c Hwf) as (Hn & _ & Hf & Hc & Ht).
    repeat split; auto.
Qed.

(** C6 does not hold of the code. The claim wants [last_action_] to be the
    raw policy output, and the comment in [modelForward] announces "Take
    nominal position and add action"; but [std::transform] adds a quarter
    of the action to the first entries of the feature vector (the relative
    joint positions) and writes the sums over [action_vec], and the copy
    under "Update last action" stores these sums. With a policy whose raw
    output is 1.0 for every joint and the joints of the scenario at 0.1,
    the tick leaves 0.35 (the float nearest to 0.1f + 0.25) in every slot
    of [last_action_], not 1.0, and the feature vector of the next tick
    carries 0.35 in its last-action block. *)
Theorem C6_last_action_not_raw :
  exists cmd tensor c',
    modelForward scenario_goal scenario_msg
                 (loadModel (constant_policy F32.one) scenario_control)
      = Some (cmd, tensor, c') /\
    constant_policy F32.one tensor = replicate 12 F32.one /\
    last_action_ c' = replicate 12 (F32.lit 11744051 (-25)) /\
    last_action_ c' <> replicate 12 F32.one /\
    take 12 (drop 37 (fst (msgToTensor scenario_goal scenario_msg c')))
    = replicate 12 (F32.lit 11744051 (-25)).
Proof.
  do 3 eexists. split; [vm_compute; reflexivity|].
  split; [reflexivity|]. split; [vm_compute; reflexivity|].
  split; [vm_compute; discriminate|]. vm_compute. reflexivity.
Qed.

(** ** The gravity vector

    [convertToGravityVector] computes in binary32. Its result is compared
    with the exact rotation through the error of each operation: a
    rounded operation whose exact result [x] stays below [2^127] returns
    a float within [u32 * |x| + eta32] of [x]. *)

(** *** Rounding in binary32, on integers *)

Lemma digits2_pos_bounds (p : positive) :
  2 ^ (Z.pos (digits2_pos p) - 1) <= Z.pos p < 2 ^ Z.pos (digits2_pos p).
Proof.
  induction p as [p IH|p IH|]; cbn [digits2_pos].
  - rewrite Pos2Z.inj_succ.
    replace (Z.succ (Z.pos (digits2_pos p)) - 1) with (Z.succ (Z.pos (digits2_pos p) - 1)) by lia.
    rewrite !Z.pow_succ_r by lia. lia.
  - rewrite Pos2Z.inj_succ.
    replace (Z.succ (Z.pos (digits2_pos p)) - 1) with (Z.succ (Z.pos (digits2_pos p) - 1)) by lia.
    rewrite !Z.pow_succ_r by lia. lia.
  - cbn. lia.
Qed.

Lemma Zdigits2_nonneg (m : Z) : 0 <= Zdigits2 m.
Proof. destruct m; cbn; lia. Qed.

Lemma Zdigits2_bounds (m : Z) :
  0 < m -> 2 ^ (Zdigits2 m - 1) <= m < 2 ^ Zdigits2 m.
Proof.
  destruct m as [|p|p]; try lia. intros _. apply digits2_pos_bounds.
Qed.

Lemma Zdigits2_lt_pow (m k : Z) : 0 <= m -> 0 <= k -> m < 2 ^ k -> Zdigits2 m <= k.
Proof.
  intros Hm Hk H. destruct (Z.eq_dec m 0) as [->|Hne]; [cbn; lia|].
  destruct (Zdigits2_bounds m ltac:(lia)) as [Hlo _].
  destruct (Z.le_gt_cases (Zdigits2 m) k) as [|Hgt]; [assumption|exfalso].
  assert (2 ^ k <= 2 ^ (Zdigits2 m - 1)) by (apply Z.pow_le_mono_r; lia). lia.
Qed.

Lemma Zdigits2_ge_pow (m k : Z) : 0 <= k -> 2 ^ k <= m -> k + 1 <= Zdigits2 m.
Proof.
  intros Hk H. assert (0 < m) as Hm by (pose proof (Z.pow_pos_nonneg 2 k); lia).
  destruct (Zdigits2_bounds m Hm) as [_ Hhi].
  destruct (Z.le_gt_cases (k + 1) (Zdigits2 m)) as [|Hgt]; [assumption|exfalso].
  assert (2 ^ Zdigits2 m <= 2 ^ k).
  { apply Z.pow_le_mono_r; [lia|]. pose proof (Zdigits2_nonneg m). lia. }
  lia.
Qed.

Lemma shr_1_div2 (mrs : shr_record) :
  0 <= shr_m mrs -> shr_m (shr_1 mrs) = shr_m mrs / 2.
Proof.
  destruct mrs as [m r s]. cbn [shr_m]. intros Hm.
  destruct m as [|[p|p|]|p]; cbn [shr_1 shr_m].
  - reflexivity.
  - apply Z.div_unique with 1; lia.
  - apply Z.div_unique with 0; lia.
  - reflexivity.
  - lia.
Qed.

Lemma iter_shr_1 (n : nat) (mrs : shr_record) :
  0 <= shr_m mrs ->
  shr_m (Nat.iter n shr_1 mrs) = shr_m mrs / 2 ^ Z.of_nat n.
Proof.
  intros Hm. induction n as [|n IH].
  - cbn. rewrite Z.div_1_r. reflexivity.
  - rewrite Nat.iter_succ, shr_1_div2.
    + rewrite IH, Nat2Z.inj_succ, Z.pow_succ_r by lia.
      rewrite Z.div_div by (try apply Z.pow_pos_nonneg; lia).
      f_equal. lia.
    + rewrite IH. apply Z.div_pos; [lia|]. apply Z.pow_pos_nonneg; lia.
Qed.

Lemma shr_m_of_loc (m : Z) (l : location) : shr_m (shr_record_of_loc m l) = m.
Proof. destruct l as [|[| |]]; reflexivity. Qed.

(** [shr] divides the mantissa by [2^n], rounding down. *)
Lemma shr_spec (m : Z) (l : location) (e n : Z) :
  0 <= m -> 0 <= n ->
  exists mrs, shr (shr_record_of_loc m l) e n = (mrs, e + n) /\
              shr_m mrs = m / 2 ^ n.
Proof.
  intros Hm Hn. destruct n as [|q|q]; try lia.
  - eexists. split; [cbn [shr]; rewrite Z.add_0_r; reflexivity|].
    rewrite shr_m_of_loc, Z.div_1_r. reflexivity.
  - eexists. split; [reflexivity|].
    rewrite iter_pos_nat, iter_shr_1 by (rewrite shr_m_of_loc; lia).
    rewrite shr_m_of_loc, positive_nat_Z. reflexivity.
Qed.

Lemma round_nearest_even_cases (x : Z) (l : location) :
  round_nearest_even x l = x \/ round_nearest_even x l = x + 1.
Proof.
  destruct l as [|[| |]]; cbn; auto. destruct (Z.even x); auto.
Qed.

Lemma pow2_pos (k : Z) : 0 <= k -> 0 < 2 ^ k.
Proof. intros H. apply Z.pow_pos_nonneg; lia. Qed.

Lemma Zdigits2_unique (m k : Z) :
  1 <= k -> 2 ^ (k - 1) <= m < 2 ^ k -> Zdigits2 m = k.
Proof.
  intros Hk [Hlo Hhi].
  assert (0 < m) by (pose proof (pow2_pos (k - 1)); lia).
  pose proof (Zdigits2_lt_pow m k ltac:(lia) ltac:(lia) Hhi).
  pose proof (Zdigits2_ge_pow m (k - 1) ltac:(lia) Hlo). lia.
Qed.

Lemma Zdigits2_pow2 (k : Z) : 0 <= k -> Zdigits2 (2 ^ k) = k + 1.
Proof.
  intros Hk. apply Zdigits2_unique; [lia|].
  replace (k + 1 - 1) with k by lia. split; [lia|].
  apply Z.pow_lt_mono_r; lia.
Qed.

Lemma shr_zero (mrs : shr_record) (e n : Z) : n <= 0 -> shr mrs e n = (mrs, e).
Proof. intros H. destruct n; try lia; reflexivity. Qed.

(** How [binary_round_aux] rounds [m * 2^e]: to [r1 * 2^e1], where [e1] is
    the exponent of the format at the magnitude of [m * 2^e] and [r1] is
    [m / 2^(e1 - e)] rounded down or up. *)
Lemma round_aux_spec (s : bool) (m e : Z) (l : location) :
  0 <= m -> e <= fexp32 (Zdigits2 m + e) -> Zdigits2 m + e <= 127 ->
  let e1 := fexp32 (Zdigits2 m + e) in
  let m1 := m / 2 ^ (e1 - e) in
  exists r1, (r1 = m1 \/ r1 = m1 + 1) /\
    match binary_round_aux 24 128 s m e l with
    | S754_zero s' => s' = s /\ r1 = 0
    | S754_finite s' m2 e2 =>
        s' = s /\ Z.pos m2 * 2 ^ (e2 - e1) = r1 /\ e1 <= e2 /\
        bounded 24 128 m2 e2 = true
    | _ => False
    end.
Proof.
  intros Hm He Hov. cbv zeta.
  set (d := Zdigits2 m) in *. set (e1 := fexp32 (d + e)) in *.
  set (n := e1 - e). assert (0 <= n) as Hn by (subst n; lia).
  assert (0 <= d) as Hd by apply Zdigits2_nonneg.
  unfold binary_round_aux, shr_fexp. change (fexp 24 128) with fexp32.
  fold d. fold e1. fold n.
  destruct (shr_spec m l e n Hm Hn) as (mrs & -> & Hmrs).
  replace (e + n) with e1 by (subst n; lia).
  set (m1 := m / 2 ^ n) in *.
  set (r1 := round_nearest_even (shr_m mrs) (loc_of_shr_record mrs)).
  assert (r1 = m1 \/ r1 = m1 + 1) as Hr1.
  { subst r1. rewrite Hmrs. apply round_nearest_even_cases. }
  exists r1. split; [exact Hr1|].
  assert (0 < 2 ^ n) as Hpn by (apply pow2_pos; lia).
  assert (0 <= m1) as Hm1 by (subst m1; apply Z.div_pos; lia).
  assert (m < 2 ^ d) as Hmd.
  { destruct (Z.eq_dec m 0) as [->|]; [apply pow2_pos; lia|].
    apply Zdigits2_bounds. lia. }
  assert (d - n <= 24) as Hk24 by (subst n e1; unfold fexp32; lia).
  assert (e1 <= 103) as He1 by (subst e1; unfold fexp32; lia).
  assert (-149 <= e1) as He1' by (subst e1; unfold fexp32; lia).
  destruct (Z.eq_dec r1 0) as [Hz|Hnz].
  { (* the result is a zero *)
    rewrite Hz. cbn [Zdigits2]. rewrite shr_zero by (unfold fexp32; lia).
    cbn. auto. }
  assert (0 < r1) as Hpos by lia.
  destruct (Z.le_gt_cases (d - n) 0) as [Hk|Hk].
  - (* everything is shifted out: one unit of the smallest exponent *)
    assert (m1 = 0) as Hm10.
    { subst m1. apply Z.div_small. split; [lia|].
      assert (2 ^ d <= 2 ^ n) by (apply Z.pow_le_mono_r; lia). lia. }
    assert (r1 = 1) as Hr11 by lia.
    assert (e1 = -149) as He149 by (subst n e1; unfold fexp32 in *; lia).
    rewrite Hr11. cbn [Zdigits2 digits2_pos]. rewrite He149.
    change (fexp32 (1 + -149) - -149) with 0.
    cbn. repeat split; try reflexivity; lia.
  - (* [m1] has [d - n] digits *)
    set (k := d - n) in *.
    assert (m1 < 2 ^ k) as Hm1hi.
    { subst m1. apply Z.div_lt_upper_bound; [lia|].
      rewrite <- Z.pow_add_r by lia. replace (n + k) with d by (subst k; lia). exact Hmd. }
    assert (2 ^ (k - 1) <= m1) as Hm1lo.
    { subst m1. apply Z.div_le_lower_bound; [lia|].
      rewrite <- Z.pow_add_r by lia. replace (n + (k - 1)) with (d - 1) by (subst k; lia).
      apply Zdigits2_bounds.
      destruct (Z.eq_dec m 0) as [E|]; [|lia].
      assert (d = 0) by (subst d; rewrite E; reflexivity). subst k. lia. }
    destruct (Z.eq_dec r1 (2 ^ k)) as [Hcarry|Hnocarry].
    + (* rounding up reached the next power of two *)
      rewrite Hcarry, Zdigits2_pow2 by lia.
      destruct (Z.le_gt_cases (-149) (d + e - 24)) as [Hnorm|Hsub].
      * assert (k = 24) as Hk' by (subst k n e1; unfold fexp32; lia).
        replace (fexp32 (k + 1 + e1) - e1) with 1
          by (subst k n e1; unfold fexp32; lia).
        rewrite Hk'. change (2 ^ 24) with 16777216.
        cbn [shr shr_record_of_loc iter_pos shr_1 shr_m Z.add].
        replace (e1 + 1 <=? 128 - 24) with true by (symmetry; apply Z.leb_le; lia).
        split; [reflexivity|]. split.
        { replace (e1 + 1 - e1) with 1 by lia. reflexivity. }
        split; [lia|].
        unfold bounded, canonical_mantissa. change (fexp 24 128) with fexp32.
        apply andb_true_intro. split; [|apply Z.leb_le; lia].
        apply Z.eqb_eq. cbn [digits2_pos Pos.succ]. unfold fexp32. lia.
      * replace (fexp32 (k + 1 + e1) - e1) with 0
          by (subst k n e1; unfold fexp32; lia).
        cbn [shr shr_record_of_loc shr_m].
        assert (exists q, 2 ^ k = Z.pos q) as (q & Hq).
        { pose proof (pow2_pos k ltac:(lia)). destruct (2 ^ k); try lia. eauto. }
        rewrite Hq.
        replace (e1 <=? 128 - 24) with true by (symmetry; apply Z.leb_le; lia).
        split; [reflexivity|]. split.
        { rewrite Z.sub_diag. lia. }
        split; [lia|].
        unfold bounded, canonical_mantissa. change (fexp 24 128) with fexp32.
        apply andb_true_intro. split; [|apply Z.leb_le; lia].
        apply Z.eqb_eq.
        change (Z.pos (digits2_pos q)) with (Zdigits2 (Z.pos q)).
        rewrite <- Hq, Zdigits2_pow2 by lia.
        subst k n e1. unfold fexp32. lia.
    + assert (r1 < 2 ^ k) as Hr1hi by lia.
      assert (Zdigits2 r1 = k) as Hd1 by (apply Zdigits2_unique; lia).
      rewrite Hd1.
      replace (fexp32 (k + e1) - e1) with 0
        by (subst k n; replace (d - (e1 - e) + e1) with (d + e) by lia; fold e1; lia).
      cbn [shr shr_record_of_loc shr_m].
      destruct r1 as [|q|q]; try lia.
      replace (e1 <=? 128 - 24) with true by (symmetry; apply Z.leb_le; lia).
      split; [reflexivity|]. split.
      { rewrite Z.sub_diag. lia. }
      split; [lia|].
      unfold bounded, canonical_mantissa. change (fexp 24 128) with fexp32.
      apply andb_true_intro. split; [|apply Z.leb_le; lia].
      apply Z.eqb_eq.
      change (Z.pos (digits2_pos q)) with (Zdigits2 (Z.pos q)). rewrite Hd1.
      subst k n. replace (d - (e1 - e) + e1) with (d + e) by lia. reflexivity.
Qed.

(** *** The real value of a float *)

Lemma bpow_pos (e : Z) : (0 < bpow e)%R.
Proof. apply powerRZ_lt. lra. Qed.

Lemma bpow_add (a b : Z) : bpow (a + b) = (bpow a * bpow b)%R.
Proof. apply powerRZ_add. lra. Qed.

Lemma bpow_IZR (k : Z) : 0 <= k -> IZR (2 ^ k) = bpow k.
Proof.
  intros Hk. unfold bpow. rewrite <- (Z2Nat.id k) by exact Hk.
  rewrite <- pow_powerRZ, <- pow_IZR. reflexivity.
Qed.

Lemma bpow_ge_1 (k : Z) : 0 <= k -> (1 <= bpow k)%R.
Proof.
  intros Hk. rewrite <- bpow_IZR by exact Hk. apply IZR_le.
  pose proof (pow2_pos k Hk). lia.
Qed.

Lemma bpow_le (a b : Z) : a <= b -> (bpow a <= bpow b)%R.
Proof.
  intros H. replace b with (a + (b - a)) by lia. rewrite bpow_add.
  pose proof (bpow_pos a). pose proof (bpow_ge_1 (b - a) ltac:(lia)). nra.
Qed.

Lemma bpow_lt_inv (a b : Z) : (bpow a < bpow b)%R -> a < b.
Proof.
  intros H. destruct (Z.lt_ge_cases a b) as [|Hge]; [assumption|].
  pose proof (bpow_le b a Hge). lra.
Qed.

Lemma Z2R_shift (m e k : Z) : 0 <= k -> Z2R (m * 2 ^ k) e = Z2R m (e + k).
Proof.
  intros Hk. unfold Z2R. rewrite mult_IZR, bpow_IZR, bpow_add by exact Hk. ring.
Qed.

Lemma Z2R_le (a b e : Z) : a <= b -> (Z2R a e <= Z2R b e)%R.
Proof.
  intros H. unfold Z2R. apply Rmult_le_compat_r; [left; apply bpow_pos|].
  apply IZR_le. exact H.
Qed.

(** The magnitude of a real bounds the digits of its integer part. *)
Lemma digits_of_bound (m e k : Z) :
  0 < m -> (Z2R m e < bpow k)%R -> Zdigits2 m + e <= k.
Proof.
  intros Hm H. destruct (Zdigits2_bounds m Hm) as [Hlo _].
  assert (Z2R (2 ^ (Zdigits2 m - 1)) e <= Z2R m e)%R as H1 by (apply Z2R_le; exact Hlo).
  pose proof (Zdigits2_nonneg m) as Hd.
  assert (1 <= Zdigits2 m) as Hd1.
  { destruct m; try lia. cbn. lia. }
  unfold Z2R at 1 in H1. rewrite bpow_IZR, <- bpow_add in H1 by lia.
  assert (bpow (Zdigits2 m - 1 + e) < bpow k)%R as H2 by lra.
  apply bpow_lt_inv in H2. lia.
Qed.

Lemma F2R_finite (s : bool) (m : positive) (e : Z) :
  F2R (S754_finite s m e) = (if s then - Z2R (Z.pos m) e else Z2R (Z.pos m) e)%R.
Proof.
  unfold F2R, Z2R. destruct s; cbn [cond_Zopp].
  - rewrite opp_IZR. ring.
  - reflexivity.
Qed.

(** The error of [binary_round_aux]: it returns a valid float within
    [u32 * x + eta32] of the real [x >= 0] it is given between [m * 2^e]
    and [(m + 1) * 2^e]. *)
Lemma round_aux_err (s : bool) (m e : Z) (l : location) (x : R) :
  0 <= m -> e <= fexp32 (Zdigits2 m + e) ->
  (Z2R m e <= x <= Z2R (m + 1) e)%R -> (x < bpow 127)%R ->
  valid32 (binary_round_aux 24 128 s m e l) /\
  exists v : R,
    F2R (binary_round_aux 24 128 s m e l) = (if s then - v else v)%R /\
    (Rabs (v - x) <= u32 * x + eta32)%R.
Proof.
  intros Hm He [Hlo Hhi] Hov.
  assert (Zdigits2 m + e <= 127) as Hov'.
  { destruct (Z.eq_dec m 0) as [->|Hne].
    - cbn [Zdigits2] in *. unfold fexp32 in He. lia.
    - apply digits_of_bound; [lia|lra]. }
  destruct (round_aux_spec s m e l Hm He Hov') as (r1 & Hr1 & Hres).
  set (d := Zdigits2 m) in *. set (e1 := fexp32 (d + e)) in *.
  set (n := e1 - e) in *. assert (0 <= n) as Hn by (subst n; lia).
  set (m1 := m / 2 ^ n) in *.
  pose proof (pow2_pos n Hn) as Hpn.
  assert (m1 * 2 ^ n <= m < (m1 + 1) * 2 ^ n) as Hdiv.
  { subst m1. pose proof (Z.div_mod m (2 ^ n) ltac:(lia)) as Hdm.
    pose proof (Z.mod_pos_bound m (2 ^ n) Hpn). nia. }
  assert (Z2R m1 e1 <= x <= Z2R (m1 + 1) e1)%R as Hx.
  { replace e1 with (e + n) by (subst n; lia). rewrite <- !Z2R_shift by exact Hn.
    split.
    - apply Rle_trans with (Z2R m e); [apply Z2R_le; lia|exact Hlo].
    - apply Rle_trans with (Z2R (m + 1) e); [exact Hhi|apply Z2R_le; lia]. }
  assert (0 <= x)%R as Hx0.
  { apply Rle_trans with (Z2R m e); [|exact Hlo]. unfold Z2R.
    apply Rmult_le_pos; [apply IZR_le; lia|left; apply bpow_pos]. }
  assert (bpow e1 <= u32 * x + eta32)%R as Hulp.
  { unfold u32, eta32. pose proof (bpow_pos (-149)). pose proof (bpow_pos (-23)).
    destruct (Z.le_gt_cases (d + e - 24) (-149)) as [Hsub|Hnorm].
    - replace e1 with (-149) by (subst e1; unfold fexp32; lia). nra.
    - assert (0 < m) as Hmpos.
      { destruct (Z.eq_dec m 0) as [E|]; [|lia].
        assert (d = 0) as Hd0 by (subst d; rewrite E; reflexivity).
        subst e1. unfold fexp32 in He. lia. }
      destruct (Zdigits2_bounds m Hmpos) as [Hdlo _]. fold d in Hdlo.
      assert (1 <= d) as Hd1 by (subst d; destruct m; try lia; cbn; lia).
      assert (bpow (d - 1 + e) <= x)%R as Hbx.
      { apply Rle_trans with (Z2R m e); [|exact Hlo].
        rewrite bpow_add, <- bpow_IZR by lia. apply Z2R_le. exact Hdlo. }
      replace e1 with (-23 + (d - 1 + e)) by (subst e1; unfold fexp32; lia).
      rewrite bpow_add. nra. }
  assert (Z2R (m1 + 1) e1 - Z2R m1 e1 = bpow e1)%R as Hstep.
  { unfold Z2R. rewrite plus_IZR. ring. }
  assert (forall v, v = Z2R r1 e1 -> Rabs (v - x) <= u32 * x + eta32)%R as Hfin.
  { intros v ->. apply Rle_trans with (bpow e1); [|exact Hulp].
    apply Rabs_le. destruct Hr1 as [-> | ->]; lra. }
  destruct (binary_round_aux 24 128 s m e l) as [s'|s'| |s' m2 e2]; try contradiction.
  - destruct Hres as [-> Hz]. split; [split; reflexivity|].
    exists 0%R. split; [destruct s; cbn; lra|].
    apply Hfin. rewrite Hz. unfold Z2R. lra.
  - destruct Hres as (-> & Hv & He2 & Hb). split; [split; [reflexivity|exact Hb]|].
    exists (Z2R (Z.pos m2) e2). split; [apply F2R_finite|].
    apply Hfin. rewrite <- Hv. rewrite Z2R_shift by lia. f_equal. lia.
Qed.

(** *** The error of one operation *)

Lemma bounded_inv (m : positive) (e : Z) :
  bounded 24 128 m e = true ->
  e = fexp32 (Zdigits2 (Z.pos m) + e) /\ e <= 104.
Proof.
  unfold bounded, canonical_mantissa. intros H.
  apply andb_prop in H as [H1 H2]. apply Z.eqb_eq in H1. apply Z.leb_le in H2.
  change (fexp 24 128) with fexp32 in H1. cbn [Zdigits2]. lia.
Qed.

Lemma valid32_zero (s : bool) : valid32 (S754_zero s).
Proof. split; reflexivity. Qed.

Lemma valid32_inv (s : bool) (m : positive) (e : Z) :
  valid32 (S754_finite s m e) ->
  e = fexp32 (Zdigits2 (Z.pos m) + e) /\ e <= 104.
Proof. intros [_ H]. apply bounded_inv. exact H. Qed.

Lemma Z2R_nonneg (m e : Z) : 0 <= m -> (0 <= Z2R m e)%R.
Proof.
  intros H. unfold Z2R. apply Rmult_le_pos; [apply IZR_le; lia|left; apply bpow_pos].
Qed.

Lemma Z2R_pos (m e : Z) : 0 < m -> (0 < Z2R m e)%R.
Proof.
  intros H. unfold Z2R. apply Rmult_lt_0_compat; [apply IZR_lt; lia|apply bpow_pos].
Qed.

Lemma Z2R_mul (m1 e1 m2 e2 : Z) : (Z2R m1 e1 * Z2R m2 e2)%R = Z2R (m1 * m2) (e1 + e2).
Proof. unfold Z2R. rewrite mult_IZR, bpow_add. ring. Qed.

Lemma Z2R_plus (m1 m2 e : Z) : (Z2R m1 e + Z2R m2 e)%R = Z2R (m1 + m2) e.
Proof. unfold Z2R. rewrite plus_IZR. ring. Qed.

Lemma Z2R_opp (m e : Z) : (- Z2R m e)%R = Z2R (- m) e.
Proof. unfold Z2R. rewrite opp_IZR. ring. Qed.

Lemma F2R_Z2R (s : bool) (m : positive) (e : Z) :
  F2R (S754_finite s m e) = Z2R (cond_Zopp s (Z.pos m)) e.
Proof. reflexivity. Qed.

(** [binary_round_aux] on a real [y] of the sign [s] whose magnitude lies
    between [m * 2^e] and [(m + 1) * 2^e]. *)
Lemma round_aux_signed (s : bool) (m e : Z) (l : location) (y : R) :
  0 <= m -> e <= fexp32 (Zdigits2 m + e) ->
  (Z2R m e <= Rabs y <= Z2R (m + 1) e)%R -> (Rabs y < bpow 127)%R ->
  (if s then y <= 0 else 0 <= y)%R ->
  valid32 (binary_round_aux 24 128 s m e l) /\
  (Rabs (F2R (binary_round_aux 24 128 s m e l) - y) <= u32 * Rabs y + eta32)%R.
Proof.
  intros Hm He Hy Hov Hs.
  destruct (round_aux_err s m e l (Rabs y) Hm He Hy Hov) as (Hv & v & Hf & Hb).
  split; [exact Hv|]. rewrite Hf.
  destruct s.
  - rewrite (Rabs_left1 y) in * by exact Hs.
    replace (- v - y)%R with (- (v - - y))%R by ring. rewrite Rabs_Ropp. exact Hb.
  - rewrite (Rabs_pos_eq y) in * by exact Hs. exact Hb.
Qed.

Lemma F2R_sign (s : bool) (m : positive) (e : Z) :
  (if s then F2R (S754_finite s m e) < 0 else 0 < F2R (S754_finite s m e))%R.
Proof.
  rewrite F2R_finite. pose proof (Z2R_pos (Z.pos m) e ltac:(lia)).
  destruct s; lra.
Qed.

Lemma F2R_abs (s : bool) (m : positive) (e : Z) :
  Rabs (F2R (S754_finite s m e)) = Z2R (Z.pos m) e.
Proof.
  rewrite F2R_finite. pose proof (Z2R_pos (Z.pos m) e ltac:(lia)).
  destruct s; [rewrite Rabs_Ropp|]; apply Rabs_pos_eq; lra.
Qed.

Lemma Zdigits2_mul (m1 m2 : positive) :
  Zdigits2 (Z.pos m1) + Zdigits2 (Z.pos m2) - 1 <= Zdigits2 (Z.pos (m1 * m2)).
Proof.
  destruct (Zdigits2_bounds (Z.pos m1) ltac:(lia)) as [H1 _].
  destruct (Zdigits2_bounds (Z.pos m2) ltac:(lia)) as [H2 _].
  set (d1 := Zdigits2 (Z.pos m1)) in *. set (d2 := Zdigits2 (Z.pos m2)) in *.
  assert (1 <= d1) by (subst d1; cbn; lia).
  assert (1 <= d2) by (subst d2; cbn; lia).
  assert (2 ^ (d1 + d2 - 2) <= Z.pos (m1 * m2)).
  { replace (d1 + d2 - 2) with ((d1 - 1) + (d2 - 1)) by lia.
    rewrite Z.pow_add_r, Pos2Z.inj_mul by lia.
    pose proof (pow2_pos (d1 - 1) ltac:(lia)). pose proof (pow2_pos (d2 - 1) ltac:(lia)).
    nia. }
  pose proof (Zdigits2_ge_pow (Z.pos (m1 * m2)) (d1 + d2 - 2) ltac:(lia) ltac:(assumption)).
  lia.
Qed.

Lemma err_zero (s : bool) (y : R) :
  y = 0%R -> (Rabs (F2R (S754_zero s) - y) <= u32 * Rabs y + eta32)%R.
Proof.
  intros ->. cbn [F2R]. replace (0 - 0)%R with 0%R by ring. rewrite Rabs_R0.
  pose proof (bpow_pos (-149)). unfold eta32. lra.
Qed.

(** One multiplication: the product of two floats, rounded. *)
Lemma mul_err (a b : F32.t) :
  valid32 a -> valid32 b ->
  (Rabs (F2R a * F2R b) < bpow 127)%R ->
  valid32 (F32.mul a b) /\
  (Rabs (F2R (F32.mul a b) - F2R a * F2R b) <= u32 * Rabs (F2R a * F2R b) + eta32)%R.
Proof.
  intros Ha Hb Hov.
  destruct a as [sa|sa| |sa ma ea]; try (destruct Ha as [Ha _]; discriminate);
    destruct b as [sb|sb| |sb mb eb]; try (destruct Hb as [Hb _]; discriminate).
  - split; [apply valid32_zero|]. apply err_zero. cbn [F2R]. ring.
  - split; [apply valid32_zero|]. apply err_zero. cbn [F2R]. ring.
  - split; [apply valid32_zero|]. apply err_zero. cbn [F2R]. ring.
  - apply valid32_inv in Ha as [Hea _]. apply valid32_inv in Hb as [Heb _].
    unfold F32.mul, SFmul.
    apply round_aux_signed.
    + lia.
    + pose proof (Zdigits2_mul ma mb).
      assert (1 <= Zdigits2 (Z.pos ma)) by (cbn; lia).
      assert (1 <= Zdigits2 (Z.pos mb)) by (cbn; lia).
      unfold fexp32 in *. lia.
    + rewrite Rabs_mult, !F2R_abs, Z2R_mul. rewrite Pos2Z.inj_mul.
      split; [lra|]. apply Z2R_le. lia.
    + exact Hov.
    + pose proof (F2R_sign sa ma ea). pose proof (F2R_sign sb mb eb).
      destruct sa, sb; cbn [xorb]; nra.
Qed.

(** [shl_align] lowers the exponent to [e'] when it is above, shifting the
    mantissa left. *)
Lemma shl_align_spec (m : positive) (e e' : Z) :
  exists mz ez, shl_align m e e' = (mz, ez) /\
                ez = Z.min e e' /\ Z.pos mz = Z.pos m * 2 ^ (e - ez).
Proof.
  unfold shl_align. destruct (e' - e) as [|d|d] eqn:E.
  - exists m, e. split; [reflexivity|]. split; [lia|].
    replace (e - e) with 0 by lia. lia.
  - exists m, e. split; [reflexivity|]. split; [lia|].
    replace (e - e) with 0 by lia. lia.
  - exists (Pos.iter xO m d), e'. split; [reflexivity|]. split; [lia|].
    rewrite Pos_iter_shl, Zpos_shl, positive_nat_Z. f_equal. f_equal. lia.
Qed.

Lemma Zdigits2_shift (m k : Z) :
  0 < m -> 0 <= k -> Zdigits2 (m * 2 ^ k) = Zdigits2 m + k.
Proof.
  intros Hm Hk. destruct (Zdigits2_bounds m Hm) as [Hlo Hhi].
  assert (1 <= Zdigits2 m) by (destruct m; try lia; cbn; lia).
  pose proof (pow2_pos k Hk).
  apply Zdigits2_unique; [lia|].
  replace (Zdigits2 m + k - 1) with (Zdigits2 m - 1 + k) by lia.
  rewrite !Z.pow_add_r by lia. nia.
Qed.

(** [binary_round] on a real of sign [s] and magnitude [m * 2^e]. *)
Lemma binary_round_err (s : bool) (m : positive) (e : Z) (y : R) :
  Rabs y = Z2R (Z.pos m) e -> (Rabs y < bpow 127)%R ->
  (if s then y <= 0 else 0 <= y)%R ->
  valid32 (binary_round 24 128 s m e) /\
  (Rabs (F2R (binary_round 24 128 s m e) - y) <= u32 * Rabs y + eta32)%R.
Proof.
  intros Hy Hov Hs. unfold binary_round. change (fexp 24 128) with fexp32.
  destruct (shl_align_spec m e (fexp32 (Z.pos (digits2_pos m) + e)))
    as (mz & ez & -> & Hez & Hmz).
  assert (0 <= e - ez) as Hk by lia.
  apply round_aux_signed; try assumption.
  - lia.
  - rewrite Hmz, Zdigits2_shift by lia. cbn [Zdigits2].
    replace (Z.pos (digits2_pos m) + (e - ez) + ez) with (Z.pos (digits2_pos m) + e) by lia.
    lia.
  - assert (Z2R (Z.pos m * 2 ^ (e - ez)) ez = Z2R (Z.pos m) e) as E1.
    { rewrite Z2R_shift by exact Hk. f_equal. lia. }
    rewrite Hy, Hmz. split; [rewrite E1; lra|].
    rewrite <- E1. apply Z2R_le. lia.
Qed.

(** [binary_normalize] on the integer [m] at exponent [e]. *)
Lemma binary_normalize_err (m e : Z) (szero : bool) :
  (Rabs (Z2R m e) < bpow 127)%R ->
  valid32 (binary_normalize 24 128 m e szero) /\
  (Rabs (F2R (binary_normalize 24 128 m e szero) - Z2R m e)
   <= u32 * Rabs (Z2R m e) + eta32)%R.
Proof.
  intros Hov. destruct m as [|p|p]; cbn [binary_normalize].
  - split; [apply valid32_zero|]. apply err_zero. unfold Z2R. lra.
  - pose proof (Z2R_pos (Z.pos p) e ltac:(lia)).
    apply binary_round_err; [apply Rabs_pos_eq; lra|exact Hov|lra].
  - pose proof (Z2R_pos (Z.pos p) e ltac:(lia)) as Hp.
    assert (Z2R (Z.neg p) e = - Z2R (Z.pos p) e)%R as Hn.
    { rewrite Z2R_opp. reflexivity. }
    apply binary_round_err; [|exact Hov|lra].
    rewrite Hn, Rabs_Ropp. apply Rabs_pos_eq. lra.
Qed.

Lemma shl_align_fst (m : positive) (e ez : Z) :
  ez <= e -> Z2R (Z.pos (fst (shl_align m e ez))) ez = Z2R (Z.pos m) e.
Proof.
  intros H. destruct (shl_align_spec m e ez) as (mz & ez' & E & Hez & Hmz).
  rewrite E. cbn [fst]. rewrite Hmz. replace ez' with ez by lia.
  rewrite Z2R_shift by lia. f_equal. lia.
Qed.

Lemma F2R_aligned (s : bool) (m : positive) (e ez : Z) :
  ez <= e ->
  Z2R (cond_Zopp s (Z.pos (fst (shl_align m e ez)))) ez = F2R (S754_finite s m e).
Proof.
  intros H. rewrite F2R_finite. destruct s; cbn [cond_Zopp].
  - rewrite <- Z2R_opp, shl_align_fst by exact H. reflexivity.
  - apply shl_align_fst. exact H.
Qed.

(** One addition. *)
Lemma add_err (a b : F32.t) :
  valid32 a -> valid32 b ->
  (Rabs (F2R a + F2R b) < bpow 127)%R ->
  valid32 (F32.add a b) /\
  (Rabs (F2R (F32.add a b) - (F2R a + F2R b)) <= u32 * Rabs (F2R a + F2R b) + eta32)%R.
Proof.
  intros Ha Hb Hov.
  assert (forall x y : R, x = y -> Rabs (x - y) <= u32 * Rabs y + eta32)%R as Hexact.
  { intros x y ->. replace (y - y)%R with 0%R by ring. rewrite Rabs_R0.
    pose proof (bpow_pos (-23)). pose proof (bpow_pos (-149)).
    pose proof (Rabs_pos y). unfold u32, eta32. nra. }
  destruct a as [sa|sa| |sa ma ea]; try (destruct Ha as [Ha _]; discriminate);
    destruct b as [sb|sb| |sb mb eb]; try (destruct Hb as [Hb _]; discriminate).
  - split.
    + destruct sa, sb; apply valid32_zero.
    + apply Hexact. destruct sa, sb; cbn; ring.
  - split; [exact Hb|]. apply Hexact. cbn [F32.add SFadd]. cbn [F2R]. ring.
  - split; [exact Ha|]. apply Hexact. cbn [F32.add SFadd]. cbn [F2R]. ring.
  - unfold F32.add, SFadd. cbv zeta.
    set (ez := Z.min ea eb).
    assert (Z2R (cond_Zopp sa (Z.pos (fst (shl_align ma ea ez)))
                 + cond_Zopp sb (Z.pos (fst (shl_align mb eb ez)))) ez
            = F2R (S754_finite sa ma ea) + F2R (S754_finite sb mb eb))%R as Hsum.
    { rewrite <- Z2R_plus, !F2R_aligned by (subst ez; lia). reflexivity. }
    rewrite <- Hsum in *. apply binary_normalize_err. exact Hov.
Qed.

(** One subtraction. *)
Lemma sub_err (a b : F32.t) :
  valid32 a -> valid32 b ->
  (Rabs (F2R a - F2R b) < bpow 127)%R ->
  valid32 (F32.sub a b) /\
  (Rabs (F2R (F32.sub a b) - (F2R a - F2R b)) <= u32 * Rabs (F2R a - F2R b) + eta32)%R.
Proof.
  intros Ha Hb Hov.
  assert (forall x y : R, x = y -> Rabs (x - y) <= u32 * Rabs y + eta32)%R as Hexact.
  { intros x y ->. replace (y - y)%R with 0%R by ring. rewrite Rabs_R0.
    pose proof (bpow_pos (-23)). pose proof (bpow_pos (-149)).
    pose proof (Rabs_pos y). unfold u32, eta32. nra. }
  destruct a as [sa|sa| |sa ma ea]; try (destruct Ha as [Ha _]; discriminate);
    destruct b as [sb|sb| |sb mb eb]; try (destruct Hb as [Hb _]; discriminate).
  - split.
    + destruct sa, sb; apply valid32_zero.
    + apply Hexact. destruct sa, sb; cbn; ring.
  - split.
    + destruct Hb as [_ Hb]. split; [reflexivity|exact Hb].
    + apply Hexact. cbn [F32.sub SFsub]. rewrite !F2R_finite. cbn [F2R].
      destruct sb; cbn [negb]; ring.
  - split; [exact Ha|]. apply Hexact. cbn [F32.sub SFsub]. cbn [F2R]. ring.
  - unfold F32.sub, SFsub. cbv zeta.
    set (ez := Z.min ea eb).
    assert (Z2R (cond_Zopp sa (Z.pos (fst (shl_align ma ea ez)))
                 - cond_Zopp sb (Z.pos (fst (shl_align mb eb ez)))) ez
            = F2R (S754_finite sa ma ea) - F2R (S754_finite sb mb eb))%R as Hsum.
    { unfold Z.sub. rewrite <- Z2R_plus, <- Z2R_opp, !F2R_aligned by (subst ez; lia).
      reflexivity. }
    rewrite <- Hsum in *. apply binary_normalize_err. exact Hov.
Qed.

(** The conversion [double -> float] of a finite double. *)
Lemma double_to_float_err (x : F64.t) :
  F32.is_finite x = true ->
  (Rabs (F2R x) < bpow 127)%R ->
  valid32 (double_to_float x) /\
  (Rabs (F2R (double_to_float x) - F2R x) <= u32 * Rabs (F2R x) + eta32)%R.
Proof.
  intros Hfin Hov. destruct x as [s| | |s m e]; try discriminate.
  - split; [apply valid32_zero|]. apply err_zero. reflexivity.
  - unfold double_to_float. change F32.prec with 24. change F32.emax with 128.
    rewrite F2R_Z2R in *. apply binary_normalize_err. exact Hov.
Qed.

Lemma fexp32_mono (a b : Z) : a <= b -> fexp32 a <= fexp32 b.
Proof. unfold fexp32. lia. Qed.

Lemma Zdigits2_pos_ge_1 (m : Z) : 0 < m -> 1 <= Zdigits2 m.
Proof. destruct m; try lia. cbn. lia. Qed.

(** The quotient [SFdiv_core_binary] hands to the rounding: an integer
    mantissa [q] at an exponent that keeps enough digits, with the real
    quotient between [q] and [q + 1] units. *)
Lemma div_core_spec (m1 m2 : positive) (e1 e2 : Z) :
  exists q e' l,
    SFdiv_core_binary 24 128 (Z.pos m1) e1 (Z.pos m2) e2 = (q, e', l) /\
    0 <= q /\ e' <= fexp32 (Zdigits2 q + e') /\
    (Z2R q e' <= Z2R (Z.pos m1) e1 / Z2R (Z.pos m2) e2 <= Z2R (q + 1) e')%R.
Proof.
  unfold SFdiv_core_binary. change (fexp 24 128) with fexp32.
  set (d1 := Zdigits2 (Z.pos m1)). set (d2 := Zdigits2 (Z.pos m2)).
  set (e' := Z.min (fexp32 (d1 + e1 - (d2 + e2))) (e1 - e2)).
  set (s := e1 - e2 - e'). assert (0 <= s) as Hs by (subst s e'; lia).
  set (m' := match s with Z.pos _ => Z.shiftl (Z.pos m1) s | 0 => Z.pos m1 | Z.neg _ => 0 end).
  assert (m' = Z.pos m1 * 2 ^ s) as Hm'.
  { subst m'. destruct s as [|p|p]; [cbn; lia| |lia].
    rewrite Z.shiftl_mul_pow2 by lia. reflexivity. }
  pose proof (Z_div_mod m' (Z.pos m2) ltac:(lia)) as Hdiv.
  destruct (Z.div_eucl m' (Z.pos m2)) as [q r]. destruct Hdiv as [Hq Hr].
  pose proof (pow2_pos s Hs) as Hps.
  assert (0 <= q) as Hq0 by nia.
  exists q, e', (new_location (Z.pos m2) r). split; [reflexivity|].
  split; [exact Hq0|]. split.
  - destruct (Z.le_gt_cases e' (-149)) as [Hsub|Hnorm]; [unfold fexp32; lia|].
    destruct (Zdigits2_bounds (Z.pos m1) ltac:(lia)) as [H1lo _].
    destruct (Zdigits2_bounds (Z.pos m2) ltac:(lia)) as [_ H2hi].
    fold d1 in H1lo. fold d2 in H2hi.
    pose proof (Zdigits2_pos_ge_1 (Z.pos m1) ltac:(lia)) as Hd1. fold d1 in Hd1.
    pose proof (Zdigits2_pos_ge_1 (Z.pos m2) ltac:(lia)) as Hd2. fold d2 in Hd2.
    set (k := d1 - 1 + s - d2).
    assert (0 <= k) as Hk.
    { subst k s e'. unfold fexp32 in *. lia. }
    assert (2 ^ k <= q) as Hqk.
    { destruct (Z.le_gt_cases (2 ^ k) q) as [|Hlt]; [assumption|exfalso].
      assert (2 ^ (d1 - 1) * 2 ^ s = 2 ^ k * 2 ^ d2) as Hpw.
      { rewrite <- !Z.pow_add_r by lia. f_equal. subst k. lia. }
      pose proof (pow2_pos k Hk). pose proof (pow2_pos (d1 - 1) ltac:(lia)).
      pose proof (pow2_pos d2 ltac:(lia)). nia. }
    pose proof (Zdigits2_ge_pow q k Hk Hqk) as Hdq.
    apply Z.le_trans with (fexp32 (d1 + e1 - (d2 + e2))); [subst e'; lia|].
    apply fexp32_mono. subst k s. lia.
  - assert (Z2R (Z.pos m1) e1 = Z2R m' e' * bpow e2)%R as Hx.
    { rewrite Hm'. unfold Z2R. rewrite mult_IZR, bpow_IZR by exact Hs.
      replace e1 with (s + e' + e2) at 1 by (subst s; lia). rewrite !bpow_add. ring. }
    pose proof (bpow_pos e2) as Hb2. pose proof (bpow_pos e') as Hbe.
    assert (0 < IZR (Z.pos m2))%R as Hm2 by (apply IZR_lt; lia).
    rewrite Hx. unfold Z2R.
    replace (IZR m' * bpow e' * bpow e2 / (IZR (Z.pos m2) * bpow e2))%R
      with (IZR m' / IZR (Z.pos m2) * bpow e')%R by (field; lra).
    assert (IZR q <= IZR m' / IZR (Z.pos m2) <= IZR (q + 1))%R as [Hlo Hhi].
    { assert (IZR m' / IZR (Z.pos m2) * IZR (Z.pos m2) = IZR m')%R as Ht by (field; lra).
      assert (IZR q * IZR (Z.pos m2) <= IZR m')%R as H1
        by (rewrite <- mult_IZR; apply IZR_le; lia).
      assert (IZR m' <= IZR (q + 1) * IZR (Z.pos m2))%R as H2
        by (rewrite <- mult_IZR; apply IZR_le; nia).
      set (t := (IZR m' / IZR (Z.pos m2))%R) in *. split; nra. }
    split; apply Rmult_le_compat_r; lra.
Qed.

(** One division by a float that is not zero. *)
Lemma div_err (a b : F32.t) :
  valid32 a -> valid32 b -> F2R b <> 0%R ->
  (Rabs (F2R a / F2R b) < bpow 127)%R ->
  valid32 (F32.div a b) /\
  (Rabs (F2R (F32.div a b) - F2R a / F2R b) <= u32 * Rabs (F2R a / F2R b) + eta32)%R.
Proof.
  intros Ha Hb Hnz Hov.
  destruct a as [sa|sa| |sa ma ea]; try (destruct Ha as [Ha _]; discriminate);
    destruct b as [sb|sb| |sb mb eb]; try (destruct Hb as [Hb _]; discriminate);
    try (exfalso; apply Hnz; reflexivity).
  - split; [apply valid32_zero|]. apply err_zero. cbn [F2R]. unfold Rdiv. ring.
  - unfold F32.div, SFdiv. change F32.prec with 24. change F32.emax with 128.
    destruct (div_core_spec ma mb ea eb) as (q & e' & l & -> & Hq & He' & Hx).
    assert (Rabs (F2R (S754_finite sa ma ea) / F2R (S754_finite sb mb eb))
            = Z2R (Z.pos ma) ea / Z2R (Z.pos mb) eb)%R as Habs.
    { unfold Rdiv. rewrite Rabs_mult, Rabs_inv, !F2R_abs. reflexivity. }
    apply round_aux_signed; try assumption.
    + rewrite Habs. exact Hx.
    + pose proof (F2R_sign sa ma ea) as H1. pose proof (F2R_sign sb mb eb) as H2.
      set (x := F2R (S754_finite sa ma ea)) in *.
      set (y := F2R (S754_finite sb mb eb)) in *.
      assert (x / y * y = x)%R as Ht by (field; exact Hnz).
      set (t := (x / y)%R) in *.
      destruct sa, sb; cbn [xorb]; nra.
Qed.

Lemma sqrt_between (a b x : R) :
  (0 <= a)%R -> (0 <= b)%R -> (a * a <= x <= b * b)%R -> (a <= sqrt x <= b)%R.
Proof.
  intros Ha Hb [Hlo Hhi]. split.
  - rewrite <- (sqrt_square a) by exact Ha. apply sqrt_le_1_alt. exact Hlo.
  - rewrite <- (sqrt_square b) by exact Hb. apply sqrt_le_1_alt. exact Hhi.
Qed.

(** The root [SFsqrt_core_binary] hands to the rounding. *)
Lemma sqrt_core_spec (m : positive) (e : Z) :
  exists q e' l,
    SFsqrt_core_binary 24 128 (Z.pos m) e = (q, e', l) /\
    0 <= q /\ e' <= fexp32 (Zdigits2 q + e') /\
    (Z2R q e' <= sqrt (Z2R (Z.pos m) e) <= Z2R (q + 1) e')%R.
Proof.
  unfold SFsqrt_core_binary. change (fexp 24 128) with fexp32.
  set (d := Zdigits2 (Z.pos m)).
  rewrite !Z.div2_div.
  set (e' := Z.min (fexp32 ((d + e + 1) / 2)) (e / 2)).
  set (s := e - 2 * e').
  assert (0 <= s) as Hs.
  { subst s e'. pose proof (Z.div_mod e 2 ltac:(lia)).
    pose proof (Z.mod_pos_bound e 2 ltac:(lia)). lia. }
  set (m' := match s with Z.pos _ => Z.shiftl (Z.pos m) s | 0 => Z.pos m | Z.neg _ => 0 end).
  assert (m' = Z.pos m * 2 ^ s) as Hm'.
  { subst m'. destruct s as [|p|p]; [cbn; lia| |lia].
    rewrite Z.shiftl_mul_pow2 by lia. reflexivity. }
  pose proof (pow2_pos s Hs) as Hps.
  pose proof (Z.sqrtrem_spec m' ltac:(lia)) as Hsq.
  destruct (Z.sqrtrem m') as [q r]. destruct Hsq as [Hq Hr].
  assert (0 <= q) as Hq0 by lia.
  eexists q, e', _. split; [reflexivity|]. split; [exact Hq0|]. split.
  - pose proof (Zdigits2_pos_ge_1 (Z.pos m) ltac:(lia)) as Hd1. fold d in Hd1.
    destruct (Zdigits2_bounds (Z.pos m) ltac:(lia)) as [Hlo _]. fold d in Hlo.
    set (j := (d - 1 + s) / 2).
    assert (0 <= j) as Hj by (subst j; apply Z.div_pos; lia).
    assert (2 * j <= d - 1 + s) as Hj2.
    { subst j. pose proof (Z.div_mod (d - 1 + s) 2 ltac:(lia)).
      pose proof (Z.mod_pos_bound (d - 1 + s) 2 ltac:(lia)). lia. }
    assert (2 ^ j <= q) as Hqj.
    { destruct (Z.le_gt_cases (2 ^ j) q) as [|Hlt]; [assumption|exfalso].
      assert (2 ^ j * 2 ^ j <= 2 ^ (d - 1) * 2 ^ s) as Hpw.
      { rewrite <- !Z.pow_add_r by lia. apply Z.pow_le_mono_r; lia. }
      pose proof (pow2_pos j Hj). pose proof (pow2_pos (d - 1) ltac:(lia)). nia. }
    pose proof (Zdigits2_ge_pow q j Hj Hqj) as Hdq.
    apply Z.le_trans with (fexp32 ((d + e + 1) / 2)); [subst e'; lia|].
    apply fexp32_mono.
    assert ((d + e + 1) / 2 = j + 1 + e') as ->; [|lia].
    subst j. replace (d + e + 1) with (d - 1 + s + (1 + e') * 2) by (subst s; lia).
    rewrite Z.div_add by lia. lia.
  - assert (Z2R (Z.pos m) e = IZR m' * (bpow e' * bpow e'))%R as Hx.
    { rewrite Hm'. unfold Z2R. rewrite mult_IZR, bpow_IZR by exact Hs.
      replace e with (s + (e' + e')) at 1 by (subst s; lia). rewrite !bpow_add. ring. }
    pose proof (bpow_pos e') as Hbe.
    rewrite Hx. apply sqrt_between.
    + apply Z2R_nonneg. exact Hq0.
    + apply Z2R_nonneg. lia.
    + unfold Z2R.
      assert (IZR q * IZR q <= IZR m')%R as H1 by (rewrite <- mult_IZR; apply IZR_le; lia).
      assert (IZR m' <= IZR (q + 1) * IZR (q + 1))%R as H2
        by (rewrite <- mult_IZR; apply IZR_le; nia).
      assert (0 < bpow e' * bpow e')%R as Hbb by (apply Rmult_lt_0_compat; exact Hbe).
      split.
      * replace (IZR q * bpow e' * (IZR q * bpow e'))%R
          with (IZR q * IZR q * (bpow e' * bpow e'))%R by ring.
        apply Rmult_le_compat_r; lra.
      * replace (IZR (q + 1) * bpow e' * (IZR (q + 1) * bpow e'))%R
          with (IZR (q + 1) * IZR (q + 1) * (bpow e' * bpow e'))%R by ring.
        apply Rmult_le_compat_r; lra.
Qed.

(** One square root of a float that is not negative. *)
Lemma sqrt_err (a : F32.t) :
  valid32 a -> (0 <= F2R a)%R -> (sqrt (F2R a) < bpow 127)%R ->
  valid32 (F32.sqrt a) /\
  (Rabs (F2R (F32.sqrt a) - sqrt (F2R a)) <= u32 * sqrt (F2R a) + eta32)%R.
Proof.
  intros Ha Hpos Hov.
  destruct a as [sa|sa| |sa ma ea]; try (destruct Ha as [Ha _]; discriminate).
  - split; [apply valid32_zero|]. cbn [F32.sqrt SFsqrt F2R]. rewrite sqrt_0.
    replace (0 - 0)%R with 0%R by ring. rewrite Rabs_R0.
    pose proof (bpow_pos (-149)). unfold eta32. lra.
  - pose proof (F2R_sign sa ma ea) as Hsgn.
    destruct sa; [lra|].
    unfold F32.sqrt, SFsqrt. change F32.prec with 24. change F32.emax with 128.
    destruct (sqrt_core_spec ma ea) as (q & e' & l & -> & Hq & He' & Hx).
    rewrite F2R_finite in *.
    pose proof (sqrt_pos (Z2R (Z.pos ma) ea)) as Hsp.
    rewrite <- (Rabs_pos_eq (sqrt (Z2R (Z.pos ma) ea))) at 2 by exact Hsp.
    apply round_aux_signed; try assumption.
    + rewrite Rabs_pos_eq by exact Hsp. exact Hx.
    + rewrite Rabs_pos_eq by exact Hsp. exact Hov.
Qed.

(** The test [0 < z] of [normalize]. *)
Lemma ltb_zero (z : F32.t) :
  valid32 z -> F32.ltb (F32.of_Z 0) z = true <-> (0 < F2R z)%R.
Proof.
  intros Hz. destruct z as [s|s| |s m e]; try (destruct Hz as [Hz _]; discriminate).
  - cbn. split; [discriminate|lra].
  - pose proof (F2R_sign s m e) as Hs. destruct s; cbn [F32.ltb F32.of_Z].
    + split; [discriminate|lra].
    + split; [intros _; exact Hs|reflexivity].
Qed.

Local Open Scope R_scope.

(** *** Errors through a computation *)

Lemma Rabs_le_inv (a b : R) : Rabs a <= b -> - b <= a <= b.
Proof. unfold Rabs. destruct (Rcase_abs a); lra. Qed.

Lemma u32_val : u32 = / 8388608.
Proof.
  unfold u32, bpow. change (powerRZ 2 (-23)) with (/ 2 ^ 23).
  f_equal. rewrite pow_IZR. apply IZR_eq. reflexivity.
Qed.

Lemma u32_pos : 0 < u32.
Proof. apply bpow_pos. Qed.

Lemma eta32_pos : 0 < eta32.
Proof. apply bpow_pos. Qed.

Lemma eta32_le : eta32 <= / 1267650600228229401496703205376.
Proof.
  apply Rle_trans with (bpow (-100)); [apply bpow_le; lia|].
  unfold bpow. change (powerRZ 2 (-100)) with (/ 2 ^ 100).
  right. f_equal. rewrite pow_IZR. apply IZR_eq. reflexivity.
Qed.

Lemma bpow_127_big : 1000 < bpow 127.
Proof.
  apply Rlt_le_trans with (bpow 10); [|apply bpow_le; lia].
  rewrite <- bpow_IZR by lia. apply IZR_lt. reflexivity.
Qed.

Lemma approx_value (f : F32.t) (X E M : R) :
  approx f X E M -> Rabs (F2R f) <= M + E.
Proof.
  intros (_ & H1 & H2). apply Rabs_le_inv in H1. apply Rabs_le_inv in H2.
  apply Rabs_le. lra.
Qed.

Lemma approx_weaken (f : F32.t) (X E M E' M' : R) :
  approx f X E M -> E <= E' -> M <= M' -> approx f X E' M'.
Proof. intros (Hv & H1 & H2) HE HM. split; [exact Hv|split; lra]. Qed.

Lemma approx_ideal (f : F32.t) (X X' E M : R) :
  approx f X E M -> X = X' -> approx f X' E M.
Proof. intros H <-. exact H. Qed.

Lemma Rabs_mult_le (a b Ma Mb : R) :
  Rabs a <= Ma -> Rabs b <= Mb -> Rabs (a * b) <= Ma * Mb.
Proof.
  intros Ha Hb. rewrite Rabs_mult.
  apply Rmult_le_compat; try apply Rabs_pos; assumption.
Qed.

(** The error of a product, from the errors of the factors. *)
Lemma approx_mul (a b : F32.t) (A B Ea Ma Eb Mb : R) :
  approx a A Ea Ma -> approx b B Eb Mb ->
  (Ma + Ea) * (Mb + Eb) <= 1000 ->
  approx (F32.mul a b) (A * B)
         ((Ma + Ea) * Eb + Mb * Ea + u32 * ((Ma + Ea) * (Mb + Eb)) + eta32)
         (Ma * Mb).
Proof.
  intros Ha Hb Hov.
  pose proof (approx_value _ _ _ _ Ha) as Hva.
  pose proof (approx_value _ _ _ _ Hb) as Hvb.
  destruct Ha as (Hfa & Ha1 & Ha2). destruct Hb as (Hfb & Hb1 & Hb2).
  pose proof (Rabs_mult_le _ _ _ _ Hva Hvb) as Hp.
  destruct (mul_err a b Hfa Hfb) as [Hv He].
  { pose proof bpow_127_big. lra. }
  split; [exact Hv|]. split; [|apply Rabs_mult_le; assumption].
  assert (Rabs (F2R a * F2R b - A * B) <= (Ma + Ea) * Eb + Mb * Ea) as Hd.
  { replace (F2R a * F2R b - A * B) with (F2R a * (F2R b - B) + B * (F2R a - A)) by ring.
    eapply Rle_trans; [apply Rabs_triang|].
    apply Rplus_le_compat; apply Rabs_mult_le; assumption. }
  replace (F2R (F32.mul a b) - A * B)
    with ((F2R (F32.mul a b) - F2R a * F2R b) + (F2R a * F2R b - A * B)) by ring.
  eapply Rle_trans; [apply Rabs_triang|].
  pose proof u32_pos.
  assert (u32 * Rabs (F2R a * F2R b) <= u32 * ((Ma + Ea) * (Mb + Eb)))
    by (apply Rmult_le_compat_l; lra).
  lra.
Qed.

(** The error of a sum. *)
Lemma approx_add (a b : F32.t) (A B Ea Ma Eb Mb : R) :
  approx a A Ea Ma -> approx b B Eb Mb ->
  Ma + Ea + (Mb + Eb) <= 1000 ->
  approx (F32.add a b) (A + B)
         (Ea + Eb + u32 * (Ma + Ea + (Mb + Eb)) + eta32)
         (Ma + Mb).
Proof.
  intros Ha Hb Hov.
  pose proof (approx_value _ _ _ _ Ha) as Hva.
  pose proof (approx_value _ _ _ _ Hb) as Hvb.
  destruct Ha as (Hfa & Ha1 & Ha2). destruct Hb as (Hfb & Hb1 & Hb2).
  assert (Rabs (F2R a + F2R b) <= Ma + Ea + (Mb + Eb)) as Hp.
  { eapply Rle_trans; [apply Rabs_triang|]. lra. }
  destruct (add_err a b Hfa Hfb) as [Hv He].
  { pose proof bpow_127_big. lra. }
  split; [exact Hv|]. split.
  - assert (Rabs (F2R a + F2R b - (A + B)) <= Ea + Eb) as Hd.
    { replace (F2R a + F2R b - (A + B)) with ((F2R a - A) + (F2R b - B)) by ring.
      eapply Rle_trans; [apply Rabs_triang|]. lra. }
    replace (F2R (F32.add a b) - (A + B))
      with ((F2R (F32.add a b) - (F2R a + F2R b)) + (F2R a + F2R b - (A + B))) by ring.
    eapply Rle_trans; [apply Rabs_triang|].
    pose proof u32_pos.
    assert (u32 * Rabs (F2R a + F2R b) <= u32 * (Ma + Ea + (Mb + Eb)))
      by (apply Rmult_le_compat_l; lra).
    lra.
  - eapply Rle_trans; [apply Rabs_triang|]. lra.
Qed.

(** The error of a difference. *)
Lemma approx_sub (a b : F32.t) (A B Ea Ma Eb Mb : R) :
  approx a A Ea Ma -> approx b B Eb Mb ->
  Ma + Ea + (Mb + Eb) <= 1000 ->
  approx (F32.sub a b) (A - B)
         (Ea + Eb + u32 * (Ma + Ea + (Mb + Eb)) + eta32)
         (Ma + Mb).
Proof.
  intros Ha Hb Hov.
  pose proof (approx_value _ _ _ _ Ha) as Hva.
  pose proof (approx_value _ _ _ _ Hb) as Hvb.
  destruct Ha as (Hfa & Ha1 & Ha2). destruct Hb as (Hfb & Hb1 & Hb2).
  assert (Rabs (F2R a - F2R b) <= Ma + Ea + (Mb + Eb)) as Hp.
  { unfold Rminus. eapply Rle_trans; [apply Rabs_triang|]. rewrite Rabs_Ropp. lra. }
  destruct (sub_err a b Hfa Hfb) as [Hv He].
  { pose proof bpow_127_big. lra. }
  split; [exact Hv|]. split.
  - assert (Rabs (F2R a - F2R b - (A - B)) <= Ea + Eb) as Hd.
    { replace (F2R a - F2R b - (A - B)) with ((F2R a - A) + - (F2R b - B)) by ring.
      eapply Rle_trans; [apply Rabs_triang|]. rewrite Rabs_Ropp. lra. }
    replace (F2R (F32.sub a b) - (A - B))
      with ((F2R (F32.sub a b) - (F2R a - F2R b)) + (F2R a - F2R b - (A - B))) by ring.
    eapply Rle_trans; [apply Rabs_triang|].
    pose proof u32_pos.
    assert (u32 * Rabs (F2R a - F2R b) <= u32 * (Ma + Ea + (Mb + Eb)))
      by (apply Rmult_le_compat_l; lra).
    lra.
  - unfold Rminus. eapply Rle_trans; [apply Rabs_triang|]. rewrite Rabs_Ropp. lra.
Qed.

(** The conversion of a finite double of magnitude at most [M]. *)
Lemma approx_double_to_float (x : F64.t) (M : R) :
  F32.is_finite x = true -> Rabs (F2R x) <= M -> M <= 1000 ->
  approx (double_to_float x) (F2R x) (u32 * M + eta32) M.
Proof.
  intros Hfin HM Hov.
  destruct (double_to_float_err x Hfin) as [Hv He].
  { pose proof bpow_127_big. lra. }
  split; [exact Hv|]. split; [|exact HM].
  pose proof u32_pos.
  assert (u32 * Rabs (F2R x) <= u32 * M) by (apply Rmult_le_compat_l; lra).
  lra.
Qed.

(** Closes a goal on numbers, [u32] and [eta32]. *)
Ltac numbers :=
  unfold Emul, Eadd; rewrite ?u32_val;
  pose proof eta32_pos; pose proof eta32_le; lra.

Lemma approx3_weaken (v : Eigen.Vector3 F32.t) (V1 V2 V3 E M E' M' : R) :
  approx3 v V1 V2 V3 E M -> E <= E' -> M <= M' -> approx3 v V1 V2 V3 E' M'.
Proof.
  intros (H1 & H2 & H3) HE HM.
  split; [|split]; eapply approx_weaken; eassumption.
Qed.

Lemma approx3_cross (a b : Eigen.Vector3 F32.t) (A1 A2 A3 B1 B2 B3 Ea Ma Eb Mb : R) :
  approx3 a A1 A2 A3 Ea Ma -> approx3 b B1 B2 B3 Eb Mb ->
  (Ma + Ea) * (Mb + Eb) <= 1000 ->
  Ma * Mb + Emul Ea Ma Eb Mb + (Ma * Mb + Emul Ea Ma Eb Mb) <= 1000 ->
  approx3 (Eigen.cross a b)
          (A2 * B3 - A3 * B2) (A3 * B1 - A1 * B3) (A1 * B2 - A2 * B1)
          (Eadd (Emul Ea Ma Eb Mb) (Ma * Mb) (Emul Ea Ma Eb Mb) (Ma * Mb))
          (Ma * Mb + Ma * Mb).
Proof.
  intros (Ha1 & Ha2 & Ha3) (Hb1 & Hb2 & Hb3) Hm Hs.
  unfold Eigen.cross; cbn [Eigen.x Eigen.y Eigen.z s_sub s_mul F32_scalar].
  split; [|split]; apply approx_sub; try apply approx_mul; assumption.
Qed.

Lemma approx3_plus (a b : Eigen.Vector3 F32.t) (A1 A2 A3 B1 B2 B3 Ea Ma Eb Mb : R) :
  approx3 a A1 A2 A3 Ea Ma -> approx3 b B1 B2 B3 Eb Mb ->
  Ma + Ea + (Mb + Eb) <= 1000 ->
  approx3 (Eigen.plus a b) (A1 + B1) (A2 + B2) (A3 + B3)
          (Eadd Ea Ma Eb Mb) (Ma + Mb).
Proof.
  intros (Ha1 & Ha2 & Ha3) (Hb1 & Hb2 & Hb3) Hs.
  unfold Eigen.plus; cbn [Eigen.x Eigen.y Eigen.z s_add F32_scalar].
  split; [|split]; apply approx_add; assumption.
Qed.

Lemma approx3_scale (k : F32.t) (a : Eigen.Vector3 F32.t)
      (K A1 A2 A3 Ek Mk Ea Ma : R) :
  approx k K Ek Mk -> approx3 a A1 A2 A3 Ea Ma ->
  (Mk + Ek) * (Ma + Ea) <= 1000 ->
  approx3 (Eigen.scale k a) (K * A1) (K * A2) (K * A3)
          (Emul Ek Mk Ea Ma) (Mk * Ma).
Proof.
  intros Hk (Ha1 & Ha2 & Ha3) Hm.
  unfold Eigen.scale; cbn [Eigen.x Eigen.y Eigen.z s_mul F32_scalar].
  split; [|split]; apply approx_mul; assumption.
Qed.

Lemma F2R_minus_one : F2R (F32.of_Z (-1)) = -1.
Proof.
  change (F32.of_Z (-1)) with (S754_finite true 8388608 (-23)).
  unfold F2R. cbn [cond_Zopp]. fold u32. rewrite u32_val, opp_IZR. lra.
Qed.

Lemma gravity_world_approx :
  approx3 (Eigen.mkVector3 (F32.of_Z 0) (F32.of_Z 0) (F32.of_Z (-1))) 0 0 (-1) 0 1.
Proof.
  assert (approx (F32.of_Z 0) 0 0 1) as H0.
  { change (F32.of_Z 0) with (S754_zero false).
    split; [apply valid32_zero|]. cbn [F2R].
    replace (0 - 0) with 0 by ring. rewrite Rabs_R0. lra. }
  split; [exact H0|split; [exact H0|]].
  split; [split; reflexivity|]. cbn [Eigen.z]. rewrite F2R_minus_one.
  replace (-1 - -1) with 0 by ring.
  split; [rewrite Rabs_R0; lra|apply Rabs_le; lra].
Qed.

(** Eigen's [q * v] in binary32 on [v] = (0, 0, -1), from a quaternion
    whose components are known up to one rounding: each component of the
    result is within [128 u] of what Eigen's formula gives without
    rounding. *)
Lemma transformVector_approx (fw fx fy fz : F32.t) (W X Y Z : R) :
  approx fw W (9 / 8 * u32) (33 / 32) ->
  approx fx X (9 / 8 * u32) (33 / 32) ->
  approx fy Y (9 / 8 * u32) (33 / 32) ->
  approx fz Z (9 / 8 * u32) (33 / 32) ->
  approx3 (Eigen.transformVector (Eigen.mkQuaternion fw fx fy fz)
             (Eigen.mkVector3 (F32.of_Z 0) (F32.of_Z 0) (F32.of_Z (-1))))
          (- 2 * (W * Y + X * Z)) (2 * (W * X - Y * Z)) (-1 + 2 * (X * X + Y * Y))
          (128 * u32) 14.
Proof.
  intros Hw Hx Hy Hz.
  assert (approx3 (Eigen.mkVector3 fx fy fz) X Y Z (9 / 8 * u32) (33 / 32)) as Hq
    by (split; [|split]; assumption).
  pose proof gravity_world_approx as Hg.
  unfold Eigen.transformVector. cbn [Eigen.vec Eigen.qw Eigen.qx Eigen.qy Eigen.qz].
  set (v := Eigen.mkVector3 (F32.of_Z 0) (F32.of_Z 0) (F32.of_Z (-1))) in *.
  set (q := Eigen.mkVector3 fx fy fz) in *.
  (* uv = vec.cross(v) *)
  pose proof (approx3_cross q v _ _ _ _ _ _ _ _ _ _ Hq Hg) as Hc1.
  apply (fun H => approx3_weaken _ _ _ _ _ _ (7 * u32) (33 / 16) H) in Hc1;
    [| numbers | numbers | numbers | numbers].
  set (c1 := Eigen.cross q v) in *.
  (* uv += uv *)
  pose proof (approx3_plus c1 c1 _ _ _ _ _ _ _ _ _ _ Hc1 Hc1) as Huv.
  apply (fun H => approx3_weaken _ _ _ _ _ _ (19 * u32) (33 / 8) H) in Huv;
    [| numbers | numbers | numbers].
  set (uv := Eigen.plus c1 c1) in *.
  (* w * uv *)
  pose proof (approx3_scale fw uv _ _ _ _ _ _ _ _ Hw Huv) as Hsc.
  apply (fun H => approx3_weaken _ _ _ _ _ _ (29 * u32) (1089 / 256) H) in Hsc;
    [| numbers | numbers | numbers].
  (* v + w * uv *)
  pose proof (approx3_plus v _ _ _ _ _ _ _ _ _ _ _ Hg Hsc) as Hp1.
  apply (fun H => approx3_weaken _ _ _ _ _ _ (35 * u32) (1345 / 256) H) in Hp1;
    [| numbers | numbers | numbers].
  (* vec.cross(uv) *)
  pose proof (approx3_cross q uv _ _ _ _ _ _ _ _ _ _ Hq Huv) as Hc2.
  apply (fun H => approx3_weaken _ _ _ _ _ _ (66 * u32) (1089 / 128) H) in Hc2;
    [| numbers | numbers | numbers | numbers].
  (* the sum *)
  pose proof (approx3_plus _ _ _ _ _ _ _ _ _ _ _ _ Hp1 Hc2) as Hv.
  apply (fun H => approx3_weaken _ _ _ _ _ _ (128 * u32) 14 H) in Hv;
    [| numbers | numbers | numbers].
  destruct Hv as (H1 & H2 & H3).
  split; [|split]; eapply approx_ideal; try eassumption; ring.
Qed.

(** *** Real arithmetic of the normalization *)

(** One rounded operation, as an interval. *)
Lemma err_interval (u eta a b B : R) :
  0 <= u -> Rabs (a - b) <= u * Rabs b + eta -> Rabs b <= B ->
  b - (u * B + eta) <= a <= b + (u * B + eta).
Proof.
  intros Hu H HB. apply Rabs_le_inv in H.
  assert (u * Rabs b <= u * B) by (apply Rmult_le_compat_l; lra). lra.
Qed.

Lemma Rabs_sqr_le (x M : R) : 0 <= M -> x * x <= M * M -> Rabs x <= M.
Proof.
  intros HM H. apply Rabs_le. split; nra.
Qed.

(** The rounded squared norm is within [4 u P + 8 eta] of the exact one. *)
Lemma sqnorm_real (c1 c2 c3 p1 p2 p3 t z : R) :
  Rabs (p1 - c1 * c1) <= u32 * Rabs (c1 * c1) + eta32 ->
  Rabs (p2 - c2 * c2) <= u32 * Rabs (c2 * c2) + eta32 ->
  Rabs (p3 - c3 * c3) <= u32 * Rabs (c3 * c3) + eta32 ->
  Rabs (t - (p2 + p3)) <= u32 * Rabs (p2 + p3) + eta32 ->
  Rabs (z - (p1 + t)) <= u32 * Rabs (p1 + t) + eta32 ->
  Rabs (z - (c1 * c1 + (c2 * c2 + c3 * c3)))
  <= 4 * u32 * (c1 * c1 + (c2 * c2 + c3 * c3)) + 8 * eta32.
Proof.
  intros H1 H2 H3 Ht Hz.
  pose proof (Rle_0_sqr c1) as S1. pose proof (Rle_0_sqr c2) as S2.
  pose proof (Rle_0_sqr c3) as S3. unfold Rsqr in *.
  rewrite (Rabs_pos_eq (c1 * c1)) in H1 by exact S1.
  rewrite (Rabs_pos_eq (c2 * c2)) in H2 by exact S2.
  rewrite (Rabs_pos_eq (c3 * c3)) in H3 by exact S3.
  apply Rabs_le_inv in H1. apply Rabs_le_inv in H2. apply Rabs_le_inv in H3.
  set (q1 := c1 * c1) in *. set (q2 := c2 * c2) in *. set (q3 := c3 * c3) in *.
  pose proof eta32_pos as He. pose proof eta32_le as He'.
  rewrite u32_val in *.
  assert (Rabs (p2 + p3) <= (q2 + q3) * (1 + / 8388608) + 2 * eta32) as B23
    by (apply Rabs_le; lra).
  apply (fun H => err_interval _ _ _ _ _ H Ht) in B23; [|lra].
  assert (Rabs (p1 + t)
          <= (q1 + q2 + q3) * (1 + / 8388608) * (1 + / 8388608) + 5 * eta32) as B
    by (apply Rabs_le; lra).
  apply (fun H => err_interval _ _ _ _ _ H Hz) in B; [|lra].
  apply Rabs_le. lra.
Qed.

(** The rounded root of the rounded squared norm. *)
Lemma root_real (z s r P : R) :
  0 <= s -> s * s = z -> 1 / 2 <= P <= 2 ->
  Rabs (z - P) <= 4 * u32 * P + 8 * eta32 ->
  Rabs (r - s) <= u32 * s + eta32 ->
  7 / 10 <= r <= 3 / 2 /\ Rabs (r * r - P) <= 7 * u32 * P.
Proof.
  intros Hs Hss HP Hz Hr.
  apply Rabs_le_inv in Hz. apply Rabs_le_inv in Hr.
  pose proof eta32_pos as He. pose proof eta32_le as He'.
  rewrite u32_val in *.
  assert (707 / 1000 <= s <= 142 / 100) as Hsb by (split; nra).
  set (e := r - s) in *. set (b := / 8388608 * s + eta32) in *.
  assert (0 <= b) as Hb by (subst b; lra).
  assert (r * r - z = 2 * s * e + e * e) as Hd by (subst e; rewrite <- Hss; ring).
  assert (0 <= s * (b - e)) as M1 by (apply Rmult_le_pos; lra).
  assert (0 <= s * (b + e)) as M2 by (apply Rmult_le_pos; lra).
  assert (0 <= (b - e) * (b + e)) as M3 by (apply Rmult_le_pos; lra).
  assert (b * b <= / 8388608 * (/ 8388608 * z) + 3 * eta32) as Hbb.
  { subst b. rewrite <- Hss.
    assert (eta32 * eta32 <= eta32 * / 1267650600228229401496703205376)
      by (apply Rmult_le_compat_l; lra).
    assert (s * eta32 <= 142 / 100 * eta32) by (apply Rmult_le_compat_r; lra).
    nra. }
  assert (s * b <= / 8388608 * z + 142 / 100 * eta32) as Hsb'.
  { subst b. rewrite <- Hss.
    assert (s * eta32 <= 142 / 100 * eta32) by (apply Rmult_le_compat_r; lra).
    nra. }
  assert (0 <= e * e) as Hee by nra.
  split; [split; subst e b; lra|].
  apply Rabs_le. split; nra.
Qed.

(** Squaring a number known up to one rounding. *)
Lemma sq_pert (h g : R) :
  Rabs (g - h) <= u32 * Rabs h + eta32 -> Rabs h <= 2 ->
  Rabs (g * g - h * h) <= 3 * u32 * (h * h) + 5 * eta32.
Proof.
  intros Hg Hh. apply Rabs_le_inv in Hg.
  pose proof eta32_pos as He. pose proof eta32_le as He'.
  pose proof (Rabs_pos h) as Ha.
  assert (Rabs h * Rabs h = h * h) as Haa.
  { unfold Rabs. destruct (Rcase_abs h); ring. }
  assert (- Rabs h <= h <= Rabs h) as Hhh.
  { unfold Rabs. destruct (Rcase_abs h); lra. }
  rewrite u32_val in *.
  set (a := Rabs h) in *. set (e := g - h) in *.
  set (b := / 8388608 * a + eta32) in *.
  assert (g * g - h * h = 2 * h * e + e * e) as Hd by (subst e; ring).
  assert (0 <= (a - h) * (b - e)) as M1 by (apply Rmult_le_pos; lra).
  assert (0 <= (a + h) * (b - e)) as M2 by (apply Rmult_le_pos; lra).
  assert (0 <= (a - h) * (b + e)) as M3 by (apply Rmult_le_pos; lra).
  assert (0 <= (a + h) * (b + e)) as M4 by (apply Rmult_le_pos; lra).
  assert (0 <= (b - e) * (b + e)) as M5 by (apply Rmult_le_pos; lra).
  assert (0 <= e * e) as Hee by nra.
  assert (a * eta32 <= 2 * eta32) as M6 by (apply Rmult_le_compat_r; lra).
  assert (eta32 * eta32 <= eta32 * / 1267650600228229401496703205376) as M7
    by (apply Rmult_le_compat_l; lra).
  assert (a * b = / 8388608 * (h * h) + a * eta32) as Hab by (subst b; rewrite <- Haa; ring).
  assert (b * b = / 8388608 * / 8388608 * (h * h) + 2 * / 8388608 * (a * eta32) + eta32 * eta32)
    as Hbb by (subst b; rewrite <- Haa; ring).
  pose proof (Rle_0_sqr h) as Hsq. unfold Rsqr in Hsq.
  apply Rabs_le. split; nra.
Qed.

(** The quotients by the rounded root: unit length up to [16 u], and
    each quotient times the root is its numerator up to [4 u]. *)
Lemma unit_real (c1 c2 c3 r g1 g2 g3 : R) :
  let P := c1 * c1 + (c2 * c2 + c3 * c3) in
  1 / 2 <= P <= 2 -> 7 / 10 <= r <= 3 / 2 ->
  Rabs (r * r - P) <= 7 * u32 * P ->
  Rabs (g1 - c1 / r) <= u32 * Rabs (c1 / r) + eta32 ->
  Rabs (g2 - c2 / r) <= u32 * Rabs (c2 / r) + eta32 ->
  Rabs (g3 - c3 / r) <= u32 * Rabs (c3 / r) + eta32 ->
  Rabs (g1 * g1 + g2 * g2 + g3 * g3 - 1) <= 16 * u32 /\
  Rabs (g1 * r - c1) <= 4 * u32 /\
  Rabs (g2 * r - c2) <= 4 * u32 /\
  Rabs (g3 * r - c3) <= 4 * u32.
Proof.
  intros P HP Hr Hrr H1 H2 H3.
  assert (r <> 0) as Hr0 by lra.
  set (h1 := c1 / r) in *. set (h2 := c2 / r) in *. set (h3 := c3 / r) in *.
  assert (h1 * r = c1) as E1 by (subst h1; field; exact Hr0).
  assert (h2 * r = c2) as E2 by (subst h2; field; exact Hr0).
  assert (h3 * r = c3) as E3 by (subst h3; field; exact Hr0).
  set (H := h1 * h1 + (h2 * h2 + h3 * h3)).
  assert (H * (r * r) = P) as EH by (subst H P; rewrite <- E1, <- E2, <- E3; ring).
  apply Rabs_le_inv in Hrr.
  pose proof eta32_pos as He. pose proof eta32_le as He'.
  assert (0 < r * r) as Hrr0 by nra.
  pose proof (Rle_0_sqr h1) as S1. pose proof (Rle_0_sqr h2) as S2.
  pose proof (Rle_0_sqr h3) as S3. unfold Rsqr in *.
  assert (1 - 8 * u32 <= H <= 1 + 8 * u32) as HH.
  { rewrite u32_val in *. split.
    - apply Rmult_le_reg_r with (r * r); [exact Hrr0|]. rewrite EH. lra.
    - apply Rmult_le_reg_r with (r * r); [exact Hrr0|]. rewrite EH. lra. }
  assert (Rabs h1 <= 2 /\ Rabs h2 <= 2 /\ Rabs h3 <= 2) as (B1 & B2 & B3).
  { rewrite u32_val in HH. subst H.
    split; [|split]; apply Rabs_sqr_le; lra. }
  pose proof (sq_pert h1 g1 H1 B1) as Q1.
  pose proof (sq_pert h2 g2 H2 B2) as Q2.
  pose proof (sq_pert h3 g3 H3 B3) as Q3.
  apply Rabs_le_inv in Q1. apply Rabs_le_inv in Q2. apply Rabs_le_inv in Q3.
  assert (forall g h c : R,
            h * r = c -> Rabs h <= 2 -> Rabs (g - h) <= u32 * Rabs h + eta32 ->
            Rabs (g * r - c) <= 4 * u32) as Hone.
  { intros g h c E B Hg. rewrite <- E.
    replace (g * r - h * r) with ((g - h) * r) by ring.
    rewrite Rabs_mult, (Rabs_pos_eq r) by lra.
    pose proof u32_pos. pose proof (Rabs_pos (g - h)).
    assert (u32 * Rabs h <= u32 * 2) by (apply Rmult_le_compat_l; lra).
    assert (Rabs (g - h) * r <= (u32 * 2 + eta32) * (3 / 2)).
    { apply Rmult_le_compat; lra. }
    rewrite u32_val in *. lra. }
  split; [|split; [|split]]; try (eapply Hone; eassumption).
  subst H. rewrite u32_val in *. apply Rabs_le. lra.
Qed.

(** A vector [g] of nearly unit length that is, up to a positive factor
    [rho], within [eps] of a unit vector [R], is near [R]. *)
Lemma direction_real (rho g1 g2 g3 R1 R2 R3 eps theta : R) :
  0 < rho -> 0 <= eps <= 1 / 4 -> 0 <= theta <= 1 / 100 ->
  R1 * R1 + R2 * R2 + R3 * R3 = 1 ->
  Rabs (g1 * g1 + g2 * g2 + g3 * g3 - 1) <= theta ->
  Rabs (g1 * rho - R1) <= eps ->
  Rabs (g2 * rho - R2) <= eps ->
  Rabs (g3 * rho - R3) <= eps ->
  Rabs (g1 - R1) <= 8 * eps + 4 * theta /\
  Rabs (g2 - R2) <= 8 * eps + 4 * theta /\
  Rabs (g3 - R3) <= 8 * eps + 4 * theta.
Proof.
  intros Hrho Heps Hth HR HG H1 H2 H3.
  apply Rabs_le_inv in HG.
  set (G := g1 * g1 + g2 * g2 + g3 * g3) in *.
  pose proof (Rle_0_sqr R1) as S1. pose proof (Rle_0_sqr R2) as S2.
  pose proof (Rle_0_sqr R3) as S3. unfold Rsqr in *.
  pose proof (Rle_0_sqr g1) as T1. pose proof (Rle_0_sqr g2) as T2.
  pose proof (Rle_0_sqr g3) as T3. unfold Rsqr in *.
  assert (forall g R : R, R * R <= 1 -> Rabs (g * rho - R) <= eps ->
            Rabs ((g * rho) * (g * rho) - R * R) <= 9 / 4 * eps) as Hsq.
  { intros g R HRR Hd.
    replace (g * rho * (g * rho) - R * R) with ((g * rho - R) * (2 * R + (g * rho - R)))
      by ring.
    assert (Rabs R <= 1) as HRa by (apply Rabs_sqr_le; lra).
    assert (Rabs (2 * R + (g * rho - R)) <= 9 / 4).
    { apply Rabs_le_inv in HRa. apply Rabs_le_inv in Hd. apply Rabs_le. lra. }
    replace (9 / 4 * eps) with (eps * (9 / 4)) by ring.
    apply Rabs_mult_le; assumption. }
  pose proof (Hsq g1 R1 ltac:(lra) H1) as Q1.
  pose proof (Hsq g2 R2 ltac:(lra) H2) as Q2.
  pose proof (Hsq g3 R3 ltac:(lra) H3) as Q3.
  apply Rabs_le_inv in Q1. apply Rabs_le_inv in Q2. apply Rabs_le_inv in Q3.
  set (k := 27 / 4 * eps).
  assert (1 - k <= rho * rho * G <= 1 + k) as HS.
  { replace (rho * rho * G)
      with (g1 * rho * (g1 * rho) + g2 * rho * (g2 * rho) + g3 * rho * (g3 * rho))
      by (subst G; ring).
    subst k. lra. }
  assert (0 < rho * rho) as Hrr by nra.
  assert (0 <= rho * rho * (G - (1 - theta))) as M1 by (apply Rmult_le_pos; lra).
  assert (0 <= rho * rho * (1 + theta - G)) as M2 by (apply Rmult_le_pos; lra).
  assert (rho * rho <= 3) as Hr3 by (subst k; nra).
  assert (0 <= (3 - rho * rho) * theta) as M3 by (apply Rmult_le_pos; lra).
  assert (0 <= rho * rho * theta) as M4 by (apply Rmult_le_pos; lra).
  assert (- (k + 3 * theta) <= rho * rho - 1 <= k + 3 * theta) as Hr2 by (split; nra).
  assert (- (k + 3 * theta) <= rho - 1 <= k + 3 * theta) as Hr1.
  { assert ((rho - 1) * (rho + 1) = rho * rho - 1) as E by ring.
    split; nra. }
  assert (forall g R : R, g * g <= G -> Rabs (g * rho - R) <= eps ->
            Rabs (g - R) <= 8 * eps + 4 * theta) as Hone.
  { intros g R Hg Hd.
    assert (Rabs g <= 101 / 100) as Hga by (apply Rabs_sqr_le; lra).
    replace (g - R) with (g * (1 - rho) + (g * rho - R)) by ring.
    eapply Rle_trans; [apply Rabs_triang|].
    assert (Rabs (1 - rho) <= k + 3 * theta) as Hra by (apply Rabs_le; lra).
    pose proof (Rabs_mult_le _ _ _ _ Hga Hra) as Hm.
    subst k. lra. }
  split; [|split]; apply Hone; try assumption; subst G; lra.
Qed.

(** [normalize] in binary32, on a vector whose squared norm is between
    1/2 and 2: it divides, and the result has unit length up to [16 u]
    and is the vector divided by a positive number [r] up to [4 u]. *)
Lemma normalize_approx (a b c : F32.t) :
  valid32 a -> valid32 b -> valid32 c ->
  1 / 2 <= F2R a * F2R a + (F2R b * F2R b + F2R c * F2R c) <= 2 ->
  exists (g1 g2 g3 : F32.t) (r : R),
    Eigen.normalize (Eigen.mkVector3 a b c) = Eigen.mkVector3 g1 g2 g3 /\
    valid32 g1 /\ valid32 g2 /\ valid32 g3 /\
    7 / 10 <= r <= 3 / 2 /\
    Rabs (F2R g1 * F2R g1 + F2R g2 * F2R g2 + F2R g3 * F2R g3 - 1) <= 16 * u32 /\
    Rabs (F2R g1 * r - F2R a) <= 4 * u32 /\
    Rabs (F2R g2 * r - F2R b) <= 4 * u32 /\
    Rabs (F2R g3 * r - F2R c) <= 4 * u32.
Proof.
  intros Ha Hb Hc HP.
  set (c1 := F2R a) in *. set (c2 := F2R b) in *. set (c3 := F2R c) in *.
  pose proof (Rle_0_sqr c1) as S1. pose proof (Rle_0_sqr c2) as S2.
  pose proof (Rle_0_sqr c3) as S3. unfold Rsqr in *.
  assert (c1 * c1 <= 2 /\ c2 * c2 <= 2 /\ c3 * c3 <= 2) as (L1 & L2 & L3) by lra.
  pose proof bpow_127_big as Hbig.
  pose proof eta32_pos as He. pose proof eta32_le as He'.
  assert (forall x : R, 0 <= x <= 2 -> Rabs x < bpow 127) as Hsmall.
  { intros x Hx. rewrite Rabs_pos_eq by lra. lra. }
  destruct (mul_err a a Ha Ha) as [V1 H1]; [apply Hsmall; fold c1; lra|].
  destruct (mul_err b b Hb Hb) as [V2 H2]; [apply Hsmall; fold c2; lra|].
  destruct (mul_err c c Hc Hc) as [V3 H3]; [apply Hsmall; fold c3; lra|].
  fold c1 in H1. fold c2 in H2. fold c3 in H3.
  set (p1 := F32.mul a a) in *. set (p2 := F32.mul b b) in *. set (p3 := F32.mul c c) in *.
  assert (Rabs (F2R p2 + F2R p3) <= 3) as B23.
  { pose proof H2 as H2'. pose proof H3 as H3'.
    rewrite (Rabs_pos_eq (c2 * c2)) in H2' by exact S2.
    rewrite (Rabs_pos_eq (c3 * c3)) in H3' by exact S3.
    apply Rabs_le_inv in H2'. apply Rabs_le_inv in H3'.
    rewrite u32_val in *. apply Rabs_le. lra. }
  destruct (add_err p2 p3 V2 V3) as [Vt Ht]; [lra|].
  set (t := F32.add p2 p3) in *.
  assert (Rabs (F2R p1 + F2R t) <= 4) as B1t.
  { pose proof H1 as H1'. pose proof H2 as H2'. pose proof H3 as H3'.
    rewrite (Rabs_pos_eq (c1 * c1)) in H1' by exact S1.
    rewrite (Rabs_pos_eq (c2 * c2)) in H2' by exact S2.
    rewrite (Rabs_pos_eq (c3 * c3)) in H3' by exact S3.
    apply Rabs_le_inv in H1'. apply Rabs_le_inv in H2'. apply Rabs_le_inv in H3'.
    pose proof (err_interval _ _ _ _ _ ltac:(left; exact u32_pos) Ht B23) as Ht'.
    rewrite u32_val in *. apply Rabs_le. lra. }
  destruct (add_err p1 t V1 Vt) as [Vz Hz]; [lra|].
  set (z := F32.add p1 t) in *.
  pose proof (sqnorm_real _ _ _ _ _ _ _ _ H1 H2 H3 Ht Hz) as HzP.
  set (P := c1 * c1 + (c2 * c2 + c3 * c3)) in *.
  assert (49 / 100 <= F2R z <= 201 / 100) as Hzb.
  { pose proof HzP as HzP'. apply Rabs_le_inv in HzP'. rewrite u32_val in *. lra. }
  assert (F32.ltb (F32.of_Z 0) z = true) as Hlt by (apply ltb_zero; [exact Vz|lra]).
  pose proof (sqrt_pos (F2R z)) as Hsp.
  assert (sqrt (F2R z) * sqrt (F2R z) = F2R z) as Hss by (apply sqrt_sqrt; lra).
  assert (sqrt (F2R z) <= 2) as Hs2 by nra.
  destruct (sqrt_err z Vz) as [Vr Hr]; [lra|lra|].
  set (fr := F32.sqrt z) in *.
  destruct (root_real _ _ _ _ Hsp Hss HP HzP Hr) as [Hrb HrP].
  assert (F2R fr <> 0) as Hr0 by lra.
  assert (forall x : F32.t, valid32 x -> F2R x * F2R x <= 2 ->
            Rabs (F2R x / F2R fr) < bpow 127) as Hq.
  { intros x Hx Hxx.
    assert (Rabs (F2R x) <= 3 / 2) by (apply Rabs_sqr_le; lra).
    unfold Rdiv. rewrite Rabs_mult, Rabs_inv, (Rabs_pos_eq (F2R fr)) by lra.
    assert (/ F2R fr <= / (7 / 10)) by (apply Rinv_le_contravar; lra).
    assert (0 < / F2R fr) by (apply Rinv_0_lt_compat; lra).
    assert (Rabs (F2R x) * / F2R fr <= 3 / 2 * / (7 / 10)).
    { apply Rmult_le_compat; try lra. apply Rabs_pos. }
    lra. }
  destruct (div_err a fr Ha Vr Hr0) as [Vg1 G1]; [apply Hq; [exact Ha|exact L1]|].
  destruct (div_err b fr Hb Vr Hr0) as [Vg2 G2]; [apply Hq; [exact Hb|exact L2]|].
  destruct (div_err c fr Hc Vr Hr0) as [Vg3 G3]; [apply Hq; [exact Hc|exact L3]|].
  fold c1 in G1. fold c2 in G2. fold c3 in G3.
  exists (F32.div a fr), (F32.div b fr), (F32.div c fr), (F2R fr).
  split.
  { unfold Eigen.normalize, Eigen.squaredNorm, Eigen.quot.
    cbn [Eigen.x Eigen.y Eigen.z s_add s_mul s_div s_sqrt s_ltb s_of_Z F32_scalar].
    fold p1 p2 p3 t z. rewrite Hlt. reflexivity. }
  split; [exact Vg1|]. split; [exact Vg2|]. split; [exact Vg3|].
  split; [exact Hrb|].
  exact (unit_real c1 c2 c3 (F2R fr) _ _ _ HP Hrb HrP G1 G2 G3).
Qed.

(** *** The rotation and the theorem *)

Lemma rotate_gravity (W X Y Z : R) :
  W * W + X * X + Y * Y + Z * Z <> 0 ->
  rotate (W, X, Y, Z) (0, 0, -1)
  = (- 2 * (W * Y + X * Z) / (W * W + X * X + Y * Y + Z * Z),
     2 * (W * X - Y * Z) / (W * W + X * X + Y * Y + Z * Z),
     (- (W * W) + X * X + Y * Y - Z * Z) / (W * W + X * X + Y * Y + Z * Z)).
Proof.
  intros HN. unfold rotate, hamilton, norm2. repeat f_equal; field; exact HN.
Qed.

Lemma bpow_m19 : bpow (-19) = 16 * u32.
Proof.
  unfold u32. replace (-19)%Z with (4 + -23)%Z by lia. rewrite bpow_add.
  f_equal. rewrite <- bpow_IZR by lia. reflexivity.
Qed.

Lemma bpow_m12 : bpow (-12) = 2048 * u32.
Proof.
  unfold u32. replace (-12)%Z with (11 + -23)%Z by lia. rewrite bpow_add.
  f_equal. rewrite <- bpow_IZR by lia. reflexivity.
Qed.

Lemma is_finite_valid (f : F32.t) : valid32 f -> F32.is_finite f = true.
Proof. intros [H _]. exact H. Qed.

(** The gravity vector in binary32, for every valid orientation. *)
Lemma gravity_approx (o : Quaternion.t) (rx ry rz : R) :
  valid_orientation o ->
  rotate (quaternion_of o) (0, 0, -1) = (rx, ry, rz) ->
  exists gx gy gz : F32.t,
    convertToGravityVector o = [gx; gy; gz] /\
    F32.is_finite gx = true /\ F32.is_finite gy = true /\ F32.is_finite gz = true /\
    Rabs (F2R gx * F2R gx + F2R gy * F2R gy + F2R gz * F2R gz - 1) <= bpow (-19) /\
    Rabs (F2R gx - rx) <= bpow (-12) + 16 * Rabs (norm2 (quaternion_of o) - 1) /\
    Rabs (F2R gy - ry) <= bpow (-12) + 16 * Rabs (norm2 (quaternion_of o) - 1) /\
    Rabs (F2R gz - rz) <= bpow (-12) + 16 * Rabs (norm2 (quaternion_of o) - 1).
Proof.
  intros (Fw & Fx & Fy & Fz & HN) Hrot.
  destruct o as [ox oy oz ow]. unfold quaternion_of, norm2 in *.
  cbn [Quaternion.w Quaternion.x Quaternion.y Quaternion.z] in *.
  set (W := F2R ow) in *. set (X := F2R ox) in *.
  set (Y := F2R oy) in *. set (Z := F2R oz) in *.
  set (N := W * W + X * X + Y * Y + Z * Z) in *.
  pose proof (Rabs_pos (N - 1)) as HN0.
  pose proof HN as HNi. apply Rabs_le_inv in HNi.
  pose proof (Rle_0_sqr W) as SW. pose proof (Rle_0_sqr X) as SX.
  pose proof (Rle_0_sqr Y) as SY. pose proof (Rle_0_sqr Z) as SZ. unfold Rsqr in *.
  assert (N <> 0) as HNz by lra.
  rewrite rotate_gravity in Hrot by exact HNz. fold N in Hrot.
  injection Hrot as Hrx Hry Hrz.
  pose proof eta32_pos as He. pose proof eta32_le as He'.
  (* the four conversions *)
  assert (forall d : F64.t, F32.is_finite d = true -> F2R d * F2R d <= N ->
            approx (double_to_float d) (F2R d) (9 / 8 * u32) (33 / 32)) as Hconv.
  { intros d Hd Hdd.
    assert (Rabs (F2R d) <= 33 / 32) as Hb by (apply Rabs_sqr_le; lra).
    eapply approx_weaken; [apply approx_double_to_float; [exact Hd|exact Hb|lra]| |lra].
    rewrite u32_val. lra. }
  pose proof (Hconv ow Fw ltac:(subst N; fold W; lra)) as Aw.
  pose proof (Hconv ox Fx ltac:(subst N; fold X; lra)) as Ax.
  pose proof (Hconv oy Fy ltac:(subst N; fold Y; lra)) as Ay.
  pose proof (Hconv oz Fz ltac:(subst N; fold Z; lra)) as Az.
  fold W in Aw. fold X in Ax. fold Y in Ay. fold Z in Az.
  (* the rotation *)
  pose proof (transformVector_approx _ _ _ _ _ _ _ _ Aw Ax Ay Az) as Hv.
  unfold convertToGravityVector, convertToGravityVector_at.
  cbn [Quaternion.w Quaternion.x Quaternion.y Quaternion.z s_of_Z F32_scalar].
  destruct (Eigen.transformVector _ _) as [a b c].
  destruct Hv as ((Va & Ea & _) & (Vb & Eb & _) & (Vc & Ec & _)).
  cbn [Eigen.x Eigen.y Eigen.z] in *.
  set (V1 := - 2 * (W * Y + X * Z)) in *. set (V2 := 2 * (W * X - Y * Z)) in *.
  set (V3 := -1 + 2 * (X * X + Y * Y)) in *.
  (* the squared norm of the exact rotation, and of the computed one *)
  assert (V1 * V1 + V2 * V2 + V3 * V3 = 1 + 4 * (X * X + Y * Y) * (N - 1)) as HQ
    by (subst V1 V2 V3 N; ring).
  assert (47 / 64 <= V1 * V1 + V2 * V2 + V3 * V3 <= 81 / 64) as HQb.
  { rewrite HQ.
    assert (0 <= (X * X + Y * Y) * (N - 1 + 1 / 16)) by (apply Rmult_le_pos; lra).
    assert (0 <= (X * X + Y * Y) * (1 / 16 - (N - 1))) by (apply Rmult_le_pos; lra).
    assert (X * X + Y * Y <= 17 / 16) by (subst N; lra).
    lra. }
  pose proof (Rle_0_sqr V1) as T1. pose proof (Rle_0_sqr V2) as T2.
  pose proof (Rle_0_sqr V3) as T3. unfold Rsqr in *.
  assert (forall f V : R, V * V <= 81 / 64 -> Rabs (f - V) <= 128 * u32 ->
            Rabs (f * f - V * V) <= 300 * u32) as Hsq.
  { intros f V HV Hf.
    assert (Rabs V <= 9 / 8) as HVa by (apply Rabs_sqr_le; lra).
    replace (f * f - V * V) with ((f - V) * (2 * V + (f - V))) by ring.
    assert (Rabs (2 * V + (f - V)) <= 9 / 4 + 128 * u32) as Hs.
    { apply Rabs_le_inv in HVa. apply Rabs_le_inv in Hf. apply Rabs_le. lra. }
    pose proof (Rabs_mult_le _ _ _ _ Hf Hs) as Hm.
    rewrite u32_val in *. lra. }
  pose proof (Hsq (F2R a) V1 ltac:(lra) Ea) as Qa.
  pose proof (Hsq (F2R b) V2 ltac:(lra) Eb) as Qb.
  pose proof (Hsq (F2R c) V3 ltac:(lra) Ec) as Qc.
  assert (1 / 2 <= F2R a * F2R a + (F2R b * F2R b + F2R c * F2R c) <= 2) as HP.
  { apply Rabs_le_inv in Qa. apply Rabs_le_inv in Qb. apply Rabs_le_inv in Qc.
    rewrite u32_val in *. lra. }
  (* the normalization *)
  destruct (normalize_approx a b c Va Vb Vc HP)
    as (g1 & g2 & g3 & r & -> & Vg1 & Vg2 & Vg3 & Hr & Hunit & D1 & D2 & D3).
  exists g1, g2, g3. cbn [Eigen.x Eigen.y Eigen.z].
  split; [reflexivity|].
  split; [apply is_finite_valid, Vg1|]. split; [apply is_finite_valid, Vg2|].
  split; [apply is_finite_valid, Vg3|].
  split; [rewrite bpow_m19; exact Hunit|].
  (* the direction *)
  assert (rx * rx + ry * ry + rz * rz = 1) as HR.
  { subst rx ry rz. unfold V1, V2, N in *. field. exact HNz. }
  assert (V1 - rx = (N - 1) * rx /\ V2 - ry = (N - 1) * ry /\
          V3 - rz = (N - 1) * rz + (N - 1)) as (X1 & X2 & X3).
  { subst rx ry rz. unfold V1, V2, V3, N in *.
    repeat split; field; exact HNz. }
  pose proof (Rle_0_sqr rx) as U1. pose proof (Rle_0_sqr ry) as U2.
  pose proof (Rle_0_sqr rz) as U3. unfold Rsqr in *.
  assert (Rabs rx <= 1 /\ Rabs ry <= 1 /\ Rabs rz <= 1) as (R1 & R2 & R3)
    by (split; [|split]; apply Rabs_sqr_le; lra).
  set (dn := Rabs (N - 1)) in *.
  assert (forall f g V rr : R,
            Rabs (g * r - f) <= 4 * u32 -> Rabs (f - V) <= 128 * u32 ->
            Rabs (V - rr) <= 2 * dn ->
            Rabs (g * r - rr) <= 132 * u32 + 2 * dn) as Hstep.
  { intros f g V rr H1 H2 H3.
    replace (g * r - rr) with ((g * r - f) + (f - V) + (V - rr)) by ring.
    eapply Rle_trans; [apply Rabs_triang|].
    eapply Rle_trans; [apply Rplus_le_compat_r, Rabs_triang|]. lra. }
  assert (forall t : R, Rabs t <= 1 -> Rabs ((N - 1) * t) <= dn) as Hm1.
  { intros t Ht. rewrite Rabs_mult. fold dn.
    replace dn with (dn * 1) at 2 by ring.
    apply Rmult_le_compat_l; assumption. }
  assert (Rabs (V1 - rx) <= 2 * dn) as Y1 by (rewrite X1; pose proof (Hm1 rx R1); lra).
  assert (Rabs (V2 - ry) <= 2 * dn) as Y2 by (rewrite X2; pose proof (Hm1 ry R2); lra).
  assert (Rabs (V3 - rz) <= 2 * dn) as Y3.
  { rewrite X3. eapply Rle_trans; [apply Rabs_triang|]. fold dn.
    pose proof (Hm1 rz R3). lra. }
  pose proof (Hstep _ _ _ _ D1 Ea Y1) as Z1.
  pose proof (Hstep _ _ _ _ D2 Eb Y2) as Z2.
  pose proof (Hstep _ _ _ _ D3 Ec Y3) as Z3.
  destruct (direction_real r (F2R g1) (F2R g2) (F2R g3) rx ry rz
              (132 * u32 + 2 * dn) (16 * u32)) as (C1 & C2 & C3);
    try assumption; try (rewrite ?u32_val; lra).
  rewrite bpow_m12. rewrite u32_val in *. repeat split; lra.
Qed.

(** [rotate] turns counterclockwise about the axis of the quaternion:
    (1, 0, 0, 1) is a quarter turn about the third axis and takes the
    first axis to the second. *)
Example rotate_quarter_turn : rotate (1, 0, 0, 1) (1, 0, 0) = (0, 1, 0).
Proof. unfold rotate, hamilton, norm2. repeat f_equal; field. Qed.

Lemma F2R_half : F2R (F64.lit 1 (-1)) = 1 / 2.
Proof.
  change (F64.lit 1 (-1)) with (S754_finite false 4503599627370496 (-53)).
  unfold F2R, bpow. cbn [cond_Zopp].
  change (powerRZ 2 (-53)) with (/ 2 ^ 53). rewrite pow_IZR.
  change (2 ^ Z.of_nat 53)%Z with 9007199254740992%Z. lra.
Qed.

Lemma third_turn_valid : valid_orientation third_turn.
Proof.
  repeat (split; [reflexivity|]).
  unfold quaternion_of, norm2, third_turn.
  cbn [Quaternion.w Quaternion.x Quaternion.y Quaternion.z].
  rewrite F2R_half. apply Rabs_le. lra.
Qed.

Lemma third_turn_rotate : rotate (quaternion_of third_turn) (0, 0, -1) = (-1, 0, 0).
Proof.
  unfold quaternion_of, third_turn.
  cbn [Quaternion.w Quaternion.x Quaternion.y Quaternion.z].
  rewrite F2R_half. unfold rotate, hamilton, norm2. repeat f_equal; field.
Qed.

(** C7: [convertToGravityVector] applies the orientation quaternion to
    (0, 0, -1) and normalizes, in binary32. For every valid orientation
    (four finite doubles whose squared norm [n] is within 1/16 of 1) it
    returns three finite floats; the sum of their squares is within
    [2^-19] of 1 (unit length, within floating tolerance); each is within
    [2^-12 + 16 |n - 1|] of the matching component of (0, 0, -1) rotated by
    the quaternion, [q (0, 0, -1) q^-1]. The identity orientation gives
    exactly (0, 0, -1). *)
Theorem C7_gravity_vector :
  (forall (o : Quaternion.t) (rx ry rz : R),
     valid_orientation o ->
     rotate (quaternion_of o) (0, 0, -1) = (rx, ry, rz) ->
     exists gx gy gz : F32.t,
       convertToGravityVector o = [gx; gy; gz] /\
       F32.is_finite gx = true /\ F32.is_finite gy = true /\ F32.is_finite gz = true /\
       Rabs (F2R gx * F2R gx + F2R gy * F2R gy + F2R gz * F2R gz - 1) <= bpow (-19) /\
       Rabs (F2R gx - rx) <= bpow (-12) + 16 * Rabs (norm2 (quaternion_of o) - 1) /\
       Rabs (F2R gy - ry) <= bpow (-12) + 16 * Rabs (norm2 (quaternion_of o) - 1) /\
       Rabs (F2R gz - rz) <= bpow (-12) + 16 * Rabs (norm2 (quaternion_of o) - 1)) /\
  convertToGravityVector identity_orientation = [F32.zero; F32.zero; F32.of_Z (-1)].
Proof.
  split.
  - exact gravity_approx.
  - vm_compute. reflexivity.
Qed.

Lemma C7_gravity_vector_witness :
  valid_orientation third_turn /\
  exists gx gy gz : F32.t,
    convertToGravityVector third_turn = [gx; gy; gz] /\
    Rabs (F2R gx * F2R gx + F2R gy * F2R gy + F2R gz * F2R gz - 1) <= bpow (-19) /\
    Rabs (F2R gx - -1) <= bpow (-12) + 16 * Rabs (norm2 (quaternion_of third_turn) - 1).
Proof.
  split; [exact third_turn_valid|].
  destruct (proj1 C7_gravity_vector third_turn (-1) 0 0 third_turn_valid third_turn_rotate)
    as (gx & gy & gz & Hg & _ & _ & _ & Hunit & Hx & _).
  exists gx, gy, gz. split; [exact Hg|]. split; [exact Hunit|exact Hx].
Defined.

(** The tolerance is not for show: for the unit quaternion (0.6, 0.8, 0, 0),
    taken as the nearest doubles, the three floats returned are 0,
    0.96000004 and 0.28000009, and the sum of their squares is above 1. *)
Example gravity_not_exactly_unit :
  exists gy gz : F32.t,
    convertToGravityVector
      (Quaternion.mk (F64.lit 3602879701896397 (-52)) (S754_zero false) (S754_zero false)
                     (F64.lit 5404319552844595 (-53)))
    = [F32.zero; gy; gz] /\
    1 < F2R gy * F2R gy + F2R gz * F2R gz.
Proof.
  exists (S754_finite false 16106128 (-24)), (S754_finite false 9395244 (-25)).
  split; [vm_compute; reflexivity|].
  unfold F2R, bpow. cbn [cond_Zopp].
  change (powerRZ 2 (-24)) with (/ 2 ^ 24). change (powerRZ 2 (-25)) with (/ 2 ^ 25).
  rewrite !pow_IZR.
  change (2 ^ Z.of_nat 24)%Z with 16777216%Z. change (2 ^ Z.of_nat 25)%Z with 33554432%Z.
  lra.
Qed.

Local Close Scope R_scope.

(** A third of a turn about (1, 1, 1), computed in binary32. *)
Example gravity_third_turn :
  let half := F64.lit 1 (-1) in
  convertToGravityVector (Quaternion.mk half half half half)
  = [F32.of_Z (-1); F32.zero; F32.zero].
Proof. vm_compute. reflexivity. Qed.

(** ** Ticks since contact *)

Lemma msgToTensor_tick (goal : TwistStamped.t) (msg : LowState.t)
      (c : UnitreeNeuralControl) :
  snd (msgToTensor goal msg c) = tick (LowState.foot_force msg) c.
Proof. rewrite msgToTensor_eq. reflexivity. Qed.

Lemma ticks_succ (forces : N -> FootForceState.t) (n : N) (c : UnitreeNeuralControl) :
  ticks forces (N.succ n) c = tick (forces n) (ticks forces n c).
Proof.
  unfold ticks.
  exact (N.peano_rect_succ (fun _ => UnitreeNeuralControl) c
           (fun k ck => tick (forces k) ck) n).
Qed.

Lemma tick_wf (foot : FootForceState.t) (c : UnitreeNeuralControl) :
  wf c -> wf (tick foot c).
Proof. intros H. apply updateCycles_wf, convertFootForceToContact_wf, H. Qed.

Lemma tick_threshold (foot : FootForceState.t) (c : UnitreeNeuralControl) :
  wf c -> foot_contact_threshold_ (tick foot c) = foot_contact_threshold_ c.
Proof.
  intros H. unfold tick.
  pose proof (convertFootForceToContact_wf foot c H) as (_ & _ & Hf & Hc & _).
  rewrite updateCycles_spec by lia. reflexivity.
Qed.

Lemma tick_cycles (foot : FootForceState.t) (c : UnitreeNeuralControl) (i : nat) :
  wf c -> (i < 4)%nat ->
  cycles_since_last_contact_ (tick foot c) !!! i =
  cycles_step (flags c foot !!! i) (cycles_since_last_contact_ c !!! i).
Proof.
  intros H Hi. unfold tick, flags.
  pose proof (convertFootForceToContact_wf foot c H) as (_ & _ & Hf & Hc & _).
  rewrite updateCycles_spec by lia.
  cbn [cycles_since_last_contact_ set_cycles_since_last_contact_].
  unfold cycles_after. rewrite zip_with_total_lookup by lia. reflexivity.
Qed.

Lemma flags_threshold (c c' : UnitreeNeuralControl) (foot : FootForceState.t) :
  wf c -> wf c' -> foot_contact_threshold_ c = foot_contact_threshold_ c' ->
  flags c foot = flags c' foot.
Proof.
  intros (_ & _ & Hf & _) (_ & _ & Hf' & _) Hth. unfold flags.
  rewrite !convertFootForceToContact_spec by assumption.
  cbn [foot_contact_ set_foot_contact_]. unfold convertFootForce. rewrite Hth.
  reflexivity.
Qed.

Lemma ticks_wf_threshold (forces : N -> FootForceState.t) (n : N) (c : UnitreeNeuralControl) :
  wf c ->
  wf (ticks forces n c) /\
  foot_contact_threshold_ (ticks forces n c) = foot_contact_threshold_ c.
Proof.
  intros H. induction n as [|n IH] using N.peano_ind.
  - split; [exact H | reflexivity].
  - destruct IH as [IHwf IHth]. rewrite ticks_succ. split.
    + apply tick_wf, IHwf.
    + rewrite tick_threshold by exact IHwf. exact IHth.
Qed.

Lemma ticks_cycles_succ (forces : N -> FootForceState.t) (n : N)
      (c : UnitreeNeuralControl) (i : nat) :
  wf c -> (i < 4)%nat ->
  cycles_since_last_contact_ (ticks forces (N.succ n) c) !!! i =
  cycles_step (flags c (forces n) !!! i)
              (cycles_since_last_contact_ (ticks forces n c) !!! i).
Proof.
  intros H Hi. destruct (ticks_wf_threshold forces n c H) as [Hwf Hth].
  rewrite ticks_succ, tick_cycles by assumption.
  rewrite (flags_threshold _ c) by assumption. reflexivity.
Qed.

(** A slot whose flag is never 1.0 counts the calls, up to 2^24. *)
Lemma ticks_airborne (forces : N -> FootForceState.t) (n : N)
      (c : UnitreeNeuralControl) (i : nat) :
  wf c -> (i < 4)%nat ->
  cycles_since_last_contact_ c !!! i = F32.zero ->
  (forall k, (k < n)%N -> F32.eqb (flags c (forces k) !!! i) F32.one = false) ->
  cycles_since_last_contact_ (ticks forces n c) !!! i =
  F32.of_Z (Z.min (Z.of_N n) (2 ^ 24)).
Proof.
  intros H Hi H0. induction n as [|n IH] using N.peano_ind; intros Hair.
  - exact H0.
  - rewrite ticks_cycles_succ by assumption.
    rewrite IH by (intros k Hk; apply Hair; lia).
    unfold cycles_step. rewrite Hair by lia.
    destruct (Z.lt_ge_cases (Z.of_N n) (2 ^ 24)) as [Hlt|Hge].
    + rewrite Z.min_l by lia. rewrite F32_add_one by lia.
      f_equal. lia.
    + rewrite !Z.min_r by lia. apply F32_add_one_saturated.
Qed.

(** C8 as stated fails: a slot never in contact over 2^24 + 1 calls,
    starting from 0, counts 2^24. *)
Lemma C8_counter_saturates :
  wf scenario_control /\
  cycles_since_last_contact_ scenario_control !!! 0%nat = F32.zero /\
  F32.eqb (flags scenario_control airborne !!! 0%nat) F32.one = false /\
  F32.to_Z (cycles_since_last_contact_
              (ticks (fun _ => airborne) 16777217 scenario_control) !!! 0%nat)
    = Some 16777216 /\
  F32.to_Z (cycles_since_last_contact_
              (ticks (fun _ => airborne) 16777217 scenario_control) !!! 0%nat)
    <> Some 16777217.
Proof.
  assert (F32.to_Z (cycles_since_last_contact_
                      (ticks (fun _ => airborne) 16777217 scenario_control) !!! 0%nat)
          = Some 16777216) as Hsat.
  { rewrite ticks_airborne.
    - reflexivity.
    - exact scenario_control_wf.
    - lia.
    - reflexivity.
    - intros k _. reflexivity. }
  split; [exact scenario_control_wf|]. split; [reflexivity|].
  split; [reflexivity|]. split; [exact Hsat|].
  rewrite Hsat. discriminate.
Qed.

(** C8, as the code has it: one call of [updateCyclesSinceLastContact()]
    sets the counter of a slot to 0 when the flag of the slot is 1.0 and
    otherwise replaces it by its float sum with 1.0; so over consecutive
    calls of [msgToTensor] a slot whose flag is 1.0 at every call has
    counter 0 after each call, and a slot whose flag is never 1.0 over [n]
    calls, starting from 0, has counter [n] as long as [n <= 2^24], and
    2^24 from then on. *)
Theorem C8_updateCycles :
  (forall (c : UnitreeNeuralControl) (i : nat),
     wf c -> (i < 4)%nat ->
     cycles_since_last_contact_ (updateCyclesSinceLastContact c) !!! i =
     if F32.eqb (foot_contact_ c !!! i) F32.one then F32.zero
     else F32.add (cycles_since_last_contact_ c !!! i) F32.one) /\
  (forall (forces : N -> FootForceState.t) (n : N) (c : UnitreeNeuralControl) (i : nat),
     wf c -> (i < 4)%nat ->
     (forall k, (k <= n)%N -> F32.eqb (flags c (forces k) !!! i) F32.one = true) ->
     cycles_since_last_contact_ (ticks forces (N.succ n) c) !!! i = F32.zero) /\
  (forall (forces : N -> FootForceState.t) (n : N) (c : UnitreeNeuralControl) (i : nat),
     wf c -> (i < 4)%nat ->
     cycles_since_last_contact_ c !!! i = F32.zero ->
     (forall k, (k < n)%N -> F32.eqb (flags c (forces k) !!! i) F32.one = false) ->
     F32.to_Z (cycles_since_last_contact_ (ticks forces n c) !!! i) =
     Some (Z.min (Z.of_N n) (2 ^ 24))).
Proof.
  split; [|split].
  - intros c i (_ & _ & Hf & Hc & _) Hi.
    rewrite updateCycles_spec by lia.
    cbn [cycles_since_last_contact_ set_cycles_since_last_contact_].
    unfold cycles_after. rewrite zip_with_total_lookup by lia. reflexivity.
  - intros forces n c i H Hi Hcontact.
    rewrite ticks_cycles_succ by assumption.
    unfold cycles_step. rewrite Hcontact by lia. reflexivity.
  - intros forces n c i H Hi H0 Hair.
    rewrite ticks_airborne by assumption.
    apply F32_to_Z_of_Z. lia.
Qed.

Lemma C8_updateCycles_witness :
  wf scenario_control /\
  F32.to_Z (cycles_since_last_contact_
              (ticks (fun _ => airborne) 3 scenario_control) !!! 0%nat) = Some 3.
Proof.
  split; [exact scenario_control_wf|].
  apply (proj2 (proj2 C8_updateCycles) (fun _ => airborne) 3%N scenario_control 0%nat).
  - exact scenario_control_wf.
  - lia.
  - reflexivity.
  - intros k _. reflexivity.
Defined.

(** ** Time since contact *)

(** C9: [updateCyclesSinceLastContact(tick)] computes [tick_ms], the float
    quotient of the tick by 1000, and for each leg [i]: when the flag of
    the leg is 1.0 it stores [tick_ms] as the leg's last tick and 0 as its
    duration; otherwise it stores the float difference of [tick_ms] and the
    leg's last tick as the duration and keeps the last tick. The duration
    is not clamped: it is negative in a run where the tick went back. *)
Theorem C9_updateCycles_tick :
  (forall (tick : Z) (c : UnitreeNeuralControl) (i : nat),
     wf c -> (i < 4)%nat ->
     let tick_ms := tick_ms_of tick in
     let c' := updateCyclesSinceLastContact_tick tick c in
     (F32.eqb (foot_contact_ c !!! i) F32.one = true ->
      last_tick_ c' !!! i = tick_ms /\
      cycles_since_last_contact_ c' !!! i = F32.zero) /\
     (F32.eqb (foot_contact_ c !!! i) F32.one = false ->
      last_tick_ c' !!! i = last_tick_ c !!! i /\
      cycles_since_last_contact_ c' !!! i = F32.sub tick_ms (last_tick_ c !!! i))) /\
  (exists (tick : Z) (c : UnitreeNeuralControl) (i : nat),
     wf c /\ (i < 4)%nat /\
     F32.eqb (foot_contact_ c !!! i) F32.one = false /\
     F32.ltb (tick_ms_of tick) (last_tick_ c !!! i) = true /\
     F32.ltb (cycles_since_last_contact_ (updateCyclesSinceLastContact_tick tick c) !!! i)
             F32.zero = true).
Proof.
  split.
  - intros tick c i Hwf Hi. cbv zeta.
    pose proof Hwf as (_ & _ & Hf & Hc & Ht).
    rewrite updateCycles_tick_spec by lia.
    cbn [last_tick_ cycles_since_last_contact_ set_cycles_since_last_contact_
         set_last_tick_].
    rewrite !zip_with_total_lookup by lia.
    unfold tick_step_last, tick_step_cycles.
    split; intros ->; split; reflexivity.
  - exists 1000, stale_control, 0%nat.
    split; [exact stale_control_wf|]. split; [lia|].
    repeat split; vm_compute; reflexivity.
Qed.

Lemma C9_updateCycles_tick_witness :
  wf stale_control /\
  cycles_since_last_contact_ (updateCyclesSinceLastContact_tick 1000 stale_control)
    !!! 0%nat =
  F32.sub (tick_ms_of 1000) (last_tick_ stale_control !!! 0%nat).
Proof.
  split; [exact stale_control_wf|].
  apply (proj1 C9_updateCycles_tick 1000 stale_control 0%nat stale_control_wf);
    [lia | reflexivity].
Defined.

(** ** Calls that are defined *)

Lemma actionToMsg_Some_length (action : list F32.t) (c : UnitreeNeuralControl)
      (cmd : LowCmd.t) :
  actionToMsg action c = Some cmd -> (12 <= length action)%nat.
Proof.
  intros H.
  do 12 (destruct action as [|? action]; [discriminate|]).
  cbn. lia.
Qed.

Lemma modelForward_Some_length (goal : TwistStamped.t) (msg : LowState.t)
      (c : UnitreeNeuralControl) (forward : list F32.t -> list F32.t) :
  wf c -> module_ c = Some forward ->
  is_Some (modelForward goal msg c) ->
  length (forward (fst (msgToTensor goal msg c))) = 12%nat.
Proof.
  intros Hwf Hmod [[[cmd tensor] c'] Hrun].
  pose proof (msgToTensor_length goal msg c Hwf) as Hlen.
  pose proof (after_msgToTensor_fields msg c Hwf) as (Hm & _ & _ & Hla & _).
  pose proof Hwf as (_ & Hl & _).
  unfold modelForward in Hrun. rewrite msgToTensor_eq in *. cbn [fst] in *.
  set (state := _ ++ _) in *. set (c1 := after_msgToTensor msg c) in *.
  rewrite Hm, Hmod in Hrun. cbn [mbind option_bind] in Hrun.
  unfold transform in Hrun.
  destruct (decide (length (forward state) <= length state)%nat) as [Hle|];
    [|discriminate].
  cbn [mbind option_bind] in Hrun.
  set (action_vec := zip_with blend _ _) in *.
  assert (length action_vec = length (forward state)) as Hav.
  { subst action_vec. rewrite length_zip_with, length_take. lia. }
  unfold copy in Hrun. rewrite Hav, Hla, Hl in Hrun.
  destruct (decide (length (forward state) <= 12)%nat) as [Hle12|]; [|discriminate].
  cbn [mbind option_bind] in Hrun.
  destruct (actionToMsg action_vec _) as [cmd'|] eqn:E; [|discriminate].
  apply actionToMsg_Some_length in E. lia.
Qed.

(** ** Reachable controllers *)




(** * Further properties of the code *)

(** ** The bounds of the command and of the policy output *)

(** X1: [actionToMsg] reads [action[0]] to [action[11]] unchecked: it returns
    a command exactly when the action has at least 12 entries. *)
Theorem actionToMsg_defined_iff (action : list F32.t) (c : UnitreeNeuralControl) :
  is_Some (actionToMsg action c) <-> (12 <= length action)%nat.
Proof.
  split.
  - intros [cmd H]. exact (actionToMsg_Some_length action c cmd H).
  - apply actionToMsg_defined.
Qed.

Lemma actionToMsg_defined_iff_witness :
  is_Some (actionToMsg (replicate 12 F32.zero) scenario_control) /\
  ~ is_Some (actionToMsg (replicate 11 F32.zero) scenario_control).
Proof.
  split.
  - apply (proj2 (actionToMsg_defined_iff (replicate 12 F32.zero) scenario_control)).
    cbn. lia.
  - intros H.
    apply (proj1 (actionToMsg_defined_iff (replicate 11 F32.zero) scenario_control)) in H.
    cbn in H. lia.
Defined.

(** X2: the command depends on the first 12 entries of the action and on the
    nominal pose only: entries past the twelfth and every other member of
    the controller are ignored. *)
Theorem actionToMsg_first_12 (action : list F32.t) (c c' : UnitreeNeuralControl) :
  nominal_ c = nominal_ c' ->
  actionToMsg action c = actionToMsg (take 12 action) c'.
Proof.
  intros Hn. unfold actionToMsg. rewrite Hn.
  assert (forall i, (i < 12)%nat -> take 12 action !! i = action !! i) as Ht
    by (intros i Hi; apply lookup_take_lt; exact Hi).
  rewrite !Ht by lia. reflexivity.
Qed.

Lemma actionToMsg_first_12_witness :
  actionToMsg (replicate 20 F32.one) scenario_control
  = actionToMsg (take 12 (replicate 20 F32.one)) stale_control.
Proof.
  apply (actionToMsg_first_12 (replicate 20 F32.one) scenario_control stale_control).
  reflexivity.
Defined.

(** X3: with a policy loaded, [modelForward] completes exactly when the
    policy returns 12 values: fewer make [actionToMsg] read past the end of
    the action, more make [std::copy] write past the end of [last_action_]. *)
Theorem modelForward_defined_iff (goal : TwistStamped.t) (msg : LowState.t)
        (c : UnitreeNeuralControl) (forward : list F32.t -> list F32.t) :
  wf c -> module_ c = Some forward ->
  (is_Some (modelForward goal msg c) <->
   length (forward (fst (msgToTensor goal msg c))) = 12%nat).
Proof.
  intros Hwf Hmod. split.
  - apply modelForward_Some_length; assumption.
  - intros Hraw.
    destruct (modelForward_eq goal msg c forward Hwf Hmod Hraw) as (cmd & _ & ->).
    eexists. reflexivity.
Qed.

Lemma modelForward_defined_iff_witness :
  is_Some (modelForward scenario_goal scenario_msg
             (loadModel (constant_policy F32.one) scenario_control)) /\
  ~ is_Some (modelForward scenario_goal scenario_msg
               (loadModel (fun _ => replicate 13 F32.one) scenario_control)).
Proof.
  split.
  - apply (modelForward_defined_iff scenario_goal scenario_msg
             (loadModel (constant_policy F32.one) scenario_control)
             (constant_policy F32.one)); [apply construct_wf| |]; reflexivity.
  - intros H.
    apply (modelForward_defined_iff scenario_goal scenario_msg
             (loadModel (fun _ => replicate 13 F32.one) scenario_control)
             (fun _ => replicate 13 F32.one)) in H;
      [discriminate | apply construct_wf; reflexivity | reflexivity].
Defined.

(** X4: what a completed [modelForward] hands back: the tensor is this
    tick's feature vector, and joint target [i] of the command is the float
    sum of nominal offset [i] and the blended value, that is
    [nominal[i] + float(double(angle[i] - nominal[i]) + double(raw[i]) * 0.25)],
    with the fixed mode and gains. *)
Theorem modelForward_outputs (goal : TwistStamped.t) (msg : LowState.t)
        (c c' : UnitreeNeuralControl) (forward : list F32.t -> list F32.t)
        (cmd : LowCmd.t) (tensor : list F32.t) :
  wf c -> module_ c = Some forward ->
  modelForward goal msg c = Some (cmd, tensor, c') ->
  let raw := forward (fst (msgToTensor goal msg c)) in
  tensor = fst (msgToTensor goal msg c) /\
  (forall i, (i < 12)%nat ->
     LowCmd.targets cmd !! i =
     Some (F32.add (nominal_ c !!! i)
                   (blend (F32.sub (joint_angles msg !!! i) (nominal_ c !!! i))
                          (raw !!! i)))) /\
  LowCmd.common cmd = CommonCmd.mk PMSM_SERVO_MODE (F32.of_Z 20) (F32.lit 1 (-1)) /\
  foot_contact_ c' = foot_contact_ (snd (msgToTensor goal msg c)) /\
  cycles_since_last_contact_ c' = cycles_since_last_contact_ (snd (msgToTensor goal msg c)).
Proof.
  intros Hwf Hmod Hrun. cbv zeta.
  assert (length (forward (fst (msgToTensor goal msg c))) = 12%nat) as Hraw.
  { apply (modelForward_Some_length goal msg c forward Hwf Hmod). eexists. exact Hrun. }
  destruct (modelForward_eq goal msg c forward Hwf Hmod Hraw) as (cmd0 & Hcmd & Hrun').
  rewrite Hrun in Hrun'. injection Hrun' as -> -> ->.
  pose proof (msgToTensor_length goal msg c Hwf) as Hlen.
  pose proof (after_msgToTensor_fields msg c Hwf) as (_ & _ & Hn & _ & _).
  set (state := fst (msgToTensor goal msg c)) in *.
  set (action_vec := zip_with blend (take 12 state) (forward state)) in *.
  assert (forall i, (i < 12)%nat ->
            action_vec !! i =
            Some (blend (F32.sub (joint_angles msg !!! i) (nominal_ c !!! i))
                        (forward state !!! i))) as Hav.
  { intros i Hi. subst action_vec.
    rewrite lookup_zip_with, lookup_take_lt by lia.
    assert (state !! i = Some (F32.sub (joint_angles msg !!! i) (nominal_ c !!! i)))
      as ->.
    { subst state. rewrite msgToTensor_eq. cbn [fst].
      rewrite lookup_app_l by (cbn; lia).
      do 12 (destruct i as [|i]; [reflexivity|]). lia. }
    cbn [mbind option_bind].
    destruct (lookup_lt_is_Some_2 (forward state) i) as [r Hr]; [lia|].
    rewrite (total_lookup_of_lookup _ _ _ Hr), Hr. reflexivity. }
  split; [reflexivity|].
  unfold actionToMsg in Hcmd. rewrite Hn in Hcmd.
  rewrite !Hav in Hcmd by lia. cbn [mbind option_bind] in Hcmd.
  injection Hcmd as <-.
  split; [|split; [reflexivity|split]].
  - intros i Hi. do 12 (destruct i as [|i]; [reflexivity|]). lia.
  - rewrite msgToTensor_eq. reflexivity.
  - rewrite msgToTensor_eq. reflexivity.
Qed.

Lemma modelForward_outputs_witness :
  exists cmd tensor c',
    modelForward scenario_goal scenario_msg
                 (loadModel (constant_policy F32.one) scenario_control)
      = Some (cmd, tensor, c') /\
    LowCmd.targets cmd !! 0%nat =
    Some (F32.add F32.zero (blend (F32.sub (F32.lit 13421773 (-27)) F32.zero) F32.one)).
Proof.
  destruct (modelForward scenario_goal scenario_msg
              (loadModel (constant_policy F32.one) scenario_control))
    as [[[cmd tensor] c']|] eqn:E; [|vm_compute in E; discriminate].
  exists cmd, tensor, c'. split; [reflexivity|].
  apply (modelForward_outputs scenario_goal scenario_msg
           (loadModel (constant_policy F32.one) scenario_control) c'
           (constant_policy F32.one) cmd tensor);
    [apply construct_wf; reflexivity | reflexivity | exact E | lia].
Defined.

(** ** More on the contact flags *)

(** X7: [convertFootForceToContact] forgets the flags it finds: the flags
    after two calls are those of the second call alone, so calling it twice
    with the same forces changes nothing. *)
Theorem convertFootForceToContact_last_wins (foot1 foot2 : FootForceState.t)
        (c : UnitreeNeuralControl) :
  wf c ->
  convertFootForceToContact foot2 (convertFootForceToContact foot1 c) =
  convertFootForceToContact foot2 c.
Proof.
  intros Hwf. pose proof Hwf as (_ & _ & Hf & _).
  pose proof (convertFootForceToContact_wf foot1 c Hwf) as (_ & _ & Hf1 & _).
  rewrite (convertFootForceToContact_spec foot2 _ Hf1).
  rewrite (convertFootForceToContact_spec foot2 c Hf).
  rewrite (convertFootForceToContact_spec foot1 c Hf).
  reflexivity.
Qed.

Lemma convertFootForceToContact_last_wins_witness :
  convertFootForceToContact airborne (convertFootForceToContact standing scenario_control) =
  convertFootForceToContact airborne scenario_control.
Proof.
  apply (convertFootForceToContact_last_wins standing airborne scenario_control).
  exact scenario_control_wf.
Defined.

(** X8: in every feature vector a slot whose contact flag (entry [30 + i])
    is 1.0 has the cycle counter (entry [49 + i]) 0.0, and a slot whose
    flag is 0.0 has the float successor of the counter the controller held
    before the call. *)
Theorem msgToTensor_flag_and_counter (goal : TwistStamped.t) (msg : LowState.t)
        (c : UnitreeNeuralControl) (i : nat) :
  wf c -> (i < 4)%nat ->
  exists flag counter,
    fst (msgToTensor goal msg c) !! (30 + i)%nat = Some flag /\
    fst (msgToTensor goal msg c) !! (49 + i)%nat = Some counter /\
    (flag = F32.one -> counter = F32.zero) /\
    (flag = F32.zero ->
     counter = F32.add (cycles_since_last_contact_ c !!! i) F32.one).
Proof.
  intros Hwf Hi.
  pose proof (convertFootForceToContact_wf (LowState.foot_force msg) c Hwf)
    as Hwf1.
  pose proof Hwf1 as (_ & _ & Hf & Hc & _).
  pose proof Hwf as (_ & Hl & _).
  set (c1 := convertFootForceToContact (LowState.foot_force msg) c) in *.
  destruct (lookup_lt_is_Some_2 (foot_contact_ c1) i) as [flag Hflag]; [lia|].
  exists flag,
    (cycles_step flag (cycles_since_last_contact_ c !!! i)).
  assert (cycles_since_last_contact_ (after_msgToTensor msg c) !! i =
          Some (cycles_step flag (cycles_since_last_contact_ c !!! i))) as Hcyc.
  { unfold after_msgToTensor. fold c1. rewrite updateCycles_spec by lia.
    cbn [cycles_since_last_contact_ set_cycles_since_last_contact_].
    unfold cycles_after. rewrite lookup_zip_with, Hflag. cbn [mbind option_bind].
    destruct (lookup_lt_is_Some_2 (cycles_since_last_contact_ c1) i) as [x Hx]; [lia|].
    rewrite Hx. cbn. f_equal. f_equal.
    symmetry. apply total_lookup_of_lookup. exact Hx. }
  rewrite msgToTensor_eq. cbn [fst]. fold c1.
  set (cy := cycles_since_last_contact_ (after_msgToTensor msg c)) in *.
  split; [|split; [|split]].
  - transitivity
      (((pushJointPositions (LowState.motor_state msg) c ++ orientation_xyz msg
           ++ joint_velocities msg ++ goal_velocity goal)
          ++ foot_contact_ c1 ++ gravity_vector msg ++ last_action_ c ++ cy)
         !! (30 + i)%nat).
    { rewrite <- !app_assoc. reflexivity. }
    rewrite lookup_app_r by (cbn; lia).
    replace (30 + i - _)%nat with i by (cbn; lia).
    rewrite lookup_app_l by lia. exact Hflag.
  - transitivity
      (((pushJointPositions (LowState.motor_state msg) c ++ orientation_xyz msg
           ++ joint_velocities msg ++ goal_velocity goal
           ++ foot_contact_ c1 ++ gravity_vector msg ++ last_action_ c)
          ++ cy) !! (49 + i)%nat).
    { rewrite <- !app_assoc. reflexivity. }
    rewrite lookup_app_r by (rewrite !length_app, Hf, Hl; cbn; lia).
    replace (49 + i - _)%nat with i by (rewrite !length_app, Hf, Hl; cbn; lia).
    exact Hcyc.
  - intros ->. reflexivity.
  - intros ->. reflexivity.
Qed.

Lemma msgToTensor_flag_and_counter_witness :
  exists flag counter,
    fst (msgToTensor scenario_goal scenario_msg scenario_control) !! (30 + 1)%nat
      = Some flag /\
    fst (msgToTensor scenario_goal scenario_msg scenario_control) !! (49 + 1)%nat
      = Some counter /\
    flag = F32.one /\ counter = F32.zero.
Proof.
  destruct (msgToTensor_flag_and_counter scenario_goal scenario_msg scenario_control 1
              scenario_control_wf ltac:(lia))
    as (flag & counter & Hf & Hc & H1 & _).
  exists flag, counter. split; [exact Hf|]. split; [exact Hc|].
  assert (flag = F32.one) as E by (vm_compute in Hf; injection Hf as <-; reflexivity).
  split; [exact E | exact (H1 E)].
Defined.

(** ** More on the time since contact *)

Lemma F32_sub_zero (x : F32.t) : F32.sub x F32.zero = x.
Proof. destruct x as [[|]|[|]| |s m e]; reflexivity. Qed.

(** X9: the overload that takes the tick measures from the last call that
    found the slot in contact: after a call at tick [t1] with the flag of
    slot [i] at 1.0, new flags that are not 1.0 and a call at tick [t2],
    the duration of the slot is [tick_ms(t2) - tick_ms(t1)] and the stored
    last tick is still [tick_ms(t1)]; for a slot with no contact recorded
    since construction (last tick 0.0) the duration is [tick_ms] itself. *)
Theorem updateCycles_tick_elapsed :
  (forall (t1 t2 : Z) (foot : FootForceState.t) (c : UnitreeNeuralControl) (i : nat),
     wf c -> (i < 4)%nat ->
     F32.eqb (foot_contact_ c !!! i) F32.one = true ->
     F32.eqb (flags c foot !!! i) F32.one = false ->
     let c' := updateCyclesSinceLastContact_tick t2
                 (convertFootForceToContact foot
                    (updateCyclesSinceLastContact_tick t1 c)) in
     cycles_since_last_contact_ c' !!! i = F32.sub (tick_ms_of t2) (tick_ms_of t1) /\
     last_tick_ c' !!! i = tick_ms_of t1) /\
  (forall (t : Z) (c : UnitreeNeuralControl) (i : nat),
     wf c -> (i < 4)%nat ->
     last_tick_ c !!! i = F32.zero ->
     F32.eqb (foot_contact_ c !!! i) F32.one = false ->
     cycles_since_last_contact_ (updateCyclesSinceLastContact_tick t c) !!! i
     = tick_ms_of t).
Proof.
  split.
  - intros t1 t2 foot c i Hwf Hi Hin Hout. cbv zeta.
    pose proof Hwf as (_ & _ & Hf & Hc & Ht).
    pose proof (updateCycles_tick_wf t1 c Hwf) as Hwf1.
    set (c1 := updateCyclesSinceLastContact_tick t1 c) in *.
    assert (last_tick_ c1 !!! i = tick_ms_of t1) as Hlast.
    { subst c1. rewrite updateCycles_tick_spec by lia.
      cbn [last_tick_ set_cycles_since_last_contact_ set_last_tick_].
      rewrite zip_with_total_lookup by lia. unfold tick_step_last. rewrite Hin.
      reflexivity. }
    assert (foot_contact_threshold_ c1 = foot_contact_threshold_ c) as Hth.
    { subst c1. rewrite updateCycles_tick_spec by lia. reflexivity. }
    pose proof (convertFootForceToContact_wf foot c1 Hwf1) as Hwf2.
    pose proof Hwf2 as (_ & _ & Hf2 & Hc2 & Ht2).
    assert (foot_contact_ (convertFootForceToContact foot c1) = flags c foot) as Hfl.
    { symmetry. apply (flags_threshold c c1 foot Hwf Hwf1). symmetry. exact Hth. }
    rewrite updateCycles_tick_spec by lia.
    cbn [last_tick_ cycles_since_last_contact_ set_cycles_since_last_contact_
         set_last_tick_].
    rewrite !zip_with_total_lookup by lia.
    unfold tick_step_last, tick_step_cycles. rewrite Hfl, Hout.
    replace (last_tick_ (convertFootForceToContact foot c1)) with (last_tick_ c1)
      by reflexivity.
    rewrite Hlast. split; reflexivity.
  - intros t c i Hwf Hi H0 Hout.
    pose proof Hwf as (_ & _ & Hf & Hc & Ht).
    rewrite updateCycles_tick_spec by lia.
    cbn [cycles_since_last_contact_ set_cycles_since_last_contact_].
    rewrite zip_with_total_lookup by lia.
    unfold tick_step_cycles. rewrite Hout, H0. apply F32_sub_zero.
Qed.

Lemma updateCycles_tick_elapsed_witness :
  cycles_since_last_contact_
    (updateCyclesSinceLastContact_tick 7000
       (convertFootForceToContact airborne
          (updateCyclesSinceLastContact_tick 5000
             (convertFootForceToContact standing scenario_control)))) !!! 0%nat
  = F32.sub (tick_ms_of 7000) (tick_ms_of 5000).
Proof.
  apply (proj1 updateCycles_tick_elapsed 5000 7000 airborne
           (convertFootForceToContact standing scenario_control) 0%nat).
  - apply convertFootForceToContact_wf, scenario_control_wf.
  - lia.
  - reflexivity.
  - reflexivity.
Defined.

(** ** Sequences of calls *)

Lemma run_call_frame (k : call) (c c' : UnitreeNeuralControl) :
  wf c -> run_call k c = Some c' ->
  wf c' /\
  nominal_ c' = nominal_ c /\
  (sets_threshold k = false -> foot_contact_threshold_ c' = foot_contact_threshold_ c) /\
  (loads_model k = false -> module_ c' = module_ c) /\
  (takes_tick k = false -> last_tick_ c' = last_tick_ c) /\
  (runs_policy k = false -> last_action_ c' = last_action_ c).
Proof.
  intros Hwf Hrun. pose proof Hwf as (Hn & Hl & Hf & Hc & Ht).
  destruct k as [model|threshold|foot| |tick|goal msg|goal msg]; cbn [run_call] in Hrun.
  - injection Hrun as <-. repeat split; auto; discriminate.
  - injection Hrun as <-. repeat split; auto; discriminate.
  - injection Hrun as <-. split; [apply convertFootForceToContact_wf, Hwf|].
    repeat split; auto.
  - injection Hrun as <-. split; [apply updateCycles_wf, Hwf|].
    rewrite updateCycles_spec by lia. repeat split; auto.
  - injection Hrun as <-. split; [apply updateCycles_tick_wf, Hwf|].
    rewrite updateCycles_tick_spec by lia. repeat split; auto; discriminate.
  - rewrite msgToTensor_eq in Hrun. cbn [snd] in Hrun. injection Hrun as <-.
    split; [apply after_msgToTensor_wf, Hwf|].
    destruct (after_msgToTensor_fields msg c Hwf) as (Hm' & Hth' & Hn' & Hl' & Ht').
    repeat split; auto.
  - destruct (modelForward goal msg c) as [[[cmd tensor] c'']|] eqn:E; [|discriminate].
    injection Hrun as ->.
    destruct (modelForward_inv _ _ _ _ _ _ Hwf E) as (last & Hlast & ->).
    pose proof (after_msgToTensor_wf msg c Hwf) as (Hn1 & _ & Hf1 & Hc1 & Ht1).
    destruct (after_msgToTensor_fields msg c Hwf) as (Hm' & Hth' & Hn' & Hl' & Ht').
    split; [repeat split; auto|].
    repeat split; auto; discriminate.
Qed.

(** X5: whatever calls are made, the nominal pose stays the one the
    constructor was given; the policy changes only in [loadModel], the last
    ticks only in the overload that takes the tick, the last action only in
    [modelForward]. *)
Theorem run_calls_frame (ks : list call) (c c' : UnitreeNeuralControl) :
  wf c -> run_calls ks c = Some c' ->
  nominal_ c' = nominal_ c /\
  (forallb (fun k => negb (loads_model k)) ks = true -> module_ c' = module_ c) /\
  (forallb (fun k => negb (takes_tick k)) ks = true -> last_tick_ c' = last_tick_ c) /\
  (forallb (fun k => negb (runs_policy k)) ks = true -> last_action_ c' = last_action_ c).
Proof.
  revert c. induction ks as [|k ks IH]; intros c Hwf Hrun; cbn in Hrun.
  - injection Hrun as <-. auto.
  - destruct (run_call k c) as [c1|] eqn:E; [|discriminate].
    destruct (run_call_frame k c c1 Hwf E) as (Hwf1 & Hn & _ & Hm & Ht & Hl).
    destruct (IH c1 Hwf1 Hrun) as (Hn' & Hm' & Ht' & Hl').
    split; [congruence|]. cbn [forallb].
    repeat split; intros H; apply andb_prop in H; destruct H as [H1 H2];
      apply negb_true_iff in H1.
    + rewrite Hm' by exact H2. auto.
    + rewrite Ht' by exact H2. auto.
    + rewrite Hl' by exact H2. auto.
Qed.

(** X6: after any sequence of calls that succeeds, [getFootContactThreshold]
    returns the argument of the last [setFootContactThreshold], or the
    threshold before the sequence when there was none. *)
Theorem run_calls_threshold (ks : list call) (c c' : UnitreeNeuralControl) :
  wf c -> run_calls ks c = Some c' ->
  getFootContactThreshold c' = last_threshold ks (getFootContactThreshold c).
Proof.
  unfold getFootContactThreshold, last_threshold.
  revert c. induction ks as [|k ks IH]; intros c Hwf Hrun; cbn in Hrun.
  - injection Hrun as <-. reflexivity.
  - destruct (run_call k c) as [c1|] eqn:E; [|discriminate].
    destruct (run_call_frame k c c1 Hwf E) as (Hwf1 & _ & Hth & _).
    rewrite (IH c1 Hwf1 Hrun). cbn [fold_left]. f_equal.
    destruct k; try (apply Hth; reflexivity).
    cbn [run_call] in E. injection E as <-. reflexivity.
Qed.

Lemma run_calls_frame_witness :
  exists c',
    run_calls [call_setFootContactThreshold 30;
               call_msgToTensor scenario_goal scenario_msg;
               call_updateCycles_tick 5000;
               call_modelForward scenario_goal scenario_msg]
              (loadModel (constant_policy F32.one) scenario_control) = Some c' /\
    nominal_ c' = nominal_ scenario_control.
Proof.
  destruct (run_calls _ _) as [c'|] eqn:E; [|vm_compute in E; discriminate].
  exists c'. split; [reflexivity|].
  assert (wf (loadModel (constant_policy F32.one) scenario_control)) as Hwf
    by (apply construct_wf; reflexivity).
  exact (proj1 (run_calls_frame _ _ c' Hwf E)).
Defined.

Lemma run_calls_threshold_witness :
  exists c',
    run_calls [call_setFootContactThreshold 30;
               call_msgToTensor scenario_goal scenario_msg;
               call_setFootContactThreshold 70;
               call_updateCycles]
              scenario_control = Some c' /\
    getFootContactThreshold c' = 70.
Proof.
  destruct (run_calls _ _) as [c'|] eqn:E; [|vm_compute in E; discriminate].
  exists c'. split; [reflexivity|].
  apply (run_calls_threshold _ _ c' scenario_control_wf E).
Defined.

(** ** More on the gravity vector *)

Lemma gravity_yaw_at (w z : F32.t) (sx sy : bool) :
  F32.is_finite w = true -> F32.is_finite z = true ->
  exists gx gy : F32.t,
    convertToGravityVector_at (Eigen.mkQuaternion w (S754_zero sx) (S754_zero sy) z)
    = [gx; gy; F32.of_Z (-1)] /\
    F32.is_zero gx = true /\ F32.is_zero gy = true.
Proof.
  intros Hw Hz.
  destruct w as [sw|sw| |sw mw ew]; try discriminate;
    destruct z as [sz|sz| |sz mz ez]; try discriminate;
    destruct sw, sz, sx, sy;
    do 2 eexists; (split; [vm_compute; reflexivity|split; reflexivity]).
Qed.

(** X11: in binary32, an orientation with [x = y = 0] whose [w] and [z] are
    finite as floats (a rotation about the vertical, normalized or not)
    gives the gravity vector (0, 0, -1) exactly, the two zeros with either
    sign. *)
Theorem gravity_yaw_binary32 (orientation : Quaternion.t) :
  F32.is_zero (Quaternion.x orientation) = true ->
  F32.is_zero (Quaternion.y orientation) = true ->
  F32.is_finite (double_to_float (Quaternion.w orientation)) = true ->
  F32.is_finite (double_to_float (Quaternion.z orientation)) = true ->
  exists gx gy : F32.t,
    convertToGravityVector orientation = [gx; gy; F32.of_Z (-1)] /\
    F32.is_zero gx = true /\ F32.is_zero gy = true.
Proof.
  destruct orientation as [x y z w]. cbn [Quaternion.x Quaternion.y Quaternion.z Quaternion.w].
  intros Hx Hy Hw Hz.
  destruct x as [sx| | |]; try discriminate.
  destruct y as [sy| | |]; try discriminate.
  unfold convertToGravityVector.
  cbn [Quaternion.x Quaternion.y Quaternion.z Quaternion.w].
  change (double_to_float (S754_zero sx)) with (S754_zero sx).
  change (double_to_float (S754_zero sy)) with (S754_zero sy).
  apply gravity_yaw_at; assumption.
Qed.

Lemma gravity_yaw_binary32_witness :
  exists gx gy : F32.t,
    convertToGravityVector
      (Quaternion.mk (S754_zero false) (S754_zero true) (F64.lit 5 0) (F64.lit 3 (-2)))
    = [gx; gy; F32.of_Z (-1)].
Proof.
  destruct (gravity_yaw_binary32
              (Quaternion.mk (S754_zero false) (S754_zero true) (F64.lit 5 0) (F64.lit 3 (-2))))
    as (gx & gy & H & _); [reflexivity | reflexivity | reflexivity | reflexivity |].
  exists gx, gy. exact H.
Defined.
